(** * The speech session coordinator of [backend/]: a shallow embedding

    The three Python modules [main.py], [ws_fixed.py] and
    [ws_multilang_adaptive.py] are rendered as functions in a state and
    exception monad.  The closure variables of a websocket handler are the
    fields of a record, every [await] on a collaborator reads the answer
    from an oracle (the [World]) and is written to a trace together with
    the events sent to the client, and a Python exception is the [Raise]
    result.

    Conventions of the embedding:
    - [str] is [string], whose characters are the code points below 256;
    - [bytes] and [bytearray] are [list byte];
    - [float] is the binary64 of [PrimFloat], and [sum] over floats adds
      from left to right; the quotient of two [int]s is the quotient of
      their floats, which is the number Python computes as long as both
      are below 2^53 (for [rms_energy]: a chunk of fewer than 2^23
      samples);
    - [x ** 0.5] is computed by the [pow] of the C library, which need not
      round as the square root does.  In [cosine], whose last bit can
      decide a merge, the power is an oracle of the world; in [rms_energy]
      it is the IEEE square root: the mean square of fewer than 2^23
      samples is 90000 or at least 2^-23 away from it, so that the
      comparison of its root with the threshold 300 does not depend on the
      last bit;
    - the coroutines of a session run one at a time: [spawn] runs a callback
      to its end, and [ws_asr_loop] takes the inputs one after the other.
      That is one of the schedules of the event loop, the one in which no
      callback is still waiting on a collaborator when the next input
      comes; what is proved of a single callback is proved of a run that
      nothing interrupts;
    - the network always answers, and the body of an answer has the shape
      of the service's JSON: what the code reads from it is kept, the rest
      is dropped; the [text] of an audio answer is a string, [null] or
      absent;
    - an audio request records the PCM samples it carries: the 44 byte RIFF
      header that [pcm_to_wav] puts in front of them is a function of
      their length and is left out.  [pcm_to_wav] is embedded by itself;
      the functions that call it are embedded for audio on which it
      returns (less than 2^32 - 36 bytes, [fits_wav]), and a theorem that
      one of them returns says so. *)

From Stdlib Require Import ZArith List String Ascii Bool Floats SpecFloat Lia.
From Stdlib.Strings Require Import Byte.
From stdpp Require Import gmap strings list.

Set Warnings "-inexact-float,-abstract-large-number".

Local Open Scope string_scope.
Local Open Scope list_scope.
Local Open Scope Z_scope.

(** ** Python values *)

Abbreviation bytes := (list Byte.byte).

(** [str.isspace] on the code points below 256: TAB..CR, FS..US, the space,
    NEL and the no-break space. *)
Definition isspace (c : ascii) : bool :=
  let n := N_of_ascii c in
  (((9 <=? n) && (n <=? 13)) || ((28 <=? n) && (n <=? 31))
   || (n =? 32) || (n =? 133) || (n =? 160))%N.

Fixpoint lstrip (s : string) : string :=
  match s with
  | EmptyString => EmptyString
  | String c s' => if isspace c then lstrip s' else s
  end.

Fixpoint rstrip (s : string) : string :=
  match s with
  | EmptyString => EmptyString
  | String c s' =>
      match rstrip s' with
      | EmptyString => if isspace c then EmptyString else String c EmptyString
      | r => String c r
      end
  end.

(** [s.strip()] *)
Definition strip (s : string) : string := rstrip (lstrip s).

(** Truth value of a [str]: [bool(s)]. *)
Definition truthy (s : string) : bool := negb (String.eqb s "").

(** Truth value of an [Optional[str]]. *)
Definition truthy_opt (o : option string) : bool :=
  match o with Some s => truthy s | None => false end.

(** [str.lower] on the code points below 256: A..Z and the capital letters
    of Latin-1 (all of U+00C0..U+00DE but the multiplication sign). *)
Definition lower_char (c : ascii) : ascii :=
  let n := N_of_ascii c in
  if (((65 <=? n) && (n <=? 90))
      || ((192 <=? n) && (n <=? 222) && negb (n =? 215)))%N
  then ascii_of_N (n + 32) else c.

Fixpoint lower (s : string) : string :=
  match s with
  | EmptyString => EmptyString
  | String c s' => String (lower_char c) (lower s')
  end.

(** The exceptions the code can raise. *)
Inductive exn : Type :=
| StructError        (* struct.error *)
| KeyError
| IndexError
| ZeroDivisionError
| AttributeError.

Inductive Res (A : Type) : Type :=
| Ok (a : A)
| Raise (e : exn).
Arguments Ok {A} a.
Arguments Raise {A} e.

Definition is_ok {A} (r : Res A) : bool :=
  match r with Ok _ => true | Raise _ => false end.

(** [int] to [float], rounded to nearest even. *)
Definition Z2float (z : Z) : float := SF2Prim (binary_normalize 53 1024 z 0 false).

(** ** Utils of main.py (the same in ws_multilang_adaptive.py) *)

(** One little-endian signed 16-bit sample. *)
Definition int16_le (lo hi : Byte.byte) : Z :=
  let u := Z.of_N (Byte.to_N lo) + 256 * Z.of_N (Byte.to_N hi) in
  if u <? 32768 then u else u - 65536.

Fixpoint samples_of (pcm : bytes) : list Z :=
  match pcm with
  | lo :: hi :: rest => int16_le lo hi :: samples_of rest
  | _ => []
  end.

(** [struct.unpack("<" + "h" * n, pcm)]: the buffer must hold exactly the
    [2 * n] bytes of the format. *)
Definition struct_unpack_h (n : nat) (pcm : bytes) : Res (list Z) :=
  if Nat.eqb (length pcm) (2 * n) then Ok (samples_of pcm) else Raise StructError.

Definition sum_Z (l : list Z) : Z := fold_left Z.add l 0.

(** main.py 91-95 *)
Definition rms_energy (pcm : bytes) : Res float :=
  match pcm with
  | [] => Ok 0%float
  | _ =>
      match struct_unpack_h (length pcm / 2)%nat pcm with
      | Raise e => Raise e
      | Ok samples =>
          match samples with
          | [] => Raise ZeroDivisionError
          | _ =>
              Ok (PrimFloat.sqrt
                    (Z2float (sum_Z (map (fun s => s * s) samples))
                     / Z2float (Z.of_nat (length samples))))
          end
      end
  end.

Abbreviation Vector := (list float).

Definition sum_float (l : list float) : float := fold_left PrimFloat.add l 0%float.

(** main.py 217-221, with [pow x y] for [x ** y]: the power of two floats
    is the one of the C library of the platform, which is not bound to
    round [x ** 0.5] as the square root is rounded. *)
Definition cosine (pow : float -> float -> float) (a b : Vector) : float :=
  let dot := sum_float (zip_with PrimFloat.mul a b) in
  let na := pow (sum_float (map (fun x => x * x)%float a)) 0.5%float in
  let nb := pow (sum_float (map (fun x => x * x)%float b)) 0.5%float in
  (dot / (na * nb + 1e-8))%float.

Definition TARGET_LANG : string := "en".

(** main.py 52-66 (the same table in ws_fixed.py 23-37) *)
Definition LANG_MAP : gmap string string :=
  list_to_map
    [ ("english", "en-US"); ("en", "en-US");
      ("chinese", "zh-TW"); ("mandarin", "zh-CN"); ("zh", "zh-CN");
      ("japanese", "ja-JP"); ("ja", "ja-JP");
      ("korean", "ko-KR"); ("ko", "ko-KR");
      ("thai", "th-TH"); ("th", "th-TH");
      ("vietnamese", "vi-VN"); ("vi", "vi-VN");
      ("indonesian", "id-ID"); ("id", "id-ID");
      ("malay", "ms-MY"); ("ms", "ms-MY");
      ("hindi", "hi-IN"); ("hi", "hi-IN");
      ("french", "fr-FR"); ("fr", "fr-FR");
      ("german", "de-DE"); ("de", "de-DE");
      ("spanish", "es-ES"); ("es", "es-ES");
      ("portuguese", "pt-PT"); ("pt", "pt-PT") ].

(** [lang in LANG_MAP] *)
Definition in_LANG_MAP (lang : string) : bool :=
  match LANG_MAP !! lang with Some _ => true | None => false end.

(** [LANG_MAP.get(lang, "en-US")] *)
Definition LANG_MAP_get (lang : string) : string :=
  default "en-US" (LANG_MAP !! lang).

Arguments in_LANG_MAP : simpl never.
Arguments LANG_MAP_get : simpl never.

Definition SILENCE_RMS_THRESHOLD : float := 300%float.
Definition MIN_DETECT_SEC : float := 0.8%float.
Definition MAX_DETECT_SEC : float := 8.0%float.

(** ** The state and exception monad *)

Definition SE (S A : Type) : Type := S -> Res A * S.

Definition ret {S A} (a : A) : SE S A := fun s => (Ok a, s).

Definition bind {S A B} (m : SE S A) (k : A -> SE S B) : SE S B :=
  fun s =>
    match m s with
    | (Ok a, s') => k a s'
    | (Raise e, s') => (Raise e, s')
    end.

Definition raise {S A} (e : exn) : SE S A := fun s => (Raise e, s).

(** [try: m  except Exception: h] *)
Definition try_except {S A} (m : SE S A) (h : exn -> SE S A) : SE S A :=
  fun s =>
    match m s with
    | (Ok a, s') => (Ok a, s')
    | (Raise e, s') => h e s'
    end.

Definition gets {S A} (f : S -> A) : SE S A := fun s => (Ok (f s), s).
Definition modify {S} (f : S -> S) : SE S unit := fun s => (Ok tt, f s).

(** A computed value that may be an exception. *)
Definition of_res {S A} (r : Res A) : SE S A := fun s => (r, s).

Declare Scope se_scope.
Delimit Scope se_scope with se.
Notation "x <- c ;; k" := (bind c (fun x => k))
  (at level 100, c at next level, right associativity) : se_scope.
Notation "c ;; k" := (bind c (fun _ => k))
  (at level 100, right associativity) : se_scope.
Notation "'when' b 'then' c" := (if b then c else ret tt)
  (at level 100, b at level 99, c at level 100) : se_scope.
Local Open Scope se_scope.

(** ** Events, collaborators and the trace *)

(** A JSON value of an outbound event. *)
Inductive jval : Type :=
| JStr (s : string)
| JBool (b : bool).

(** An outbound event: the dict given to [ws.send_json], keys in order. *)
Abbreviation Event := (list (string * jval)).

(** The two audio endpoints of the transcription service. *)
Inductive AudioEndpoint : Type :=
| Transcriptions     (* /v1/audio/transcriptions *)
| Translations.      (* /v1/audio/translations *)

(** The multipart form posted with an audio file. *)
Record AudioRequest : Type := {
  endpoint : AudioEndpoint;
  file : bytes;
  response_format : option string;
  language : option string;
}.

(** The member [text] of the JSON object of an answer: the key is absent,
    or its value is [null], or it is a string. *)
Inductive JText : Type :=
| Absent
| Null
| Text (s : string).

(** The answer of an audio endpoint: status and, of the JSON object, the
    members [language] ([None]: absent or [null], which the code reads
    alike) and [text]. *)
Record AudioResponse : Type := {
  a_status : Z;
  a_language : option string;
  a_text : JText;
}.

(** The JSON of the translator: on success an array with, for every input
    text, its [translations] (the [text] of each); on failure the object
    holding [error]. *)
Inductive TranslatorBody : Type :=
| TItems (items : list (list string))
| TError (code : Z) (message : string).

Record TranslatorResponse : Type := {
  t_status : Z;
  t_body : TranslatorBody;
}.

(** The answer of the embeddings endpoint: status and the [embedding] of
    every item of [data]. *)
Record EmbeddingsResponse : Type := {
  e_status : Z;
  e_data : list Vector;
}.

(** What a session does that the outside can see, in order. *)
Inductive Action : Type :=
| Send (ev : Event)                                          (* ws.send_json *)
| PostAudio (rq : AudioRequest) (rs : AudioResponse)
| PostTranslate (text target : string) (rs : TranslatorResponse)
| PostEmbeddings (input : string) (rs : EmbeddingsResponse)
| RecognizerStart (azure_lang : string)       (* start_continuous_recognition *)
| RecognizerStop                               (* stop_continuous_recognition *)
| StreamWrite (chunk : bytes)                  (* push_stream.write *)
| StreamClose                                  (* push_stream.close *)
| Sleep (seconds : float).                     (* asyncio.sleep *)

(** The oracle: what the [n]-th request of the session is answered, what
    the [n]-th reading of [time.perf_counter] is, and what the power of two
    floats is on the platform. *)
Record World : Type := {
  openai_audio : nat -> AudioRequest -> AudioResponse;
  azure_translator : nat -> string -> string -> TranslatorResponse;
  openai_embeddings : nat -> string -> EmbeddingsResponse;
  perf_counter_at : nat -> float;
  float_pow : float -> float -> float;
}.

Record Env : Type := {
  world : World;
  requests : nat;        (* requests posted so far *)
  clock_reads : nat;     (* readings of the clock so far *)
  trace : list Action;
}.

Definition IO (A : Type) : Type := SE Env A.

Definition logged (a : Action) (e : Env) : Env :=
  {| world := world e; requests := requests e;
     clock_reads := clock_reads e; trace := trace e ++ [a] |}.

Definition act (a : Action) : IO unit := modify (logged a).

Definition posted (a : Action) (e : Env) : Env :=
  {| world := world e; requests := S (requests e);
     clock_reads := clock_reads e; trace := trace e ++ [a] |}.

Definition post_audio (rq : AudioRequest) : IO AudioResponse :=
  fun e => let rs := openai_audio (world e) (requests e) rq in
           (Ok rs, posted (PostAudio rq rs) e).

Definition post_translate (text target : string) : IO TranslatorResponse :=
  fun e => let rs := azure_translator (world e) (requests e) text target in
           (Ok rs, posted (PostTranslate text target rs) e).

Definition post_embeddings (input : string) : IO EmbeddingsResponse :=
  fun e => let rs := openai_embeddings (world e) (requests e) input in
           (Ok rs, posted (PostEmbeddings input rs) e).

(** [time.perf_counter()] *)
Definition ticked (e : Env) : Env :=
  {| world := world e; requests := requests e;
     clock_reads := S (clock_reads e); trace := trace e |}.

Definition perf_counter : IO float :=
  fun e => (Ok (perf_counter_at (world e) (clock_reads e)), ticked e).

(** [ws.send_json] *)
Definition send_json (ev : Event) : IO unit := act (Send ev).

(** The request of [whisper_detect]: the file, [whisper-1], verbose JSON. *)
Definition detect_request (pcm : bytes) : AudioRequest :=
  {| endpoint := Transcriptions; file := pcm;
     response_format := Some "verbose_json"; language := None |}.

(** The request of [whisper_transcribe]: the file and [whisper-1]. *)
Definition transcribe_request (pcm : bytes) : AudioRequest :=
  {| endpoint := Transcriptions; file := pcm;
     response_format := None; language := None |}.

(** The request of [whisper_translate]. *)
Definition translate_audio_request (pcm : bytes) : AudioRequest :=
  {| endpoint := Translations; file := pcm;
     response_format := None; language := None |}.

(** [(data.get("language") or "unknown")] *)
Definition language_or_unknown (rs : AudioResponse) : string :=
  match a_language rs with
  | Some l => if truthy l then l else "unknown"
  | None => "unknown"
  end.

(** [data.get("text", "")], an [Optional[str]]: the default stands in for
    an absent key, not for a [null], which is [None]. *)
Definition text_or_empty (rs : AudioResponse) : option string :=
  match a_text rs with
  | Absent => Some ""
  | Null => None
  | Text s => Some s
  end.

(** [(data.get("text") or "")] *)
Definition text_or_blank (rs : AudioResponse) : string :=
  match a_text rs with
  | Text s => s
  | _ => ""
  end.

(** main.py 101-121 *)
Definition whisper_detect (pcm : bytes) : IO string :=
  match pcm with
  | [] => ret "unknown"
  | _ =>
      resp <- post_audio (detect_request pcm) ;;
      if negb (a_status resp =? 200) then ret "unknown"
      else ret (lower (language_or_unknown resp))
  end.

(** main.py 127-145 *)
Definition whisper_transcribe (pcm : bytes) : IO (option string) :=
  match pcm with
  | [] => ret (Some "")
  | _ =>
      resp <- post_audio (transcribe_request pcm) ;;
      if negb (a_status resp =? 200) then ret (Some "")
      else ret (text_or_empty resp)
  end.

(** main.py 151-172 *)
Definition whisper_translate (pcm : bytes) : IO (option string) :=
  match pcm with
  | [] => ret (Some "")
  | _ =>
      resp <- post_audio (translate_audio_request pcm) ;;
      if negb (a_status resp =? 200) then ret (Some "")
      else ret (text_or_empty resp)
  end.

(** [data[0]["translations"][0]["text"]] *)
Definition first_translation (data : TranslatorBody) : Res string :=
  match data with
  | TError _ _ => Raise KeyError                 (* data[0] on a dict *)
  | TItems [] => Raise IndexError
  | TItems ([] :: _) => Raise IndexError
  | TItems ((t :: _) :: _) => Ok t
  end.

(** main.py 178-193 *)
Definition azure_translate (text target : string) : IO string :=
  if negb (truthy (strip text)) then ret ""
  else
    resp <- post_translate text target ;;
    of_res (first_translation (t_body resp)).

(** main.py 199-214 *)
Definition embed (text : string) : IO (option Vector) :=
  if negb (truthy text) then ret None
  else
    resp <- post_embeddings text ;;
    if negb (e_status resp =? 200) then ret None
    else
      match e_data resp with
      | [] => raise IndexError
      | v :: _ => ret (Some v)
      end.

(** ** A session in its environment *)

(** The variables [V] of a websocket handler, and the environment. *)
Record State (V : Type) : Type := {
  vars : V;
  env : Env;
}.
Arguments vars {V} s.
Arguments env {V} s.

(** An effect on the environment, the variables untouched. *)
Definition io {V A} (m : IO A) : SE (State V) A :=
  fun s => let (r, e') := m (env s) in (r, {| vars := vars s; env := e' |}).

(** The power of floats of the platform. *)
Definition platform_pow {V} : SE (State V) (float -> float -> float) :=
  gets (fun s => float_pow (world (env s))).

(** Reading a variable, and a [nonlocal] assignment. *)
Definition get {V A} (f : V -> A) : SE (State V) A := gets (fun s => f (vars s)).
Definition assign {V} (f : V -> V) : SE (State V) unit :=
  modify (fun s => {| vars := f (vars s); env := env s |}).

(** A coroutine handed to the event loop ([run_coroutine_threadsafe],
    [create_task]): it runs, and an exception ends it and stays in its
    future. *)
Definition spawn {V} (m : SE (State V) unit) (s : State V) : State V := snd (m s).

(** ** The events of the protocol *)

Definition ev_lang (lang : string) : Event :=
  [("type", JStr "lang"); ("lang", JStr lang)].
Definition ev_lang_locked (lang : string) : Event :=
  [("type", JStr "lang_locked"); ("lang", JStr lang)].
Definition ev_partial (text : string) : Event :=
  [("type", JStr "partial"); ("text", JStr text)].
Definition ev_mid_translate (translated : string) : Event :=
  [("type", JStr "mid_translate"); ("translated", JStr translated)].
Definition ev_final (text : string) : Event :=
  [("type", JStr "final"); ("text", JStr text)].
Definition ev_final_corrected (text : string) : Event :=
  [("type", JStr "final"); ("text", JStr text);
   ("corrected", JBool true); ("replayed", JBool true)].
Definition ev_final_translate (translated : string) (provisional replace_last : bool) : Event :=
  [("type", JStr "final_translate"); ("translated", JStr translated);
   ("provisional", JBool provisional); ("replace_last", JBool replace_last)].
Definition ev_final_translate_replayed (translated : string) : Event :=
  [("type", JStr "final_translate"); ("translated", JStr translated);
   ("provisional", JBool false); ("replace_last", JBool false);
   ("replayed", JBool true)].
Definition ev_invalidate_all_asr : Event := [("type", JStr "invalidate_all_asr")].
Definition ev_invalidate_all_translation : Event :=
  [("type", JStr "invalidate_all_translation")].

(** [ev[key]] *)
Fixpoint field (key : string) (ev : Event) : option jval :=
  match ev with
  | [] => None
  | (k, v) :: rest => if String.eqb k key then Some v else field key rest
  end.

Definition has_type (t : string) (ev : Event) : bool :=
  match field "type" ev with
  | Some (JStr t') => String.eqb t' t
  | _ => false
  end.

(** ** The session of main.py: [ws_asr] *)

(** An element of [utterance_history]. *)
Record Entry : Type := {
  pcm : bytes;
  azure_text : string;
  azure_translation : option string;
}.

Definition set_azure_translation (v : option string) (x : Entry) : Entry :=
  {| pcm := pcm x; azure_text := azure_text x; azure_translation := v |}.

(** The variables of [ws_asr] that its closures share (main.py 233-253).
    The recognizer is known by the language it was configured with. *)
Record Session : Type := {
  detect_buffer : bytes;
  current_utt_audio : bytes;
  provisional_lang : option string;
  lang_locked : bool;
  recognizer : option string;
  push_stream : bool;
  first_speech_time : option float;
  last_translation_text : option string;
  last_translation_time : option float;
  last_translation_embedding : option Vector;
  utterance_history : list Entry;
}.

Definition set_detect_buffer (v : bytes) (x : Session) : Session :=
  {| detect_buffer := v; current_utt_audio := current_utt_audio x;
     provisional_lang := provisional_lang x; lang_locked := lang_locked x;
     recognizer := recognizer x; push_stream := push_stream x;
     first_speech_time := first_speech_time x;
     last_translation_text := last_translation_text x;
     last_translation_time := last_translation_time x;
     last_translation_embedding := last_translation_embedding x;
     utterance_history := utterance_history x |}.

Definition set_current_utt_audio (v : bytes) (x : Session) : Session :=
  {| detect_buffer := detect_buffer x; current_utt_audio := v;
     provisional_lang := provisional_lang x; lang_locked := lang_locked x;
     recognizer := recognizer x; push_stream := push_stream x;
     first_speech_time := first_speech_time x;
     last_translation_text := last_translation_text x;
     last_translation_time := last_translation_time x;
     last_translation_embedding := last_translation_embedding x;
     utterance_history := utterance_history x |}.

Definition set_provisional_lang (v : option string) (x : Session) : Session :=
  {| detect_buffer := detect_buffer x; current_utt_audio := current_utt_audio x;
     provisional_lang := v; lang_locked := lang_locked x;
     recognizer := recognizer x; push_stream := push_stream x;
     first_speech_time := first_speech_time x;
     last_translation_text := last_translation_text x;
     last_translation_time := last_translation_time x;
     last_translation_embedding := last_translation_embedding x;
     utterance_history := utterance_history x |}.

Definition set_lang_locked (v : bool) (x : Session) : Session :=
  {| detect_buffer := detect_buffer x; current_utt_audio := current_utt_audio x;
     provisional_lang := provisional_lang x; lang_locked := v;
     recognizer := recognizer x; push_stream := push_stream x;
     first_speech_time := first_speech_time x;
     last_translation_text := last_translation_text x;
     last_translation_time := last_translation_time x;
     last_translation_embedding := last_translation_embedding x;
     utterance_history := utterance_history x |}.

Definition set_recognizer (v : option string) (x : Session) : Session :=
  {| detect_buffer := detect_buffer x; current_utt_audio := current_utt_audio x;
     provisional_lang := provisional_lang x; lang_locked := lang_locked x;
     recognizer := v; push_stream := push_stream x;
     first_speech_time := first_speech_time x;
     last_translation_text := last_translation_text x;
     last_translation_time := last_translation_time x;
     last_translation_embedding := last_translation_embedding x;
     utterance_history := utterance_history x |}.

Definition set_push_stream (v : bool) (x : Session) : Session :=
  {| detect_buffer := detect_buffer x; current_utt_audio := current_utt_audio x;
     provisional_lang := provisional_lang x; lang_locked := lang_locked x;
     recognizer := recognizer x; push_stream := v;
     first_speech_time := first_speech_time x;
     last_translation_text := last_translation_text x;
     last_translation_time := last_translation_time x;
     last_translation_embedding := last_translation_embedding x;
     utterance_history := utterance_history x |}.

Definition set_first_speech_time (v : option float) (x : Session) : Session :=
  {| detect_buffer := detect_buffer x; current_utt_audio := current_utt_audio x;
     provisional_lang := provisional_lang x; lang_locked := lang_locked x;
     recognizer := recognizer x; push_stream := push_stream x;
     first_speech_time := v;
     last_translation_text := last_translation_text x;
     last_translation_time := last_translation_time x;
     last_translation_embedding := last_translation_embedding x;
     utterance_history := utterance_history x |}.

Definition set_last_translation_text (v : option string) (x : Session) : Session :=
  {| detect_buffer := detect_buffer x; current_utt_audio := current_utt_audio x;
     provisional_lang := provisional_lang x; lang_locked := lang_locked x;
     recognizer := recognizer x; push_stream := push_stream x;
     first_speech_time := first_speech_time x;
     last_translation_text := v;
     last_translation_time := last_translation_time x;
     last_translation_embedding := last_translation_embedding x;
     utterance_history := utterance_history x |}.

Definition set_last_translation_time (v : option float) (x : Session) : Session :=
  {| detect_buffer := detect_buffer x; current_utt_audio := current_utt_audio x;
     provisional_lang := provisional_lang x; lang_locked := lang_locked x;
     recognizer := recognizer x; push_stream := push_stream x;
     first_speech_time := first_speech_time x;
     last_translation_text := last_translation_text x;
     last_translation_time := v;
     last_translation_embedding := last_translation_embedding x;
     utterance_history := utterance_history x |}.

Definition set_last_translation_embedding (v : option Vector) (x : Session) : Session :=
  {| detect_buffer := detect_buffer x; current_utt_audio := current_utt_audio x;
     provisional_lang := provisional_lang x; lang_locked := lang_locked x;
     recognizer := recognizer x; push_stream := push_stream x;
     first_speech_time := first_speech_time x;
     last_translation_text := last_translation_text x;
     last_translation_time := last_translation_time x;
     last_translation_embedding := v;
     utterance_history := utterance_history x |}.

Definition set_utterance_history (v : list Entry) (x : Session) : Session :=
  {| detect_buffer := detect_buffer x; current_utt_audio := current_utt_audio x;
     provisional_lang := provisional_lang x; lang_locked := lang_locked x;
     recognizer := recognizer x; push_stream := push_stream x;
     first_speech_time := first_speech_time x;
     last_translation_text := last_translation_text x;
     last_translation_time := last_translation_time x;
     last_translation_embedding := last_translation_embedding x;
     utterance_history := v |}.

(** The monad of the handlers of main.py. *)
Definition M (A : Type) : Type := SE (State Session) A.

(** main.py 258-277 and 462-468 *)
Definition start_azure (lang : string) : M unit :=
  let azure_lang := LANG_MAP_get lang in
  assign (set_push_stream true) ;;
  assign (set_recognizer (Some azure_lang)) ;;
  io (act (RecognizerStart azure_lang)).

(** main.py 470-490 *)
Definition restart_azure : M unit :=
  r <- get recognizer ;;
  (when bool_decide (is_Some r) then io (act RecognizerStop)) ;;
  p <- get push_stream ;;
  (when p then io (act StreamClose)) ;;
  assign (set_recognizer None) ;;
  assign (set_push_stream false) ;;
  io (act (Sleep 0.2%float)) ;;
  pl <- get provisional_lang ;;
  match pl with
  | Some l => when truthy l then start_azure l
  | None => ret tt
  end.

(** main.py 279-282 *)
Definition send_mid_translate (text : string) : M unit :=
  trans <- io (azure_translate text TARGET_LANG) ;;
  io (send_json (ev_mid_translate trans)).

(** main.py 284-295, on the text of the event *)
Definition on_partial (text : string) (s : State Session) : State Session :=
  if truthy text then
    spawn (send_mid_translate text) (spawn (io (send_json (ev_partial text))) s)
  else s.

(** main.py 329-372: the merge decision on the translation of an utterance,
    the emission, and the update of the merge context. *)
Definition on_final_translate (trans : string) : M unit :=
  now <- io perf_counter ;;
  emb <- try_except (io (embed trans)) (fun _ => ret None) ;;
  last_emb <- get last_translation_embedding ;;
  last_time <- get last_translation_time ;;
  pow <- platform_pow ;;
  let merge :=
    match emb, last_emb, last_time with
    | Some e, Some e0, Some t0 =>
        (0.75 <? cosine pow e e0)%float && (now - t0 <? 1.0)%float
    | _, _, _ => false
    end in
  last_text <- get last_translation_text ;;
  locked <- get lang_locked ;;
  match merge, last_text with
  | true, Some prev =>
      let merged_text := prev +:+ " " +:+ trans in
      io (send_json (ev_final_translate merged_text (negb locked) true)) ;;
      assign (set_last_translation_text (Some merged_text))
  | _, _ =>
      io (send_json (ev_final_translate trans (negb locked) false)) ;;
      assign (set_last_translation_text (Some trans))
  end ;;
  match emb with
  | Some e =>
      assign (set_last_translation_embedding (Some e)) ;;
      assign (set_last_translation_time (Some now))
  | None => ret tt
  end.

(** main.py 406-441: the body of the replay loop.  [correct_text.strip()]
    and [correct_trans.strip()] are looked up on what the two functions
    returned: [None] has no [strip]. *)
Definition replay_entry (entry : Entry) : M unit :=
  let pcm_bytes := pcm entry in
  correct_text <- io (whisper_transcribe pcm_bytes) ;;
  correct_trans <- io (whisper_translate pcm_bytes) ;;
  match correct_text with
  | None => raise AttributeError
  | Some correct_text =>
      (when truthy (strip correct_text) then
         io (send_json (ev_final_corrected correct_text))) ;;
      match correct_trans with
      | None => raise AttributeError
      | Some correct_trans =>
          when truthy (strip correct_trans) then
            (io (send_json (ev_final_translate_replayed correct_trans)) ;;
             now2 <- io perf_counter ;;
             emb2 <- try_except (io (embed correct_trans)) (fun _ => ret None) ;;
             assign (set_last_translation_text (Some correct_trans)) ;;
             match emb2 with
             | Some e =>
                 assign (set_last_translation_embedding (Some e)) ;;
                 assign (set_last_translation_time (Some now2))
             | None => ret tt
             end)
      end
  end.

(** main.py 405: [for idx, entry in enumerate(utterance_history)] *)
Fixpoint replay (history : list Entry) : M unit :=
  match history with
  | [] => ret tt
  | entry :: rest => replay_entry entry ;; replay rest
  end.

(** main.py 391-450: case A. *)
Definition on_mismatch (detected : string) : M unit :=
  assign (set_last_translation_text None) ;;
  assign (set_last_translation_embedding None) ;;
  assign (set_last_translation_time None) ;;
  io (send_json ev_invalidate_all_asr) ;;
  io (send_json ev_invalidate_all_translation) ;;
  history <- get utterance_history ;;
  replay history ;;
  assign (set_utterance_history []) ;;
  assign (set_provisional_lang (Some detected)) ;;
  assign (set_lang_locked true) ;;
  io (send_json (ev_lang_locked detected)) ;;
  restart_azure.

(** main.py 380-460: what [on_final] does with the detected language. *)
Definition on_final_verify (detected : string) : M unit :=
  pl <- get provisional_lang ;;
  (when bool_decide (pl = None) && in_LANG_MAP detected then
     assign (set_provisional_lang (Some detected))) ;;
  locked <- get lang_locked ;;
  if locked then assign (set_current_utt_audio [])
  else
    pl <- get provisional_lang ;;
    match pl with
    | Some p =>
        if in_LANG_MAP detected && negb (String.eqb detected p) then
          on_mismatch detected
        else if String.eqb detected p then
          assign (set_lang_locked true) ;;
          io (send_json (ev_lang_locked detected))
        else ret tt
    | None => ret tt
    end ;;
    assign (set_current_utt_audio []).

(** main.py 297-460 *)
Definition on_final (text : string) : M unit :=
  utt_pcm <- get current_utt_audio ;;
  idx <- get (fun x => length (utterance_history x)) ;;
  let history_entry :=
    {| pcm := utt_pcm; azure_text := text; azure_translation := None |} in
  assign (fun x => set_utterance_history (utterance_history x ++ [history_entry]) x) ;;
  io (send_json (ev_final text)) ;;
  trans <- io (azure_translate text TARGET_LANG) ;;
  assign (fun x => set_utterance_history
                     (alter (set_azure_translation (Some trans)) idx
                        (utterance_history x)) x) ;;
  on_final_translate trans ;;
  detected <- io (whisper_detect utt_pcm) ;;
  on_final_verify detected.

(** main.py 497-535: the body of the main loop, on one chunk. *)
Definition ws_asr_chunk (chunk : bytes) : M unit :=
  assign (fun x => set_current_utt_audio (current_utt_audio x ++ chunk) x) ;;
  pl <- get provisional_lang ;;
  match pl with
  | None =>
      energy <- of_res (rms_energy chunk) ;;
      if (energy <? SILENCE_RMS_THRESHOLD)%float then ret tt
      else
        fs <- get first_speech_time ;;
        t0 <- match fs with
              | None =>
                  t <- io perf_counter ;;
                  assign (set_first_speech_time (Some t)) ;;
                  ret t
              | Some t => ret t
              end ;;
        assign (fun x => set_detect_buffer (detect_buffer x ++ chunk) x) ;;
        now <- io perf_counter ;;
        let elapsed := (now - t0)%float in
        pl1 <- get provisional_lang ;;
        (when (MIN_DETECT_SEC <=? elapsed)%float && bool_decide (pl1 = None) then
           (buf <- get detect_buffer ;;
            lang <- io (whisper_detect buf) ;;
            let lang := if in_LANG_MAP lang then lang else "english" in
            assign (set_provisional_lang (Some lang)))) ;;
        pl2 <- get provisional_lang ;;
        (when (MAX_DETECT_SEC <=? elapsed)%float && bool_decide (pl2 = None) then
           assign (set_provisional_lang (Some "english"))) ;;
        pl3 <- get provisional_lang ;;
        match pl3 with
        | Some l =>
            when truthy l then
              (io (send_json (ev_lang l)) ;;
               start_azure l ;;
               ps <- get push_stream ;;
               buf <- get detect_buffer ;;
               (when ps && negb (bool_decide (buf = [])) then
                  io (act (StreamWrite buf))) ;;
               assign (set_detect_buffer []))
        | None => ret tt
        end
  | Some _ =>
      ps <- get push_stream ;;
      when ps then io (act (StreamWrite chunk))
  end.

(** What reaches the session: a binary frame of the client, or a callback
    of the recognition engine with the text of its result. *)
Inductive Input : Type :=
| Chunk (chunk : bytes)
| Recognizing (text : string)
| Recognized (text : string).

(** One input.  A callback fires only while a recognizer is connected; what
    it schedules cannot raise into the main loop. *)
Definition handle (i : Input) : M unit :=
  match i with
  | Chunk chunk => ws_asr_chunk chunk
  | Recognizing text =>
      fun s => (Ok tt, if bool_decide (is_Some (recognizer (vars s)))
                       then on_partial text s else s)
  | Recognized text =>
      fun s => (Ok tt, if bool_decide (is_Some (recognizer (vars s)))
                       then spawn (on_final text) s else s)
  end.

(** main.py 496: [async for chunk in ws.iter_bytes()], with the callbacks
    that arrive in between. *)
Fixpoint ws_asr_loop (inputs : list Input) : M unit :=
  match inputs with
  | [] => ret tt
  | i :: rest => handle i ;; ws_asr_loop rest
  end.

(** main.py 537-545: the [finally] of the handler. *)
Definition ws_asr_finally : M unit :=
  r <- get recognizer ;;
  (when bool_decide (is_Some r) then io (act RecognizerStop)) ;;
  p <- get push_stream ;;
  when p then io (act StreamClose).

Definition initial_session : Session :=
  {| detect_buffer := []; current_utt_audio := [];
     provisional_lang := None; lang_locked := false;
     recognizer := None; push_stream := false;
     first_speech_time := None;
     last_translation_text := None; last_translation_time := None;
     last_translation_embedding := None;
     utterance_history := [] |}.

Definition initial (w : World) : State Session :=
  {| vars := initial_session;
     env := {| world := w; requests := 0; clock_reads := 0; trace := [] |} |}.

(** ** The fixed-language session of ws_fixed.py *)

Module ws_fixed.

(** ws_fixed.py 49-81 *)
Definition azure_translate (text target : string) : IO string :=
  if negb (truthy text) || negb (truthy (strip text)) then ret ""
  else
    try_except
      (resp <- post_translate text target ;;
       if negb (t_status resp =? 200) then ret ""
       else of_res (first_translation (t_body resp)))
      (fun _ => ret "").

Inductive TaskStatus : Type :=
| Sleeping      (* in [asyncio.sleep(0.3)] *)
| Finished
| Cancelled.

(** A task made of [delayed_translate]: the text it closed over, and the
    time of the loop at which its sleep ends. *)
Record Task : Type := {
  task_text : string;
  wake_at : float;
  status : TaskStatus;
}.

Definition set_status (v : TaskStatus) (t : Task) : Task :=
  {| task_text := task_text t; wake_at := wake_at t; status := v |}.

(** [task.cancel()]: a task that is done stays as it is. *)
Definition cancel (t : Task) : Task :=
  match status t with
  | Sleeping => set_status Cancelled t
  | _ => t
  end.

(** The variables of [ws_fixed] that [on_recognizing] shares (ws_fixed.py
    141-142), and the tasks the event loop holds, in the order of their
    creation; [translate_task] refers to one of them. *)
Record Session : Type := {
  last_partial_text : string;
  translate_task : option nat;
  tasks : list Task;
}.

Definition set_last_partial_text (v : string) (x : Session) : Session :=
  {| last_partial_text := v; translate_task := translate_task x; tasks := tasks x |}.
Definition set_translate_task (v : option nat) (x : Session) : Session :=
  {| last_partial_text := last_partial_text x; translate_task := v; tasks := tasks x |}.
Definition set_tasks (v : list Task) (x : Session) : Session :=
  {| last_partial_text := last_partial_text x; translate_task := translate_task x;
     tasks := v |}.

Definition M (A : Type) : Type := SE (State Session) A.

(** ws_fixed.py 147-148 *)
Definition send_partial (text : string) : M unit :=
  io (send_json (ev_partial text)).

(** ws_fixed.py 150-158 *)
Definition send_mid_translate (text : string) : M unit :=
  if negb (truthy (strip text)) then ret tt
  else
    trans <- io (azure_translate text TARGET_LANG) ;;
    when truthy trans then io (send_json (ev_mid_translate trans)).

(** ws_fixed.py 160-183 *)
Definition send_final (text : string) : M unit :=
  io (send_json (ev_final text)) ;;
  trans <- io (azure_translate text TARGET_LANG) ;;
  (when truthy trans then
     io (send_json (ev_final_translate trans false false))) ;;
  io (send_json (ev_mid_translate "")).

(** ws_fixed.py 188-217, called at the time [now] of the loop. *)
Definition on_recognizing (now : float) (text : string) : M unit :=
  if negb (truthy text) then ret tt
  else
    (fun s => (Ok tt, spawn (send_partial text) s)) ;;
    last <- get last_partial_text ;;
    if String.eqb text last then ret tt
    else
      assign (set_last_partial_text text) ;;
      task <- get translate_task ;;
      match task with
      | Some i => assign (fun x => set_tasks (alter cancel i (tasks x)) x)
      | None => ret tt
      end ;;
      n <- get (fun x => length (tasks x)) ;;
      assign (fun x => set_tasks
                (tasks x ++ [{| task_text := text; wake_at := (now + 0.3)%float;
                                status := Sleeping |}]) x) ;;
      assign (set_translate_task (Some n)).

(** ws_fixed.py 219-224 *)
Definition on_recognized (text : string) : M unit :=
  if truthy text then fun s => (Ok tt, spawn (send_final text) s) else ret tt.

(** ws_fixed.py 210-215: the sleeping tasks whose sleep has ended at [now]
    go on, in the order of their creation. *)
Fixpoint run_due_from (now : float) (i : nat) (ts : list Task) : M unit :=
  match ts with
  | [] => ret tt
  | t :: rest =>
      (match status t with
       | Sleeping =>
           when (wake_at t <=? now)%float then
             (assign (fun x => set_tasks (alter (set_status Finished) i (tasks x)) x) ;;
              fun s => (Ok tt, spawn (send_mid_translate (task_text t)) s))
       | _ => ret tt
       end) ;;
      run_due_from now (S i) rest
  end.

Definition run_due (now : float) : M unit :=
  ts <- get tasks ;;
  run_due_from now 0 ts.

(** A callback of the recognizer, with the time of the loop at which it
    runs. *)
Inductive Input : Type :=
| Recognizing (now : float) (text : string)
| Recognized (now : float) (text : string).

Definition handle (i : Input) : M unit :=
  match i with
  | Recognizing now text => run_due now ;; on_recognizing now text
  | Recognized now text => run_due now ;; on_recognized text
  end.

Fixpoint callbacks (inputs : list Input) : M unit :=
  match inputs with
  | [] => ret tt
  | i :: rest => handle i ;; callbacks rest
  end.

(** The callbacks in order, and then every sleep that is left ends. *)
Definition run (inputs : list Input) (s : State Session) : State Session :=
  snd ((callbacks inputs ;; run_due infinity) s).

Definition initial (w : World) : State Session :=
  {| vars := {| last_partial_text := ""; translate_task := None; tasks := [] |};
     env := {| world := w; requests := 0; clock_reads := 0; trace := [] |} |}.

End ws_fixed.

(** ** The candidate-cache session of ws_multilang_adaptive.py *)

Module ws_multilang_adaptive.

Definition MAX_CANDIDATES : nat := 5.

(** [l.remove(x)]: the first occurrence goes. *)
Fixpoint remove_first (x : string) (l : list string) : list string :=
  match l with
  | [] => []
  | y :: rest => if String.eqb y x then rest else y :: remove_first x rest
  end.

(** The variables of [ws_multilang_adaptive] (ws_multilang_adaptive.py
    133-134) and the list [LANG_CANDIDATES] of the module. *)
Record Session : Type := {
  current_utt_audio : bytes;
  last_voice_time : option float;
  LANG_CANDIDATES : list string;
}.

Definition set_current_utt_audio (v : bytes) (x : Session) : Session :=
  {| current_utt_audio := v; last_voice_time := last_voice_time x;
     LANG_CANDIDATES := LANG_CANDIDATES x |}.
Definition set_last_voice_time (v : option float) (x : Session) : Session :=
  {| current_utt_audio := current_utt_audio x; last_voice_time := v;
     LANG_CANDIDATES := LANG_CANDIDATES x |}.
Definition set_LANG_CANDIDATES (v : list string) (x : Session) : Session :=
  {| current_utt_audio := current_utt_audio x; last_voice_time := last_voice_time x;
     LANG_CANDIDATES := v |}.

Definition M (A : Type) : Type := SE (State Session) A.

(** ws_multilang_adaptive.py 41-49 *)
Definition update_candidates (lang : string) : M unit :=
  if negb (truthy lang) || String.eqb lang "unknown" then ret tt
  else
    l <- get LANG_CANDIDATES ;;
    let l := if bool_decide (lang ∈ l) then remove_first lang l else l in
    let l := lang :: l in
    let l := if (MAX_CANDIDATES <? length l)%nat then removelast l else l in
    assign (set_LANG_CANDIDATES l).

(** ws_multilang_adaptive.py 52-53 *)
Definition get_lang_hint : M (option string) :=
  l <- get LANG_CANDIDATES ;;
  ret (head l).

(** ws_multilang_adaptive.py 81-104 *)
Definition whisper_transcribe_with_hint (pcm : bytes) (lang_hint : option string)
  : IO (string * string) :=
  let rq := {| endpoint := Transcriptions; file := pcm;
               response_format := Some "verbose_json";
               language := if truthy_opt lang_hint then lang_hint else None |} in
  resp <- post_audio rq ;;
  if negb (a_status resp =? 200) then ret ("unknown", "")
  else ret (language_or_unknown resp, text_or_blank resp).

(** ws_multilang_adaptive.py 107-122 *)
Definition whisper_translate (pcm : bytes) : IO (option string) :=
  resp <- post_audio (translate_audio_request pcm) ;;
  if negb (a_status resp =? 200) then ret (Some "")
  else ret (text_or_empty resp).

Definition ev_final_lang (text lang : string) : Event :=
  [("type", JStr "final"); ("text", JStr text); ("lang", JStr lang)].
Definition ev_final_translate_lang (translated lang : string) : Event :=
  [("type", JStr "final_translate"); ("translated", JStr translated);
   ("provisional", JBool false); ("replace_last", JBool false);
   ("lang", JStr lang)].

(** ws_multilang_adaptive.py 186-215 *)
Definition handle_utterance (pcm : bytes) : M unit :=
  lang_hint <- get_lang_hint ;;
  r <- io (whisper_transcribe_with_hint pcm lang_hint) ;;
  r <- (if negb (truthy (strip (snd r)))
        then io (whisper_transcribe_with_hint pcm None) else ret r) ;;
  let (lang, text) := r in
  update_candidates lang ;;
  (when truthy (strip text) then io (send_json (ev_final_lang text lang))) ;;
  translated <- io (whisper_translate pcm) ;;
  match translated with
  | None => raise AttributeError                  (* [None] has no [strip] *)
  | Some translated =>
      when truthy (strip translated) then
        io (send_json (ev_final_translate_lang translated lang))
  end.

Definition SILENCE_RMS : float := 300%float.
Definition SILENCE_SEC : float := 0.8%float.

(** Truth value of an [Optional[float]]. *)
Definition truthy_time (o : option float) : bool :=
  match o with Some t => negb (t =? 0)%float | None => false end.

(** ws_multilang_adaptive.py 221-240: the body of the main loop. *)
Definition ws_multilang_adaptive_chunk (chunk : bytes) : M unit :=
  assign (fun x => set_current_utt_audio (current_utt_audio x ++ chunk) x) ;;
  io (act (StreamWrite chunk)) ;;
  energy <- of_res (rms_energy chunk) ;;
  now <- io perf_counter ;;
  if (SILENCE_RMS <? energy)%float then assign (set_last_voice_time (Some now))
  else
    lv <- get last_voice_time ;;
    audio <- get current_utt_audio ;;
    when truthy_time lv
         && (SILENCE_SEC <? now - default 0%float lv)%float
         && negb (bool_decide (audio = [])) then
      (assign (set_current_utt_audio []) ;;
       assign (set_last_voice_time None) ;;
       fun s => (Ok tt, spawn (handle_utterance audio) s)).

Fixpoint ws_multilang_adaptive_loop (chunks : list bytes) : M unit :=
  match chunks with
  | [] => ret tt
  | chunk :: rest =>
      ws_multilang_adaptive_chunk chunk ;; ws_multilang_adaptive_loop rest
  end.

Definition initial (w : World) : State Session :=
  {| vars := {| current_utt_audio := []; last_voice_time := None;
                LANG_CANDIDATES := [] |};
     env := {| world := w; requests := 0; clock_reads := 0; trace := [] |} |}.

End ws_multilang_adaptive.

(** * The vocabulary of the properties *)

(** ** Answers, traces and invariants *)

(** A chunk whose energy is computed and is below the threshold. *)
Definition quiet (chunk : bytes) : bool :=
  match rms_energy chunk with
  | Ok energy => (energy <? SILENCE_RMS_THRESHOLD)%float
  | Raise _ => false
  end.

(** What [whisper_detect] reads from an answer. *)
Definition detected_language (rs : AudioResponse) : string :=
  if negb (a_status rs =? 200) then "unknown" else lower (language_or_unknown rs).

(** The text of an answer of the transcription service: that of a 200
    answer which has one, and the empty string otherwise. *)
Definition transcript (rs : AudioResponse) : string :=
  if a_status rs =? 200
  then match a_text rs with Text s => s | Absent => "" | Null => "" end
  else "".

(** What [whisper_transcribe] and [whisper_translate] return for an answer:
    [None] for the [null] of a 200 answer. *)
Definition returned_text (rs : AudioResponse) : option string :=
  if a_status rs =? 200
  then match a_text rs with Text s => Some s | Absent => Some "" | Null => None end
  else Some "".

(** A transcription service that never answers a [null] text. *)
Definition never_null (w : World) : Prop :=
  forall (n : nat) (rq : AudioRequest), a_text (openai_audio w n rq) <> Null.

(** What [try: emb = await embed(text)  except Exception: emb = None]
    leaves in [emb], given the answer to the request (if one is made). *)
Definition obtained_embedding (text : string) (rs : EmbeddingsResponse) : option Vector :=
  if negb (truthy text) then None
  else if negb (e_status rs =? 200) then None
  else head (e_data rs).

(** The answer that the next request will get. *)
Definition next_audio (e : Env) (rq : AudioRequest) : AudioResponse :=
  openai_audio (world e) (requests e) rq.
Definition next_embeddings (e : Env) (text : string) : EmbeddingsResponse :=
  openai_embeddings (world e) (requests e) text.
Definition next_translation (e : Env) (text target : string) : TranslatorResponse :=
  azure_translator (world e) (requests e) text target.

(** The answers of the collaborators for one ledger entry: to the
    transcription of its audio, to its translation, and to the embedding of
    the translation. *)
Record Answers : Type := {
  ans_transcribe : AudioResponse;
  ans_translate : AudioResponse;
  ans_embed : EmbeddingsResponse;
}.

(** The corrected transcript and the corrected translation of an entry:
    read from the answers, and empty for an entry without audio, for which
    nothing is asked. *)
Definition corrected_text (entry : Entry) (a : Answers) : string :=
  match pcm entry with [] => "" | _ => transcript (ans_transcribe a) end.
Definition corrected_translation (entry : Entry) (a : Answers) : string :=
  match pcm entry with [] => "" | _ => transcript (ans_translate a) end.

(** What the replay of one entry does, as the claim words it: ask for the
    transcript and the translation of the entry's audio, then emit the
    corrective [final] unless the transcript is blank, then emit the
    corrective [final_translate] (and embed it for the merge context)
    unless the translation is blank. *)
Definition corrective (entry : Entry) (a : Answers) : list Action :=
  match pcm entry with
  | [] => []
  | _ => [PostAudio (transcribe_request (pcm entry)) (ans_transcribe a);
          PostAudio (translate_audio_request (pcm entry)) (ans_translate a)]
  end
  ++ (if truthy (strip (corrected_text entry a))
      then [Send (ev_final_corrected (corrected_text entry a))] else [])
  ++ (if truthy (strip (corrected_translation entry a))
      then [Send (ev_final_translate_replayed (corrected_translation entry a));
            PostEmbeddings (corrected_translation entry a) (ans_embed a)]
      else []).

(** The text of the merge context after a replay: the last translation
    that was replayed, or what it was. *)
Definition merge_text_after (t0 : option string) (history : list Entry)
    (answers : list Answers) : option string :=
  fold_left
    (fun t ea => if truthy (strip (corrected_translation ea.1 ea.2))
                 then Some (corrected_translation ea.1 ea.2) else t)
    (zip history answers) t0.

(** The embedding of the merge context after a replay: that of the last
    replayed translation for which one was obtained, or what it was. *)
Definition merge_embedding_after (v0 : option Vector) (history : list Entry)
    (answers : list Answers) : option Vector :=
  fold_left
    (fun v ea =>
       if truthy (strip (corrected_translation ea.1 ea.2))
       then match obtained_embedding (corrected_translation ea.1 ea.2) (ans_embed ea.2) with
            | Some v' => Some v'
            | None => v
            end
       else v)
    (zip history answers) v0.

(** The embedding and the time of the merge context are set together. *)
Definition paired (x : Session) : Prop :=
  last_translation_embedding x = None <-> last_translation_time x = None.

(** A session without its merge context. *)
Definition forget_merge (x : Session) : Session :=
  set_last_translation_time None
    (set_last_translation_embedding None (set_last_translation_text None x)).

(** What [restart_azure] does to the engine of a session that goes on in
    the language [lang]. *)
Definition restart_actions (x : Session) (lang : string) : list Action :=
  (if bool_decide (is_Some (recognizer x)) then [RecognizerStop] else [])
  ++ (if push_stream x then [StreamClose] else [])
  ++ [Sleep 0.2%float; RecognizerStart (LANG_MAP_get lang)].

Definition is_send (t : string) (a : Action) : bool :=
  match a with Send ev => has_type t ev | _ => false end.

(** How many events of type [t] a trace holds. *)
Fixpoint count_sent (t : string) (tr : list Action) : nat :=
  match tr with
  | [] => 0
  | a :: rest => (if is_send t a then 1 else 0) + count_sent t rest
  end.

(** The actions of a rollback: the two invalidation events, an event marked
    replayed, and the requests for a corrected transcript (a plain
    transcription) or a corrected translation. *)
Definition rollback_action (a : Action) : bool :=
  match a with
  | Send ev =>
      has_type "invalidate_all_asr" ev
      || has_type "invalidate_all_translation" ev
      || match field "replayed" ev with Some _ => true | None => false end
  | PostAudio rq _ =>
      match endpoint rq, response_format rq with
      | Transcriptions, Some _ => false
      | _, _ => true
      end
  | _ => false
  end.

Definition calm (tr : list Action) : Prop :=
  Forall (fun a => rollback_action a = false) tr.

(** What every step of a session respects: a session that is locked stays
    locked, and what it adds to the trace is nothing of a rollback. *)
Definition advances (s s' : State Session) : Prop :=
  lang_locked (vars s) = true ->
  lang_locked (vars s') = true
  /\ exists tr, trace (env s') = trace (env s) ++ tr /\ calm tr.

(** A computation all of whose runs advance. *)
Definition preserves {A} (m : M A) : Prop := forall s, advances s (snd (m s)).

(** An effect on the environment that adds only actions foreign to a
    rollback. *)
Definition quiet_io {A} (m : IO A) : Prop :=
  forall e, exists tr, trace (snd (m e)) = trace e ++ tr /\ calm tr.

(** The flag [merge] of main.py 330-346. *)
Definition merge_flag (pow : float -> float -> float) (x : Session) (now : float)
    (emb : option Vector) : bool :=
  match emb, last_translation_embedding x, last_translation_time x with
  | Some v, Some v0, Some t0 =>
      (0.75 <? cosine pow v v0)%float && (now - t0 <? 1.0)%float
  | _, _, _ => false
  end.

(** The text and the [replace_last] of the [final_translate] event. *)
Definition final_translation (pow : float -> float -> float) (x : Session)
    (now : float) (emb : option Vector) (trans : string) : string * bool :=
  match merge_flag pow x now emb, last_translation_text x with
  | true, Some prev => (prev +:+ " " +:+ trans, true)
  | _, _ => (trans, false)
  end.


(** What [azure_translate] returns, and the environment it leaves. *)
Definition translation_result (text target : string) (e : Env) : Res string :=
  if negb (truthy (strip text)) then Ok ""
  else first_translation (t_body (next_translation e text target)).

Definition after_translate (text target : string) (e : Env) : Env :=
  if negb (truthy (strip text)) then e
  else posted (PostTranslate text target (next_translation e text target)) e.

(** What [whisper_detect] returns, and the environment it leaves. *)
Definition detection_result (pcm : bytes) (e : Env) : string :=
  match pcm with
  | [] => "unknown"
  | _ => detected_language (next_audio e (detect_request pcm))
  end.

Definition after_detect (pcm : bytes) (e : Env) : Env :=
  match pcm with
  | [] => e
  | _ => posted (PostAudio (detect_request pcm) (next_audio e (detect_request pcm))) e
  end.

(** The entry that [on_final] records for an utterance. *)
Definition history_entry (x : Session) (text : string) (t : option string) : Entry :=
  {| pcm := current_utt_audio x; azure_text := text; azure_translation := t |}.

Definition is_detect_request (a : Action) : bool :=
  match a with
  | PostAudio rq _ =>
      match endpoint rq, response_format rq with
      | Transcriptions, Some _ => true
      | _, _ => false
      end
  | _ => false
  end.

(** How many requests a trace makes to the language detector. *)
Fixpoint count_detections (tr : list Action) : nat :=
  match tr with
  | [] => 0
  | a :: rest => (if is_detect_request a then 1 else 0) + count_detections rest
  end.

(** The audio given to the language detector, request by request. *)
Fixpoint detected_audio (tr : list Action) : list bytes :=
  match tr with
  | [] => []
  | PostAudio rq rs :: rest =>
      if is_detect_request (PostAudio rq rs) then file rq :: detected_audio rest
      else detected_audio rest
  | _ :: rest => detected_audio rest
  end.

(** What the main loop does with chunks that it does not examine, or finds
    quiet: with a provisional language and a stream it writes them to the
    stream; otherwise nothing. *)
Definition streamed (x : Session) (chunks : list bytes) : list Action :=
  match provisional_lang x with
  | Some _ => if push_stream x then map StreamWrite chunks else []
  | None => []
  end.

(** What the [azure_translate] of ws_fixed.py returns for a text that is
    not blank. *)
Definition fixed_translation (rs : TranslatorResponse) : string :=
  if negb (t_status rs =? 200) then ""
  else match first_translation (t_body rs) with Ok t => t | Raise _ => "" end.

(** The texts submitted to the translator, in order. *)
Fixpoint translate_requests (tr : list Action) : list string :=
  match tr with
  | [] => []
  | PostTranslate text _ _ :: rest => text :: translate_requests rest
  | _ :: rest => translate_requests rest
  end.

(** ** Sample worlds and sessions *)

(** A power of floats that is rounded correctly at the exponent 0.5, the
    only one the code uses: there it is the square root. *)
Definition rounded_pow (x y : float) : float :=
  if (y =? 0.5)%float then PrimFloat.sqrt x else nan.

(** Two samples of silence. *)
Definition silence : bytes := [Byte.x00; Byte.x00; Byte.x01; Byte.x00].

(** A world in which every collaborator answers with an error. *)
Definition deaf_world : World :=
  {| openai_audio := fun _ _ => {| a_status := 500; a_language := None; a_text := Absent |};
     azure_translator := fun _ _ _ => {| t_status := 500; t_body := TError 500 "down" |};
     openai_embeddings := fun _ _ => {| e_status := 500; e_data := [] |};
     perf_counter_at := fun n => Z2float (Z.of_nat n);
     float_pow := rounded_pow |}.

(** Two samples of speech, of amplitude 4096. *)
Definition loud : bytes := [Byte.x00; Byte.x10; Byte.x00; Byte.x10].

(** A world in which every collaborator answers, the speech is English and
    the clock advances by one second at every reading. *)
Definition english_world : World :=
  {| openai_audio := fun _ _ =>
       {| a_status := 200; a_language := Some "English"; a_text := Text "hello" |};
     azure_translator := fun _ _ _ =>
       {| t_status := 200; t_body := TItems [["hello"]] |};
     openai_embeddings := fun _ _ =>
       {| e_status := 200; e_data := [[1%float; 0%float]] |};
     perf_counter_at := fun n => Z2float (Z.of_nat n);
     float_pow := rounded_pow |}.

(** A session that took Japanese as its provisional language and has heard
    two utterances. *)
Definition japanese_session : Session :=
  {| detect_buffer := []; current_utt_audio := loud;
     provisional_lang := Some "japanese"; lang_locked := false;
     recognizer := Some "ja-JP"; push_stream := true;
     first_speech_time := Some 0%float;
     last_translation_text := Some "harou"; last_translation_time := Some 3%float;
     last_translation_embedding := Some [0%float; 1%float];
     utterance_history :=
       [ {| pcm := loud; azure_text := "haro"; azure_translation := Some "harou" |};
         {| pcm := loud ++ loud; azure_text := "haro"; azure_translation := Some "harou" |} ] |}.

(** A session of two utterances in [english_world]: a first chunk of
    speech, on which English is taken as the provisional language; the
    first utterance, on which the detector agrees; more speech and a second
    utterance. *)
Definition after_first_utterance : State Session :=
  snd (ws_asr_loop [Chunk loud; Recognized "hello"] (initial english_world)).
Definition after_second_utterance : State Session :=
  snd (ws_asr_loop [Chunk loud; Recognized "again"] after_first_utterance).

(** A world like [english_world] whose clock advances by a millisecond at
    every reading. *)
Definition fast_world : World :=
  {| openai_audio := openai_audio english_world;
     azure_translator := azure_translator english_world;
     openai_embeddings := openai_embeddings english_world;
     perf_counter_at := fun n => (Z2float (Z.of_nat n) / 1000)%float;
     float_pow := rounded_pow |}.

(** 25600 bytes of speech: 0.8 s of 16-bit mono audio at 16 kHz. *)
Definition speech_0_8s : bytes := concat (repeat loud 6400).

(** A world in which the translator refuses every request with the error
    object of the service. *)
Definition unauthorized_world : World :=
  {| openai_audio := openai_audio english_world;
     azure_translator := fun _ _ _ =>
       {| t_status := 401;
          t_body := TError 401000 "The request is not authorized." |};
     openai_embeddings := openai_embeddings english_world;
     perf_counter_at := perf_counter_at english_world;
     float_pow := rounded_pow |}.

(** A world like [english_world] in which the answers to the requests for a
    transcript or a translation of audio are a 200 whose text is [null];
    the language detector, which asks for verbose JSON, is answered as in
    [english_world]. *)
Definition null_world : World :=
  {| openai_audio := fun n rq =>
       match response_format rq with
       | Some _ => openai_audio english_world n rq
       | None => {| a_status := 200; a_language := None; a_text := Null |}
       end;
     azure_translator := azure_translator english_world;
     openai_embeddings := openai_embeddings english_world;
     perf_counter_at := perf_counter_at english_world;
     float_pow := rounded_pow |}.

(** A world like [english_world] whose language detector says English
    twice (the first and the fourth request of a session: the first
    detection and the verification of the first utterance) and Japanese
    from then on. *)
Definition late_doubt_world : World :=
  {| openai_audio := fun n rq =>
       {| a_status := 200;
          a_language := Some (if (n <? 4)%nat then "english" else "japanese");
          a_text := Text "hello" |};
     azure_translator := azure_translator english_world;
     openai_embeddings := openai_embeddings english_world;
     perf_counter_at := perf_counter_at english_world;
     float_pow := rounded_pow |}.

(** A world like [null_world] whose language detector says English the
    first time (the first request of a session) and Japanese from then
    on. *)
Definition wavering_world : World :=
  {| openai_audio := fun n rq =>
       match response_format rq with
       | Some _ =>
           {| a_status := 200;
              a_language := Some (if Nat.eqb n 0 then "english" else "japanese");
              a_text := Text "" |}
       | None => {| a_status := 200; a_language := None; a_text := Null |}
       end;
     azure_translator := azure_translator english_world;
     openai_embeddings := openai_embeddings english_world;
     perf_counter_at := perf_counter_at english_world;
     float_pow := rounded_pow |}.

(** The locked session of [after_first_utterance], with the audio of a
    further utterance in its buffer. *)
Definition locked_state : State Session :=
  snd (ws_asr_loop [Chunk loud] after_first_utterance).



(** A locked session whose last translation, "Good", was sent at the time
    10.0 with the embedding [v0]. *)
Definition greeted_session (v0 : Vector) : Session :=
  {| detect_buffer := []; current_utt_audio := loud;
     provisional_lang := Some "english"; lang_locked := true;
     recognizer := Some "en-US"; push_stream := true;
     first_speech_time := Some 0%float;
     last_translation_text := Some "Good"; last_translation_time := Some 10%float;
     last_translation_embedding := Some v0;
     utterance_history := [] |}.

(** The events of a trace, in order. *)
Fixpoint sent (tr : list Action) : list Event :=
  match tr with
  | [] => []
  | Send ev :: rest => ev :: sent rest
  | _ :: rest => sent rest
  end.

(** * More of the code, and the vocabulary of its properties *)

(** ** The WAV container *)

(** The byte of a number, modulo 256. *)
Definition byte_of_Z (v : Z) : Byte.byte :=
  default Byte.x00 (Byte.of_N (Z.to_N (v mod 256))).

(** The [n] low bytes of [v], the lowest first. *)
Fixpoint le_bytes (n : nat) (v : Z) : bytes :=
  match n with
  | O => []
  | S n' => byte_of_Z v :: le_bytes n' (v / 256)
  end.

(** [struct.pack("<...", ...)] on unsigned fields, each with its size in
    bytes ([I]: 4, [H]: 2): a value that does not fit its field raises
    [struct.error]. *)
Fixpoint struct_pack (fields : list (nat * Z)) : Res bytes :=
  match fields with
  | [] => Ok []
  | (n, v) :: rest =>
      if (0 <=? v) && (v <? 2 ^ (8 * Z.of_nat n)) then
        match struct_pack rest with
        | Ok packed => Ok (le_bytes n v ++ packed)
        | Raise e => Raise e
        end
      else Raise StructError
  end.

(** main.py 78-88 (the same in ws_multilang_adaptive.py 59-68) *)
Definition pcm_to_wav (pcm : bytes) : Res bytes :=
  match struct_pack [(4%nat, 36 + Z.of_nat (length pcm))] with
  | Raise e => Raise e
  | Ok riff_size =>
      match struct_pack [(4%nat, 16); (2%nat, 1); (2%nat, 1); (4%nat, 16000);
                         (4%nat, 32000); (2%nat, 2); (2%nat, 16)] with
      | Raise e => Raise e
      | Ok fmt =>
          match struct_pack [(4%nat, Z.of_nat (length pcm))] with
          | Raise e => Raise e
          | Ok data_size =>
              Ok (list_byte_of_string "RIFF" ++ riff_size
                  ++ list_byte_of_string "WAVEfmt " ++ fmt
                  ++ list_byte_of_string "data" ++ data_size ++ pcm)
          end
      end
  end.

(** Audio that fits a WAV file: [pcm_to_wav] returns on it. *)
Definition fits_wav (pcm : bytes) : Prop := is_ok (pcm_to_wav pcm) = true.

(** The number that bytes spell, the lowest first. *)
Definition le_value (b : bytes) : Z :=
  fold_right (fun byte acc => Z.of_N (Byte.to_N byte) + 256 * acc) 0 b.

(** The bytes [i], ..., [i + n - 1] of [b]. *)
Definition slice (i n : nat) (b : bytes) : bytes := take n (drop i b).


(** ** The candidate cache and the segmentation of ws_multilang_adaptive.py *)

(** A tag that [update_candidates] records. *)
Definition recordable (lang : string) : bool :=
  truthy lang && negb (String.eqb lang "unknown").

(** What the cache of candidates is at all times: at most [MAX_CANDIDATES]
    tags, each one once, all of them recordable. *)
Definition cache_ok (l : list string) : Prop :=
  NoDup l
  /\ (length l <= ws_multilang_adaptive.MAX_CANDIDATES)%nat
  /\ Forall (fun lang => recordable lang = true) l.

(** What [whisper_transcribe_with_hint] reads from an answer. *)
Definition hinted_result (rs : AudioResponse) : string * string :=
  if negb (a_status rs =? 200) then ("unknown", "")
  else (language_or_unknown rs, text_or_blank rs).

(** The request of [whisper_transcribe_with_hint]. *)
Definition hinted_request (pcm : bytes) (lang_hint : option string) : AudioRequest :=
  {| endpoint := Transcriptions; file := pcm;
     response_format := Some "verbose_json";
     language := if truthy_opt lang_hint then lang_hint else None |}.

(** The audio of the requests for a translation, request by request. *)
Fixpoint translated_audio (tr : list Action) : list bytes :=
  match tr with
  | [] => []
  | PostAudio rq _ :: rest =>
      match endpoint rq with
      | Translations => file rq :: translated_audio rest
      | Transcriptions => translated_audio rest
      end
  | _ :: rest => translated_audio rest
  end.

(** The chunks written to the stream of the recognizer, in order. *)
Fixpoint written (tr : list Action) : list bytes :=
  match tr with
  | [] => []
  | StreamWrite chunk :: rest => chunk :: written rest
  | _ :: rest => written rest
  end.

(** A chunk whose energy is computed and is not above the threshold of
    ws_multilang_adaptive.py. *)
Definition unvoiced (chunk : bytes) : bool :=
  match rms_energy chunk with
  | Ok energy => negb (ws_multilang_adaptive.SILENCE_RMS <? energy)%float
  | Raise _ => false
  end.

(** A session of ws_multilang_adaptive.py that starts with the cache that
    the sessions before it left. *)
Definition adaptive_session_with (cache : list string) (w : World)
  : State ws_multilang_adaptive.Session :=
  {| vars := {| ws_multilang_adaptive.current_utt_audio := [];
                ws_multilang_adaptive.last_voice_time := None;
                ws_multilang_adaptive.LANG_CANDIDATES := cache |};
     env := {| world := w; requests := 0; clock_reads := 0; trace := [] |} |}.

(** ** The opening of a session of ws_fixed.py *)

(** [LANG_MAP[key]] *)
Definition LANG_MAP_item (key : string) : Res string :=
  match LANG_MAP !! key with
  | Some v => Ok v
  | None => Raise KeyError
  end.

(** ws_fixed.py 98-105: the language of the session and the code of the
    recognizer, from the query string as [parse_qs] gives it (for each
    key, the list of its values). *)
Definition fixed_language (query : gmap string (list string)) : Res (string * string) :=
  match default ["en"] (query !! "lang") with
  | [] => Raise IndexError
  | first :: _ =>
      let lang := lower first in
      match LANG_MAP !! lang with
      | Some azure_lang =>
          if truthy azure_lang then Ok (lang, azure_lang)
          else match LANG_MAP_item "en" with
               | Ok en => Ok ("en", en)
               | Raise e => Raise e
               end
      | None =>
          match LANG_MAP_item "en" with
          | Ok en => Ok ("en", en)
          | Raise e => Raise e
          end
      end
  end.

(** ws_fixed.py 95-134 and 226-229, with the keys of the speech service
    set: the event that announces the language, and the recognizer
    started in it. *)
Definition ws_fixed_open (query : gmap string (list string)) : IO unit :=
  r <- of_res (fixed_language query) ;;
  let (lang, azure_lang) := r in
  send_json (ev_lang_locked lang) ;;
  act (RecognizerStart azure_lang).

(** ** The delayed translations of ws_fixed.py *)

(** A task as it was, or further on its way: the same text, and asleep
    only if it was. *)
Definition task_follows (t' t : ws_fixed.Task) : Prop :=
  ws_fixed.task_text t' = ws_fixed.task_text t
  /\ (ws_fixed.status t' = ws_fixed.Sleeping -> ws_fixed.status t = ws_fixed.Sleeping).

(** What the debounce keeps: [translate_task] refers to the newest task,
    no other task is asleep, and a task that is asleep carries the latest
    partial text. *)
Definition debounced (x : ws_fixed.Session) : Prop :=
  ws_fixed.translate_task x
  = match length (ws_fixed.tasks x) with O => None | S n => Some n end
  /\ forall (i : nat) (t : ws_fixed.Task),
       ws_fixed.tasks x !! i = Some t ->
       ws_fixed.status t = ws_fixed.Sleeping ->
       S i = length (ws_fixed.tasks x)
       /\ ws_fixed.task_text t = ws_fixed.last_partial_text x.

(** ** The protocol of ws_fixed.py *)

(** What a session of ws_fixed.py does once it is open, and nothing else:
    it sends partial and final texts that are not empty; it asks the
    translator, for the target language, about texts that are not blank; it
    sends final translations that are not empty, never provisional and
    never replacing; and it sends the translation of a partial text, or
    the empty one that clears it. *)
Inductive fixed_action : Action -> Prop :=
| fixed_partial (text : string) :
    truthy text = true -> fixed_action (Send (ev_partial text))
| fixed_final (text : string) :
    truthy text = true -> fixed_action (Send (ev_final text))
| fixed_request (text : string) (rs : TranslatorResponse) :
    truthy (strip text) = true -> fixed_action (PostTranslate text TARGET_LANG rs)
| fixed_mid_translate (translated : string) :
    fixed_action (Send (ev_mid_translate translated))
| fixed_final_translate (translated : string) :
    truthy translated = true ->
    fixed_action (Send (ev_final_translate translated false false)).

Definition fixed_adds {A} (m : ws_fixed.M A) : Prop :=
  forall s, exists tr, trace (env (snd (m s))) = trace (env s) ++ tr
                       /\ Forall fixed_action tr.

(** ** More samples *)

(** The WAV file of two samples of speech. *)
Definition wav_of_loud : bytes :=
  match pcm_to_wav loud with Ok wav => wav | Raise _ => [] end.

(** A full cache of candidates. *)
Definition full_cache : list string :=
  ["japanese"; "english"; "korean"; "french"; "german"].

Definition session_with_full_cache : ws_multilang_adaptive.Session :=
  {| ws_multilang_adaptive.current_utt_audio := [];
     ws_multilang_adaptive.last_voice_time := None;
     ws_multilang_adaptive.LANG_CANDIDATES := full_cache |}.

(** * Properties *)

(** ** Running a handler, one statement at a time *)

Lemma bind_ok {S A B} (m : SE S A) (k : A -> SE S B) s a s' :
  m s = (Ok a, s') -> bind m k s = k a s'.
Proof. intros H. unfold bind. now rewrite H. Qed.

Lemma bind_bind {S A B C} (m : SE S A) (k : A -> SE S B) (k' : B -> SE S C) s :
  bind (bind m k) k' s = bind m (fun a => bind (k a) k') s.
Proof. unfold bind. destruct (m s) as [[a|x] s']; reflexivity. Qed.

Lemma run_ret {S A B} (a : A) (k : A -> SE S B) s : bind (ret a) k s = k a s.
Proof. reflexivity. Qed.

Lemma run_get {V A B} (f : V -> A) (k : A -> SE (State V) B) x e :
  bind (get f) k {| vars := x; env := e |} = k (f x) {| vars := x; env := e |}.
Proof. reflexivity. Qed.

Lemma run_assign {V B} (f : V -> V) (k : unit -> SE (State V) B) x e :
  bind (assign f) k {| vars := x; env := e |} = k tt {| vars := f x; env := e |}.
Proof. reflexivity. Qed.

Lemma run_act {V B} (a : Action) (k : unit -> SE (State V) B) x e :
  bind (io (act a)) k {| vars := x; env := e |}
  = k tt {| vars := x; env := logged a e |}.
Proof. reflexivity. Qed.

Lemma run_send {V B} (ev : Event) (k : unit -> SE (State V) B) x e :
  bind (io (send_json ev)) k {| vars := x; env := e |}
  = k tt {| vars := x; env := logged (Send ev) e |}.
Proof. reflexivity. Qed.

Lemma run_perf_counter {V B} (k : float -> SE (State V) B) x e :
  bind (io perf_counter) k {| vars := x; env := e |}
  = k (perf_counter_at (world e) (clock_reads e)) {| vars := x; env := ticked e |}.
Proof. reflexivity. Qed.

Lemma run_platform_pow {V B} (k : (float -> float -> float) -> SE (State V) B) x e :
  bind platform_pow k {| vars := x; env := e |}
  = k (float_pow (world e)) {| vars := x; env := e |}.
Proof. reflexivity. Qed.

Lemma run_io {V A B} (m : IO A) (k : A -> SE (State V) B) x e a e' :
  m e = (Ok a, e') ->
  bind (io m) k {| vars := x; env := e |} = k a {| vars := x; env := e' |}.
Proof. intros H. unfold bind, io. cbn [env vars]. now rewrite H. Qed.

Lemma end_act {V} (a : Action) (x : V) e :
  io (act a) {| vars := x; env := e |} = (Ok tt, {| vars := x; env := logged a e |}).
Proof. reflexivity. Qed.

Lemma end_send {V} (ev : Event) (x : V) e :
  io (send_json ev) {| vars := x; env := e |}
  = (Ok tt, {| vars := x; env := logged (Send ev) e |}).
Proof. reflexivity. Qed.

Lemma end_assign {V} (f : V -> V) x e :
  assign f {| vars := x; env := e |} = (Ok tt, {| vars := f x; env := e |}).
Proof. reflexivity. Qed.

(** Projections of a session that was assigned to. *)
Ltac session :=
  cbn beta iota delta [vars env detect_buffer current_utt_audio provisional_lang lang_locked
         recognizer push_stream first_speech_time last_translation_text
         last_translation_time last_translation_embedding utterance_history
         set_detect_buffer set_current_utt_audio set_provisional_lang
         set_lang_locked set_recognizer set_push_stream set_first_speech_time
         set_last_translation_text set_last_translation_time
         set_last_translation_embedding set_utterance_history].

Ltac run :=
  repeat first
    [ progress cbv beta iota
    | rewrite bind_bind
    | rewrite run_ret
    | rewrite run_get
    | rewrite run_assign
    | rewrite run_send
    | rewrite run_act
    | rewrite run_perf_counter
    | rewrite run_platform_pow
    | rewrite end_act
    | rewrite end_send
    | rewrite end_assign ].

Ltac go := repeat (progress (run; session)).

(** ** The energy of a chunk *)

Lemma even_length_double (n : nat) :
  Nat.eqb n (2 * (n / 2)) = Nat.even n.
Proof.
  destruct (Nat.even n) eqn:E.
  - apply Nat.eqb_eq. apply Nat.even_spec in E. destruct E as [k ->].
    replace (2 * k)%nat with (k * 2)%nat by lia.
    rewrite Nat.div_mul by lia. lia.
  - apply Nat.eqb_neq. intros H.
    assert (Nat.even n = true) as E'.
    { apply Nat.even_spec. exists (n / 2)%nat. exact H. }
    congruence.
Qed.

Lemma rms_energy_ok_even (pcm : bytes) :
  is_ok (rms_energy pcm) = Nat.even (length pcm).
Proof.
  destruct pcm as [|a [|b rest]].
  - reflexivity.
  - reflexivity.
  - unfold rms_energy, struct_unpack_h.
    rewrite even_length_double.
    destruct (Nat.even (length (a :: b :: rest))); reflexivity.
Qed.

Lemma ws_asr_chunk_quiet (chunk : bytes) (x : Session) (e : Env) :
  provisional_lang x = None ->
  quiet chunk = true ->
  ws_asr_chunk chunk {| vars := x; env := e |} =
    (Ok tt, {| vars := set_current_utt_audio (current_utt_audio x ++ chunk) x;
               env := e |}).
Proof.
  intros Hp Hq. unfold quiet in Hq.
  unfold ws_asr_chunk. run.
  cbn [provisional_lang set_current_utt_audio]. rewrite Hp.
  unfold bind at 1, of_res at 1.
  destruct (rms_energy chunk) as [energy|]; [|discriminate].
  now rewrite Hq.
Qed.

Lemma ws_asr_chunk_started (chunk : bytes) (x : Session) (e : Env) (l : string) :
  provisional_lang x = Some l ->
  ws_asr_chunk chunk {| vars := x; env := e |} =
    (Ok tt, {| vars := set_current_utt_audio (current_utt_audio x ++ chunk) x;
               env := if push_stream x then logged (StreamWrite chunk) e else e |}).
Proof.
  intros Hp. unfold ws_asr_chunk. run.
  cbn [provisional_lang push_stream set_current_utt_audio]. rewrite Hp. run.
  cbn [provisional_lang push_stream set_current_utt_audio].
  destruct (push_stream x); reflexivity.
Qed.

Lemma streamed_nil (x : Session) : streamed x [] = [].
Proof. unfold streamed. destruct (provisional_lang x), (push_stream x); reflexivity. Qed.

Lemma count_detections_app (tr1 tr2 : list Action) :
  count_detections (tr1 ++ tr2) = (count_detections tr1 + count_detections tr2)%nat.
Proof. induction tr1 as [|a tr1 IH]; cbn; [reflexivity|]. rewrite IH. lia. Qed.

Lemma count_detections_streamed (x : Session) (chunks : list bytes) :
  count_detections (streamed x chunks) = 0%nat.
Proof.
  unfold streamed. destruct (provisional_lang x); [|reflexivity].
  destruct (push_stream x); [|reflexivity].
  induction chunks as [|c chunks IH]; [reflexivity|exact IH].
Qed.

(** Quiet chunks, one after the other: the session keeps them as audio of
    the utterance in progress, and does with them what [streamed] says. *)
Lemma ws_asr_loop_quiet (chunks : list bytes) (x : Session) (e : Env) :
  Forall (fun c => quiet c = true) chunks ->
  ws_asr_loop (map Chunk chunks) {| vars := x; env := e |} =
    (Ok tt, {| vars := set_current_utt_audio (current_utt_audio x ++ concat chunks) x;
               env := {| world := world e; requests := requests e;
                         clock_reads := clock_reads e;
                         trace := trace e ++ streamed x chunks |} |}).
Proof.
  revert x e. induction chunks as [|c chunks IH]; intros x e Hq.
  - cbn [map ws_asr_loop concat]. unfold ret. rewrite streamed_nil.
    destruct x, e; cbn [set_current_utt_audio world requests clock_reads trace].
    cbv beta iota zeta delta [current_utt_audio]. now rewrite !app_nil_r.
  - inversion Hq as [|? ? Hc Hrest]; subst.
    cbn [map ws_asr_loop handle concat].
    destruct (provisional_lang x) as [l|] eqn:Hp.
    + erewrite bind_ok by (eapply ws_asr_chunk_started; exact Hp).
      rewrite IH by assumption. unfold streamed.
      destruct x, e; cbn in Hp |- *. rewrite Hp.
      destruct push_stream0; cbn; rewrite <- ?app_assoc; reflexivity.
    + erewrite bind_ok by (apply ws_asr_chunk_quiet; assumption).
      rewrite IH by assumption. unfold streamed.
      destruct x, e; cbn in Hp |- *. rewrite Hp.
      now rewrite <- app_assoc.
Qed.

(** C8, as the code has it: however many chunks below the energy threshold
    arrive, the detection buffer, the time of the first speech and the
    provisional language stay what they were, no request is posted (so the
    language detector is not called) and the clock is not read; while no
    provisional language exists the environment does not change at all.
    The chunks are not dropped, though: each one is appended to the audio
    of the utterance in progress. *)
Theorem quiet_chunks_stay_out_of_the_detection
    (x : Session) (e : Env) (chunks : list bytes) (k : nat) :
  Forall (fun c => quiet c = true) chunks ->
  let r := ws_asr_loop (map Chunk (take k chunks)) {| vars := x; env := e |} in
  fst r = Ok tt
  /\ detect_buffer (vars (snd r)) = detect_buffer x
  /\ first_speech_time (vars (snd r)) = first_speech_time x
  /\ provisional_lang (vars (snd r)) = provisional_lang x
  /\ requests (env (snd r)) = requests e
  /\ clock_reads (env (snd r)) = clock_reads e
  /\ count_detections (trace (env (snd r))) = count_detections (trace e)
  /\ (provisional_lang x = None -> env (snd r) = e)
  /\ current_utt_audio (vars (snd r)) = current_utt_audio x ++ concat (take k chunks).
Proof.
  intros Hq r. subst r.
  rewrite ws_asr_loop_quiet by (auto using Forall_take).
  cbn [fst snd vars env requests clock_reads trace].
  rewrite count_detections_app, count_detections_streamed.
  repeat split; try (destruct x; reflexivity); try lia.
  intros Hp. unfold streamed. rewrite Hp. destruct e; cbn. now rewrite app_nil_r.
Qed.

Lemma quiet_chunks_stay_out_of_the_detection_witness :
  let r := ws_asr_loop (map Chunk (take 2 [silence; silence; silence])) (initial deaf_world) in
  fst r = Ok tt
  /\ detect_buffer (vars (snd r)) = []
  /\ first_speech_time (vars (snd r)) = None
  /\ provisional_lang (vars (snd r)) = None
  /\ count_detections (trace (env (snd r))) = 0%nat
  /\ env (snd r) = env (initial deaf_world)
  /\ current_utt_audio (vars (snd r)) = silence ++ silence.
Proof.
  assert (Forall (fun c => quiet c = true) [silence; silence; silence]) as Hq
    by (repeat constructor).
  destruct (quiet_chunks_stay_out_of_the_detection initial_session
              (env (initial deaf_world)) [silence; silence; silence] 2 Hq)
    as (Hr & Hd & Hf & Hp & _ & _ & Hc & He & Ha).
  exact (conj Hr (conj Hd (conj Hf (conj Hp (conj Hc (conj (He eq_refl) Ha)))))).
Defined.

(** C8, the chunk that is not discarded entirely.  A chunk of silence
    arrives before any speech; then a chunk of speech, on which the
    language is detected and the recognizer started; then the first
    utterance ends.  The silence is in the audio of that utterance: the
    history keeps it and the language detector is given it. *)
Lemma quiet_chunk_is_kept_in_the_utterance_audio :
  quiet silence = true
  /\ first_speech_time (vars (initial english_world)) = None
  /\ current_utt_audio
       (vars (snd (ws_asr_loop [Chunk silence] (initial english_world)))) = silence
  /\ let r := ws_asr_loop [Chunk silence; Chunk loud; Recognized "hello"]
               (initial english_world) in
     fst r = Ok tt
     /\ map pcm (utterance_history (vars (snd r))) = [silence ++ loud]
     /\ detected_audio (trace (env (snd r))) = [loud; silence ++ loud].
Proof. repeat split; vm_compute; reflexivity. Qed.

(** C10: [rms_energy] succeeds on the frames of even length and on no
    other; on a frame of one byte it raises [struct.error], which ends the
    main loop of main.py (before a language is known) and that of
    ws_multilang_adaptive.py. *)
Theorem rms_energy_raises_on_odd_frames :
  (forall pcm : bytes, is_ok (rms_energy pcm) = Nat.even (length pcm))
  /\ rms_energy [Byte.x01] = Raise StructError
  /\ (forall w, fst (ws_asr_loop [Chunk [Byte.x01]; Chunk silence] (initial w))
                = Raise StructError)
  /\ (forall w, fst (ws_multilang_adaptive.ws_multilang_adaptive_loop
                       [[Byte.x01]; silence] (ws_multilang_adaptive.initial w))
                = Raise StructError).
Proof.
  split; [exact rms_energy_ok_even|].
  split; [reflexivity|].
  split; intros w; reflexivity.
Qed.

(** ** What the collaborators' functions do *)

Lemma whisper_detect_post (pcm : bytes) (e : Env) :
  pcm <> [] ->
  whisper_detect pcm e =
    (Ok (detected_language (next_audio e (detect_request pcm))),
     posted (PostAudio (detect_request pcm) (next_audio e (detect_request pcm))) e).
Proof.
  intros H. destruct pcm as [|b pcm]; [congruence|].
  unfold whisper_detect, bind, post_audio, detected_language, next_audio.
  destruct (negb _); reflexivity.
Qed.

Lemma whisper_transcribe_post (pcm : bytes) (e : Env) :
  pcm <> [] ->
  whisper_transcribe pcm e =
    (Ok (returned_text (next_audio e (transcribe_request pcm))),
     posted (PostAudio (transcribe_request pcm) (next_audio e (transcribe_request pcm))) e).
Proof.
  intros H. destruct pcm as [|b pcm]; [congruence|].
  unfold whisper_transcribe, bind, post_audio, returned_text, text_or_empty, next_audio.
  destruct (a_status _ =? 200); reflexivity.
Qed.

Lemma whisper_translate_post (pcm : bytes) (e : Env) :
  pcm <> [] ->
  whisper_translate pcm e =
    (Ok (returned_text (next_audio e (translate_audio_request pcm))),
     posted (PostAudio (translate_audio_request pcm)
               (next_audio e (translate_audio_request pcm))) e).
Proof.
  intros H. destruct pcm as [|b pcm]; [congruence|].
  unfold whisper_translate, bind, post_audio, returned_text, text_or_empty, next_audio.
  destruct (a_status _ =? 200); reflexivity.
Qed.

Lemma returned_text_never_null (e : Env) (rq : AudioRequest) :
  never_null (world e) ->
  returned_text (next_audio e rq) = Some (transcript (next_audio e rq)).
Proof.
  intros Hw. unfold returned_text, transcript, next_audio.
  specialize (Hw (requests e) rq).
  destruct (a_status _ =? 200); [|reflexivity].
  destruct (a_text _); [reflexivity|congruence|reflexivity].
Qed.

Lemma run_try_embed {V B} (text : string) (k : option Vector -> SE (State V) B) x e :
  bind (try_except (io (embed text)) (fun _ => ret None)) k {| vars := x; env := e |}
  = k (obtained_embedding text (next_embeddings e text))
      {| vars := x;
         env := if truthy text
                then posted (PostEmbeddings text (next_embeddings e text)) e
                else e |}.
Proof.
  unfold bind at 1, try_except, io, embed, obtained_embedding, next_embeddings.
  cbn [env vars].
  destruct (truthy text); cbn [negb]; [|reflexivity].
  unfold bind, post_embeddings.
  destruct (negb (e_status _ =? 200)); [reflexivity|].
  destruct (e_data _); reflexivity.
Qed.

Lemma strip_truthy (s : string) : truthy (strip s) = true -> truthy s = true.
Proof. destruct s; [discriminate|reflexivity]. Qed.

Lemma in_LANG_MAP_truthy (lang : string) : in_LANG_MAP lang = true -> truthy lang = true.
Proof. destruct lang; [vm_compute; discriminate|reflexivity]. Qed.

(** ** The rollback replay *)

Lemma replay_entry_spec (entry : Entry) (x : Session) (e : Env) :
  never_null (world e) ->
  exists (a : Answers) (x' : Session) (e' : Env),
    replay_entry entry {| vars := x; env := e |} = (Ok tt, {| vars := x'; env := e' |})
    /\ trace e' = trace e ++ corrective entry a
    /\ world e' = world e
    /\ forget_merge x' = forget_merge x
    /\ last_translation_text x'
       = (if truthy (strip (corrected_translation entry a))
          then Some (corrected_translation entry a) else last_translation_text x)
    /\ (truthy (strip (corrected_translation entry a)) = false -> x' = x)
    /\ last_translation_embedding x'
       = (if truthy (strip (corrected_translation entry a))
          then match obtained_embedding (corrected_translation entry a) (ans_embed a) with
               | Some v => Some v
               | None => last_translation_embedding x
               end
          else last_translation_embedding x)
    /\ (paired x -> paired x').
Proof.
  intros Hw.
  unfold replay_entry, corrective, corrected_text, corrected_translation.
  destruct (pcm entry) as [|b rest] eqn:Hpcm.
  - (* no audio: both functions return at once *)
    exists {| ans_transcribe := next_audio e (transcribe_request []);
              ans_translate := next_audio e (translate_audio_request []);
              ans_embed := next_embeddings e "" |}, x, e.
    cbn [ans_transcribe ans_translate ans_embed].
    rewrite (run_io (whisper_transcribe []) _ x e (Some "") e) by reflexivity.
    rewrite (run_io (whisper_translate []) _ x e (Some "") e) by reflexivity.
    cbn. rewrite ?app_nil_r. unfold ret. auto 12.
  - set (pcm_bytes := b :: rest).
    assert (pcm_bytes <> []) as Hne by discriminate.
    set (r1 := next_audio e (transcribe_request pcm_bytes)).
    set (e1 := posted (PostAudio (transcribe_request pcm_bytes) r1) e).
    set (r2 := next_audio e1 (translate_audio_request pcm_bytes)).
    set (e2 := posted (PostAudio (translate_audio_request pcm_bytes) r2) e1).
    rewrite (run_io (whisper_transcribe pcm_bytes) _ x e (Some (transcript r1)) e1)
      by (rewrite whisper_transcribe_post by assumption;
          now rewrite returned_text_never_null).
    rewrite (run_io (whisper_translate pcm_bytes) _ x e1 (Some (transcript r2)) e2)
      by (rewrite whisper_translate_post by assumption;
          now rewrite (returned_text_never_null e1)).
    cbv beta iota.
    set (e3 := if truthy (strip (transcript r1))
               then logged (Send (ev_final_corrected (transcript r1))) e2 else e2).
    assert (forall k : unit -> M unit,
               bind (when truthy (strip (transcript r1)) then
                       io (send_json (ev_final_corrected (transcript r1)))) k
                    {| vars := x; env := e2 |}
               = k tt {| vars := x; env := e3 |}) as Hstep.
    { intros k. subst e3. destruct (truthy (strip (transcript r1))); reflexivity. }
    rewrite Hstep. clear Hstep.
    assert (trace e3 = trace e
                       ++ [PostAudio (transcribe_request pcm_bytes) r1;
                           PostAudio (translate_audio_request pcm_bytes) r2]
                       ++ (if truthy (strip (transcript r1))
                           then [Send (ev_final_corrected (transcript r1))] else []))
      as Htr3.
    { subst e3 e2 e1. destruct (truthy (strip (transcript r1))); cbn [trace logged posted];
        rewrite <- ?app_assoc; reflexivity. }
    assert (world e3 = world e) as Hw3.
    { subst e3 e2 e1. destruct (truthy (strip (transcript r1))); reflexivity. }
    destruct (truthy (strip (transcript r2))) eqn:Hctr.
    + set (ctr := transcript r2) in *.
      set (r3 := next_embeddings
                  (ticked (logged (Send (ev_final_translate_replayed ctr)) e3)) ctr).
      exists {| ans_transcribe := r1; ans_translate := r2; ans_embed := r3 |}.
      cbn [ans_transcribe ans_translate ans_embed]. fold ctr. rewrite Hctr.
      run. rewrite run_try_embed. rewrite (strip_truthy _ Hctr). run.
      fold r3.
      destruct (obtained_embedding ctr r3) as [v|]; run; unfold ret;
        eexists; eexists; (split; [reflexivity|]);
        cbn [env vars trace posted logged ticked world]; rewrite Htr3, Hw3;
        rewrite <- ?app_assoc; cbn [app]; unfold paired;
        destruct x; cbn; (repeat split; try reflexivity; try discriminate; tauto).
    + exists {| ans_transcribe := r1; ans_translate := r2;
                ans_embed := next_embeddings e3 "" |}, x, e3.
      cbn [ans_transcribe ans_translate ans_embed]. rewrite Hctr.
      unfold ret. rewrite Htr3, app_nil_r. auto 12.
Qed.

Lemma replay_spec (history : list Entry) (x : Session) (e : Env) :
  never_null (world e) ->
  exists (answers : list Answers) (x' : Session) (e' : Env),
    length answers = length history
    /\ replay history {| vars := x; env := e |} = (Ok tt, {| vars := x'; env := e' |})
    /\ trace e' = trace e ++ concat (zip_with corrective history answers)
    /\ world e' = world e
    /\ forget_merge x' = forget_merge x
    /\ last_translation_text x'
       = merge_text_after (last_translation_text x) history answers
    /\ (Forall (fun ea => truthy (strip (corrected_translation ea.1 ea.2)) = false)
               (zip history answers) -> x' = x)
    /\ last_translation_embedding x'
       = merge_embedding_after (last_translation_embedding x) history answers
    /\ (paired x -> paired x').
Proof.
  revert x e. induction history as [|entry rest IH]; intros x e Hnn.
  - exists [], x, e. cbn. rewrite app_nil_r. auto 12.
  - destruct (replay_entry_spec entry x e Hnn)
      as (a & x1 & e1 & Hrun & Htr & Hw & Hf & Ht & Hsame & He & Hp).
    destruct (IH x1 e1 ltac:(now rewrite Hw))
      as (answers & x' & e' & Hlen & Hrun' & Htr' & Hw' & Hf' & Ht' & Hsame' & He' & Hp').
    exists (a :: answers), x', e'.
    split; [cbn; congruence|].
    split; [cbn [replay]; erewrite bind_ok by exact Hrun; exact Hrun'|].
    split; [rewrite Htr', Htr; cbn; now rewrite <- app_assoc|].
    split; [congruence|].
    split; [congruence|].
    split.
    + rewrite Ht'. unfold merge_text_after. cbn [zip zip_with fold_left fst snd].
      now rewrite Ht.
    + split; [|split].
      * intros Hall. cbn in Hall. inversion Hall as [|? ? Ha Hrest]; subst.
        cbn in Ha. rewrite (Hsame' Hrest). apply Hsame. exact Ha.
      * rewrite He'. unfold merge_embedding_after.
        cbn [zip zip_with fold_left fst snd]. now rewrite He.
      * auto.
Qed.

(** The two requests of the replay always return, a text or [None]. *)
Lemma whisper_transcribe_run (pcm : bytes) (e : Env) :
  exists (v : option string) (e' : Env) (tr : list Action),
    whisper_transcribe pcm e = (Ok v, e')
    /\ trace e' = trace e ++ tr /\ world e' = world e.
Proof.
  destruct pcm as [|b rest].
  - exists (Some ""), e, []. rewrite app_nil_r. auto.
  - rewrite whisper_transcribe_post by discriminate.
    eexists. eexists. eexists. split; [reflexivity|]. split; reflexivity.
Qed.

Lemma whisper_translate_run (pcm : bytes) (e : Env) :
  exists (v : option string) (e' : Env) (tr : list Action),
    whisper_translate pcm e = (Ok v, e')
    /\ trace e' = trace e ++ tr /\ world e' = world e.
Proof.
  destruct pcm as [|b rest].
  - exists (Some ""), e, []. rewrite app_nil_r. auto.
  - rewrite whisper_translate_post by discriminate.
    eexists. eexists. eexists. split; [reflexivity|]. split; reflexivity.
Qed.

(** However the replay of an entry ends, and it ends well or on
    [AttributeError], it leaves all of the session but the merge context
    as it was. *)
Lemma replay_entry_run (entry : Entry) (x : Session) (e : Env) :
  exists (r : Res unit) (x' : Session) (e' : Env) (tr : list Action),
    replay_entry entry {| vars := x; env := e |} = (r, {| vars := x'; env := e' |})
    /\ (r = Ok tt \/ r = Raise AttributeError)
    /\ trace e' = trace e ++ tr
    /\ world e' = world e
    /\ forget_merge x' = forget_merge x.
Proof.
  unfold replay_entry.
  destruct (whisper_transcribe_run (pcm entry) e) as (v1 & e1 & tr1 & H1 & Ht1 & Hw1).
  destruct (whisper_translate_run (pcm entry) e1) as (v2 & e2 & tr2 & H2 & Ht2 & Hw2).
  erewrite run_io by exact H1. erewrite run_io by exact H2.
  assert (trace e2 = trace e ++ tr1 ++ tr2) as Ht by (now rewrite Ht2, Ht1, app_assoc).
  assert (world e2 = world e) as Hw by congruence.
  clear H1 H2 Ht1 Ht2 Hw1 Hw2.
  destruct v1 as [ct|];
    [|exists (Raise AttributeError), x, e2; eexists; repeat split; eauto].
  destruct (truthy (strip ct)); run;
    (destruct v2 as [ctr|];
     [|eexists (Raise AttributeError), x, _, _; unfold raise;
       (split; [reflexivity|]); (split; [now right|]);
       cbn [trace logged world]; rewrite Ht, Hw, <- ?app_assoc;
       repeat split; reflexivity]);
    (destruct (truthy (strip ctr)); run;
     [rewrite run_try_embed; run;
      destruct (obtained_embedding _ _); destruct (truthy ctr); run; unfold ret
     |unfold ret]);
    (eexists (Ok tt), _, _, _; (split; [reflexivity|]); (split; [now left|]);
     cbn [trace logged posted ticked world]; rewrite Ht, Hw, <- ?app_assoc;
     (split; [reflexivity|]); (split; [reflexivity|]); destruct x; reflexivity).
Qed.

Lemma replay_run (history : list Entry) (x : Session) (e : Env) :
  exists (r : Res unit) (x' : Session) (e' : Env) (tr : list Action),
    replay history {| vars := x; env := e |} = (r, {| vars := x'; env := e' |})
    /\ (r = Ok tt \/ r = Raise AttributeError)
    /\ trace e' = trace e ++ tr
    /\ world e' = world e
    /\ forget_merge x' = forget_merge x.
Proof.
  revert x e. induction history as [|entry rest IH]; intros x e.
  - exists (Ok tt), x, e, []. rewrite app_nil_r. auto.
  - destruct (replay_entry_run entry x e) as (r1 & x1 & e1 & tr1 & Hrun & Hr & Ht & Hw & Hf).
    cbn [replay]. unfold bind. rewrite Hrun.
    destruct Hr as [-> | ->].
    + destruct (IH x1 e1) as (r & x' & e' & tr & Hrun' & Hr' & Ht' & Hw' & Hf').
      exists r, x', e', (tr1 ++ tr). split; [exact Hrun'|]. split; [exact Hr'|].
      split; [now rewrite Ht', Ht, app_assoc|]. split; congruence.
    + exists (Raise AttributeError), x1, e1, tr1. auto.
Qed.

Lemma restart_azure_spec (x : Session) (e : Env) (lang : string) :
  provisional_lang x = Some lang ->
  truthy lang = true ->
  exists e',
    restart_azure {| vars := x; env := e |}
    = (Ok tt, {| vars := set_recognizer (Some (LANG_MAP_get lang))
                           (set_push_stream true
                              (set_push_stream false (set_recognizer None x)));
                 env := e' |})
    /\ trace e' = trace e ++ restart_actions x lang
    /\ world e' = world e.
Proof.
  intros Hp Ht. unfold restart_azure, restart_actions. run.
  destruct (bool_decide (is_Some (recognizer x))); run;
    destruct (push_stream x); run;
    cbn [provisional_lang set_push_stream set_recognizer]; rewrite Hp, Ht;
    unfold start_azure; run; unfold ret;
    eexists; (split; [reflexivity|]);
    cbn [trace logged world]; rewrite <- ?app_assoc; split; reflexivity.
Qed.

Lemma forget_merge_fields (x x' : Session) :
  forget_merge x' = forget_merge x ->
  detect_buffer x' = detect_buffer x
  /\ current_utt_audio x' = current_utt_audio x
  /\ provisional_lang x' = provisional_lang x
  /\ lang_locked x' = lang_locked x
  /\ recognizer x' = recognizer x
  /\ push_stream x' = push_stream x
  /\ first_speech_time x' = first_speech_time x
  /\ utterance_history x' = utterance_history x.
Proof.
  intros H. destruct x, x'. unfold forget_merge in H. cbn in H.
  inversion H. subst. cbn. auto 10.
Qed.

(** The whole of case A, for a detected language that is not empty. *)
Lemma on_mismatch_spec (x : Session) (e : Env) (detected : string) :
  never_null (world e) ->
  truthy detected = true ->
  exists (answers : list Answers) (x' : Session) (e' : Env),
    on_mismatch detected {| vars := x; env := e |}
    = (Ok tt, {| vars := x'; env := e' |})
    /\ length answers = length (utterance_history x)
    /\ trace e' =
         trace e
         ++ [Send ev_invalidate_all_asr; Send ev_invalidate_all_translation]
         ++ concat (zip_with corrective (utterance_history x) answers)
         ++ [Send (ev_lang_locked detected)]
         ++ restart_actions x detected
    /\ world e' = world e
    /\ utterance_history x' = []
    /\ provisional_lang x' = Some detected
    /\ lang_locked x' = true
    /\ recognizer x' = Some (LANG_MAP_get detected)
    /\ push_stream x' = true
    /\ detect_buffer x' = detect_buffer x
    /\ current_utt_audio x' = current_utt_audio x
    /\ first_speech_time x' = first_speech_time x
    /\ last_translation_text x' = merge_text_after None (utterance_history x) answers
    /\ last_translation_embedding x'
       = merge_embedding_after None (utterance_history x) answers
    /\ (last_translation_embedding x' = None <-> last_translation_time x' = None).
Proof.
  intros Hnn Htruthy.
  unfold on_mismatch. run.
  set (x0 := set_last_translation_time None
               (set_last_translation_embedding None
                  (set_last_translation_text None x))).
  set (e0 := logged (Send ev_invalidate_all_translation)
               (logged (Send ev_invalidate_all_asr) e)).
  assert (utterance_history x0 = utterance_history x) as Hh0 by reflexivity.
  rewrite Hh0.
  destruct (replay_spec (utterance_history x) x0 e0 Hnn)
    as (answers & x1 & e1 & Hlen & Hrun & Htr & Hw & Hf & Ht & _ & He & Hp).
  erewrite bind_ok by exact Hrun. run.
  set (x2 := set_lang_locked true
               (set_provisional_lang (Some detected)
                  (set_utterance_history [] x1))).
  destruct (restart_azure_spec x2 (logged (Send (ev_lang_locked detected)) e1) detected)
    as (e' & Hrun' & Htr' & Hw'); [reflexivity | assumption |].
  rewrite Hrun'.
  assert (forget_merge x0 = forget_merge x) as Hf0 by (destruct x; reflexivity).
  rewrite Hf0 in Hf.
  destruct (forget_merge_fields _ _ Hf) as (Hdb & Hcu & _ & _ & Hrec & Hps & Hfs & _).
  exists answers. eexists. exists e'. split; [reflexivity|].
  split; [exact Hlen|].
  split.
  { rewrite Htr'. cbn [trace logged]. rewrite Htr. subst e0. cbn [trace logged].
    unfold restart_actions. subst x2.
    cbn [recognizer push_stream set_lang_locked set_provisional_lang
           set_utterance_history].
    rewrite Hrec, Hps. rewrite <- !app_assoc. reflexivity. }
  split; [rewrite Hw'; cbn [world logged]; rewrite Hw; reflexivity|].
  assert (paired x0) as Hp0 by (unfold paired; split; reflexivity).
  specialize (Hp Hp0). unfold paired in Hp.
  cbn. repeat split; try reflexivity; try assumption; apply Hp.
Qed.

(** C1: the mismatch handler.  While the language is not locked, a detected
    language that is in [LANG_MAP] and differs from the provisional one
    makes [on_final] do exactly this, in this order, when the audio of
    every entry fits a WAV file and no answer holds a [null] text: forget
    the merge context; send [invalidate_all_asr], then
    [invalidate_all_translation]; for every entry of the history, in order,
    ask for the transcript and the translation of its audio and send the
    corrective [final] and [final_translate] (marked replayed), each left
    out when its text is blank, the later entries being processed all the
    same; empty the history; take the detected language as provisional and
    lock it; send [lang_locked]; restart the recognizer in the mapped
    language.  The merge context it leaves is that of the replayed
    translations alone.  So it goes, event by event, for the Japanese
    session of two utterances that is found to be English.  But a
    transcript that comes back as [null] stalls the replay: after the two
    invalidations and the two requests for the first entry the callback
    ends on [AttributeError], with the history, the provisional language,
    the lock and the recognizer as they were, and no corrected event. *)
Theorem mismatch_replay_stalls_on_a_null_text :
  (forall (x : Session) (e : Env) (detected p : string),
      lang_locked x = false ->
      provisional_lang x = Some p ->
      in_LANG_MAP detected = true ->
      detected <> p ->
      never_null (world e) ->
      Forall (fun entry => fits_wav (pcm entry)) (utterance_history x) ->
      exists (answers : list Answers) (x' : Session) (e' : Env),
        on_final_verify detected {| vars := x; env := e |}
        = (Ok tt, {| vars := x'; env := e' |})
        /\ length answers = length (utterance_history x)
        /\ trace e' =
             trace e
             ++ [Send ev_invalidate_all_asr; Send ev_invalidate_all_translation]
             ++ concat (zip_with corrective (utterance_history x) answers)
             ++ [Send (ev_lang_locked detected)]
             ++ restart_actions x detected
        /\ utterance_history x' = []
        /\ provisional_lang x' = Some detected
        /\ lang_locked x' = true
        /\ recognizer x' = Some (LANG_MAP_get detected)
        /\ last_translation_text x' = merge_text_after None (utterance_history x) answers
        /\ last_translation_embedding x'
           = merge_embedding_after None (utterance_history x) answers
        /\ (last_translation_embedding x' = None <-> last_translation_time x' = None))
  /\ (let r := on_final_verify "english"
                 {| vars := japanese_session; env := env (initial english_world) |} in
      let hello := {| a_status := 200; a_language := Some "English";
                      a_text := Text "hello" |} in
      let vector := {| e_status := 200; e_data := [[1%float; 0%float]] |} in
      fst r = Ok tt
      /\ trace (env (snd r))
         = [Send [("type", JStr "invalidate_all_asr")];
            Send [("type", JStr "invalidate_all_translation")];
            PostAudio (transcribe_request loud) hello;
            PostAudio (translate_audio_request loud) hello;
            Send [("type", JStr "final"); ("text", JStr "hello");
                  ("corrected", JBool true); ("replayed", JBool true)];
            Send [("type", JStr "final_translate"); ("translated", JStr "hello");
                  ("provisional", JBool false); ("replace_last", JBool false);
                  ("replayed", JBool true)];
            PostEmbeddings "hello" vector;
            PostAudio (transcribe_request (loud ++ loud)) hello;
            PostAudio (translate_audio_request (loud ++ loud)) hello;
            Send [("type", JStr "final"); ("text", JStr "hello");
                  ("corrected", JBool true); ("replayed", JBool true)];
            Send [("type", JStr "final_translate"); ("translated", JStr "hello");
                  ("provisional", JBool false); ("replace_last", JBool false);
                  ("replayed", JBool true)];
            PostEmbeddings "hello" vector;
            Send [("type", JStr "lang_locked"); ("lang", JStr "english")];
            RecognizerStop; StreamClose; Sleep 0.2%float; RecognizerStart "en-US"]
      /\ utterance_history (vars (snd r)) = []
      /\ provisional_lang (vars (snd r)) = Some "english"
      /\ lang_locked (vars (snd r)) = true
      /\ recognizer (vars (snd r)) = Some "en-US"
      /\ last_translation_text (vars (snd r)) = Some "hello"
      /\ last_translation_embedding (vars (snd r)) = Some [1%float; 0%float]
      /\ current_utt_audio (vars (snd r)) = [])
  /\ (let r := on_final_verify "english"
                 {| vars := japanese_session; env := env (initial null_world) |} in
      let null := {| a_status := 200; a_language := None; a_text := Null |} in
      fst r = Raise AttributeError
      /\ trace (env (snd r))
         = [Send [("type", JStr "invalidate_all_asr")];
            Send [("type", JStr "invalidate_all_translation")];
            PostAudio (transcribe_request loud) null;
            PostAudio (translate_audio_request loud) null]
      /\ utterance_history (vars (snd r)) = utterance_history japanese_session
      /\ provisional_lang (vars (snd r)) = Some "japanese"
      /\ lang_locked (vars (snd r)) = false
      /\ recognizer (vars (snd r)) = Some "ja-JP"
      /\ current_utt_audio (vars (snd r)) = loud).
Proof.
  split; [|split].
  - intros x e detected p Hlock Hp Hin Hne Hnn _.
    unfold on_final_verify. run.
    rewrite Hp. rewrite bool_decide_eq_false_2 by discriminate.
    cbn [andb]. run. rewrite Hlock. run. rewrite Hp. run.
    rewrite Hin. assert (String.eqb detected p = false) as Hneq
      by (apply String.eqb_neq; assumption).
    rewrite Hneq. cbn [negb andb].
    destruct (on_mismatch_spec x e detected Hnn (in_LANG_MAP_truthy _ Hin))
      as (answers & x' & e' & Hrun & Hlen & Htr & Hw & Hh & Hpl & Hl & Hr & Hps
          & Hdb & Hcu & Hfs & Ht & He & Hpair).
    erewrite bind_ok by exact Hrun. run.
    exists answers. eexists. exists e'. split; [reflexivity|].
    destruct x'; cbn in *. auto 12.
  - vm_compute. repeat split; reflexivity.
  - vm_compute. repeat split; reflexivity.
Qed.

(** ** The lock is final *)

Lemma count_sent_app t tr1 tr2 :
  count_sent t (tr1 ++ tr2) = (count_sent t tr1 + count_sent t tr2)%nat.
Proof. induction tr1 as [|a tr1 IH]; cbn; [reflexivity|]. rewrite IH. lia. Qed.

Lemma calm_no_invalidate_asr tr : calm tr -> count_sent "invalidate_all_asr" tr = 0%nat.
Proof.
  induction 1 as [|a tr Ha _ IH]; [reflexivity|].
  cbn [count_sent]. rewrite IH.
  destruct a; cbn in *; try reflexivity.
  destruct (has_type "invalidate_all_asr" ev); [discriminate|reflexivity].
Qed.

Lemma calm_no_invalidate_translation tr :
  calm tr -> count_sent "invalidate_all_translation" tr = 0%nat.
Proof.
  induction 1 as [|a tr Ha _ IH]; [reflexivity|].
  cbn [count_sent]. rewrite IH.
  destruct a; cbn in *; try reflexivity.
  destruct (has_type "invalidate_all_translation" ev); [|reflexivity].
  rewrite orb_true_r in Ha. discriminate.
Qed.

Lemma advances_refl s : advances s s.
Proof.
  intros Hl. split; [exact Hl|]. exists []. rewrite app_nil_r. split; [reflexivity|constructor].
Qed.

Lemma advances_trans s1 s2 s3 : advances s1 s2 -> advances s2 s3 -> advances s1 s3.
Proof.
  intros H12 H23 Hl.
  destruct (H12 Hl) as (Hl2 & tr1 & Ht1 & Hc1).
  destruct (H23 Hl2) as (Hl3 & tr2 & Ht2 & Hc2).
  split; [exact Hl3|]. exists (tr1 ++ tr2).
  split; [now rewrite Ht2, Ht1, app_assoc|apply Forall_app; split; assumption].
Qed.

Lemma advances_calm x e x' e' tr :
  trace e' = trace e ++ tr -> calm tr ->
  (lang_locked x = true -> lang_locked x' = true) ->
  advances {| vars := x; env := e |} {| vars := x'; env := e' |}.
Proof.
  intros Ht Hc Hl Hlocked. cbn [vars env] in *. split; [auto|]. exists tr. auto.
Qed.

Lemma preserves_ret {A} (a : A) : preserves (ret a).
Proof. intros s. apply advances_refl. Qed.

Lemma preserves_of_res {A} (r : Res A) : preserves (of_res r).
Proof. intros s. apply advances_refl. Qed.

Lemma preserves_get {A} (f : Session -> A) : preserves (get f).
Proof. intros s. apply advances_refl. Qed.

Lemma preserves_platform_pow : preserves platform_pow.
Proof. intros s. apply advances_refl. Qed.

Lemma preserves_bind {A B} (m : M A) (k : A -> M B) :
  preserves m -> (forall a, preserves (k a)) -> preserves (bind m k).
Proof.
  intros Hm Hk s. unfold bind. specialize (Hm s).
  destruct (m s) as [[a|err] s1]; cbn [snd] in *; [|assumption].
  eapply advances_trans; [exact Hm|apply Hk].
Qed.

Lemma preserves_try_except {A} (m : M A) (h : exn -> M A) :
  preserves m -> (forall err, preserves (h err)) -> preserves (try_except m h).
Proof.
  intros Hm Hh s. unfold try_except. specialize (Hm s).
  destruct (m s) as [[a|err] s1]; cbn [snd] in *; [assumption|].
  eapply advances_trans; [exact Hm|apply Hh].
Qed.

Lemma preserves_assign (f : Session -> Session) :
  (forall x, lang_locked x = true -> lang_locked (f x) = true) ->
  preserves (assign f).
Proof.
  intros Hf [x e]. cbn. apply advances_calm with (tr := []);
    [now rewrite app_nil_r | constructor | apply Hf].
Qed.

Lemma preserves_io {A} (m : IO A) : quiet_io m -> preserves (io m).
Proof.
  intros Hm [x e]. unfold io. cbn [env vars]. destruct (Hm e) as (tr & Ht & Hc).
  destruct (m e) as [r e']. cbn [snd] in *.
  apply advances_calm with (tr := tr); auto.
Qed.

Lemma quiet_io_act (a : Action) : rollback_action a = false -> quiet_io (act a).
Proof. intros Ha e. exists [a]. split; [reflexivity|]. repeat constructor. exact Ha. Qed.

Lemma quiet_io_perf_counter : quiet_io perf_counter.
Proof. intros e. exists []. split; [cbn; now rewrite app_nil_r|constructor]. Qed.

Lemma quiet_io_whisper_detect pcm : quiet_io (whisper_detect pcm).
Proof.
  intros e. destruct pcm as [|b rest].
  - exists []. split; [cbn; now rewrite app_nil_r|constructor].
  - rewrite whisper_detect_post by discriminate.
    eexists. split; [reflexivity|]. repeat constructor.
Qed.

Lemma quiet_io_azure_translate text target : quiet_io (azure_translate text target).
Proof.
  intros e. unfold azure_translate.
  destruct (negb (truthy (strip text))).
  - exists []. split; [cbn; now rewrite app_nil_r|constructor].
  - unfold bind, post_translate, of_res.
    destruct (first_translation _); (eexists; split; [reflexivity|repeat constructor]).
Qed.

Lemma quiet_io_embed text : quiet_io (embed text).
Proof.
  intros e. unfold embed.
  destruct (negb (truthy text)).
  - exists []. split; [cbn; now rewrite app_nil_r|constructor].
  - unfold bind, post_embeddings.
    destruct (negb (e_status _ =? 200));
      [eexists; split; [reflexivity|repeat constructor]|].
    destruct (e_data _); (eexists; split; [reflexivity|repeat constructor]).
Qed.

Lemma quiet_io_send (ev : Event) :
  rollback_action (Send ev) = false -> quiet_io (send_json ev).
Proof. apply quiet_io_act. Qed.

Create HintDb preserve.

Ltac preserving :=
  repeat match goal with
    | |- preserves (ret _) => apply preserves_ret
    | |- preserves (get _) => apply preserves_get
    | |- preserves platform_pow => apply preserves_platform_pow
    | |- preserves (of_res _) => apply preserves_of_res
    | |- preserves (bind _ _) => apply preserves_bind; [|intros ?]
    | |- preserves (try_except _ _) => apply preserves_try_except; [|intros ?]
    | |- preserves (assign _) =>
        apply preserves_assign; intros []; cbn; intros; first [assumption|reflexivity]
    | |- preserves (io _) =>
        apply preserves_io;
        first [ apply quiet_io_send; reflexivity
              | apply quiet_io_act; reflexivity
              | apply quiet_io_perf_counter
              | apply quiet_io_whisper_detect
              | apply quiet_io_azure_translate
              | apply quiet_io_embed ]
    | |- preserves (if ?b then _ else _) => destruct b
    | |- preserves (match ?o with _ => _ end) => destruct o
    | |- preserves _ => solve [auto with preserve nocore]
    end.

Lemma preserves_on_final_translate trans : preserves (on_final_translate trans).
Proof. unfold on_final_translate. preserving. Qed.
#[local] Hint Resolve preserves_on_final_translate : preserve.

Lemma preserves_on_final_verify detected : preserves (on_final_verify detected).
Proof.
  intros [x e] Hl. cbn [vars env snd] in *.
  assert (on_final_verify detected {| vars := x; env := e |}
          = (Ok tt,
             {| vars := set_current_utt_audio []
                          (if bool_decide (provisional_lang x = None) && in_LANG_MAP detected
                           then set_provisional_lang (Some detected) x else x);
                env := e |})) as ->.
  { unfold on_final_verify. run.
    destruct (bool_decide (provisional_lang x = None) && in_LANG_MAP detected);
      go; rewrite Hl; reflexivity. }
  cbn [snd vars env]. split.
  - destruct (_ && _); exact Hl.
  - exists []. rewrite app_nil_r. split; [reflexivity|constructor].
Qed.

#[local] Hint Resolve preserves_on_final_verify : preserve.

Lemma preserves_on_final text : preserves (on_final text).
Proof. unfold on_final. preserving. Qed.

(** C2: the lock is final, but a mismatch is not handled once only.  A
    final callback that starts in a locked session, whatever the text, the
    audio and the collaborators, leaves the language locked and adds no
    invalidation event, no replayed event and no request for a corrected
    transcript or translation; so it is for the second utterance of a
    session locked on English by its first, which the detector then finds
    to be Japanese.  A mismatch, though, does not always end in the lock:
    when the transcript of the replay comes back as [null], case A ends on
    [AttributeError] after the two invalidation events and before the
    lock, and the next utterance is a mismatch again.  In the last session
    of two utterances below, detected as English at first and as Japanese
    on each utterance, both invalidation events are sent twice and the
    language is still open at the end. *)
Theorem mismatch_is_handled_again_after_a_stalled_replay :
  (forall (text : string) (x : Session) (e : Env),
      lang_locked x = true ->
      let s' := snd (on_final text {| vars := x; env := e |}) in
      lang_locked (vars s') = true
      /\ exists tr : list Action,
           trace (env s') = trace e ++ tr
           /\ Forall (fun a => rollback_action a = false) tr
           /\ count_sent "invalidate_all_asr" tr = 0%nat
           /\ count_sent "invalidate_all_translation" tr = 0%nat)
  /\ (let r := ws_asr_loop [Chunk loud; Recognized "hello"; Chunk loud; Recognized "again"]
                 (initial late_doubt_world) in
      fst r = Ok tt
      /\ detected_language (openai_audio late_doubt_world 6 (detect_request loud))
         = "japanese"
      /\ last (trace (env (snd r)))
         = Some (PostAudio (detect_request loud)
                   (openai_audio late_doubt_world 6 (detect_request loud)))
      /\ sent (trace (env (snd r)))
         = [ [("type", JStr "lang"); ("lang", JStr "english")];
             [("type", JStr "final"); ("text", JStr "hello")];
             [("type", JStr "final_translate"); ("translated", JStr "hello");
              ("provisional", JBool true); ("replace_last", JBool false)];
             [("type", JStr "lang_locked"); ("lang", JStr "english")];
             [("type", JStr "final"); ("text", JStr "again")];
             [("type", JStr "final_translate"); ("translated", JStr "hello");
              ("provisional", JBool false); ("replace_last", JBool false)] ]
      /\ lang_locked (vars (snd r)) = true
      /\ provisional_lang (vars (snd r)) = Some "english")
  /\ (let r := ws_asr_loop [Chunk loud; Recognized "hello"; Chunk loud; Recognized "again"]
                 (initial wavering_world) in
      fst r = Ok tt
      /\ sent (trace (env (snd r)))
         = [ [("type", JStr "lang"); ("lang", JStr "english")];
             [("type", JStr "final"); ("text", JStr "hello")];
             [("type", JStr "final_translate"); ("translated", JStr "hello");
              ("provisional", JBool true); ("replace_last", JBool false)];
             [("type", JStr "invalidate_all_asr")];
             [("type", JStr "invalidate_all_translation")];
             [("type", JStr "final"); ("text", JStr "again")];
             [("type", JStr "final_translate"); ("translated", JStr "hello");
              ("provisional", JBool true); ("replace_last", JBool false)];
             [("type", JStr "invalidate_all_asr")];
             [("type", JStr "invalidate_all_translation")] ]
      /\ count_sent "invalidate_all_asr" (trace (env (snd r))) = 2%nat
      /\ count_sent "invalidate_all_translation" (trace (env (snd r))) = 2%nat
      /\ lang_locked (vars (snd r)) = false
      /\ provisional_lang (vars (snd r)) = Some "english"
      /\ length (utterance_history (vars (snd r))) = 2%nat).
Proof.
  split.
  - intros text x e Hl s'.
    destruct (preserves_on_final text {| vars := x; env := e |} Hl)
      as (Hl' & tr & Ht & Hc).
    split; [exact Hl'|]. exists tr.
    split; [exact Ht|]. split; [exact Hc|].
    split; [apply calm_no_invalidate_asr|apply calm_no_invalidate_translation]; exact Hc.
  - split; vm_compute; repeat split; reflexivity.
Qed.

(** ** The merge of two translations *)

Lemma on_final_translate_spec (trans : string) (x : Session) (e : Env) :
  let now := perf_counter_at (world e) (clock_reads e) in
  let rs := next_embeddings (ticked e) trans in
  let emb := obtained_embedding trans rs in
  let out := final_translation (float_pow (world e)) x now emb trans in
  exists x',
    on_final_translate trans {| vars := x; env := e |}
    = (Ok tt,
       {| vars := x';
          env := logged (Send (ev_final_translate out.1 (negb (lang_locked x)) out.2))
                   (if truthy trans then posted (PostEmbeddings trans rs) (ticked e)
                    else ticked e) |})
    /\ forget_merge x' = forget_merge x
    /\ last_translation_text x' = Some out.1
    /\ last_translation_embedding x'
       = (match emb with Some v => Some v | None => last_translation_embedding x end)
    /\ last_translation_time x'
       = (match emb with Some _ => Some now | None => last_translation_time x end).
Proof.
  intros now rs emb out. subst out. unfold on_final_translate, final_translation, merge_flag.
  run. rewrite run_try_embed. run. fold now rs emb.
  assert (float_pow (world (if truthy trans
                            then posted (PostEmbeddings trans rs) (ticked e)
                            else ticked e)) = float_pow (world e)) as ->
    by (destruct (truthy trans); reflexivity).
  destruct x as [db cu pl lk rc ps fs lt ltt lte uh].
  cbn [last_translation_embedding last_translation_time last_translation_text
         lang_locked].
  destruct emb as [v|]; destruct lte as [v0|]; destruct ltt as [t0|];
    try destruct ((0.75 <? cosine (float_pow (world e)) v v0)%float
                  && (now - t0 <? 1)%float);
    destruct lt as [prev|];
    run; unfold ret; eexists; (split; [reflexivity|]); cbn; auto.
Qed.





(** ** The final callback as a whole *)

Lemma azure_translate_eq (text target : string) (e : Env) :
  azure_translate text target e
  = (translation_result text target e, after_translate text target e).
Proof.
  unfold azure_translate, translation_result, after_translate.
  destruct (negb (truthy (strip text))); reflexivity.
Qed.

Lemma whisper_detect_eq (pcm : bytes) (e : Env) :
  whisper_detect pcm e = (Ok (detection_result pcm e), after_detect pcm e).
Proof.
  destruct pcm as [|b rest]; [reflexivity|].
  now rewrite whisper_detect_post by discriminate.
Qed.

(** Once locked, the verification changes nothing but the audio buffer. *)
Lemma on_final_verify_locked (x : Session) (e : Env) (detected p : string) :
  lang_locked x = true ->
  provisional_lang x = Some p ->
  on_final_verify detected {| vars := x; env := e |}
  = (Ok tt, {| vars := set_current_utt_audio [] x; env := e |}).
Proof.
  intros Hl Hp. unfold on_final_verify. run.
  rewrite Hp, bool_decide_eq_false_2 by discriminate.
  cbn [andb]. run. now rewrite Hl.
Qed.

(** Case B: a detected language equal to the provisional one locks it. *)
Lemma on_final_verify_match (x : Session) (e : Env) (p : string) :
  lang_locked x = false ->
  provisional_lang x = Some p ->
  on_final_verify p {| vars := x; env := e |}
  = (Ok tt, {| vars := set_current_utt_audio [] (set_lang_locked true x);
               env := logged (Send (ev_lang_locked p)) e |}).
Proof.
  intros Hl Hp. unfold on_final_verify. run.
  rewrite Hp, bool_decide_eq_false_2 by discriminate.
  cbn [andb]. run. rewrite Hl. run. rewrite Hp. run.
  rewrite String.eqb_refl. cbn [negb]. rewrite andb_false_r. run.
  reflexivity.
Qed.

(** Case A, however it ends.  The two invalidations are sent first; then
    either the replay goes through, and the history is emptied and the
    language locked, or it stalls on [AttributeError], and the session is
    what it was but for the merge context. *)
Lemma on_mismatch_run (x : Session) (e : Env) (detected : string) :
  truthy detected = true ->
  exists (r : Res unit) (x' : Session) (e' : Env) (tr : list Action),
    on_mismatch detected {| vars := x; env := e |} = (r, {| vars := x'; env := e' |})
    /\ trace e' = trace e ++ Send ev_invalidate_all_asr
                             :: Send ev_invalidate_all_translation :: tr
    /\ current_utt_audio x' = current_utt_audio x
    /\ match r with
       | Ok _ =>
           utterance_history x' = [] /\ lang_locked x' = true
           /\ provisional_lang x' = Some detected
       | Raise err =>
           err = AttributeError
           /\ utterance_history x' = utterance_history x
           /\ lang_locked x' = lang_locked x
           /\ provisional_lang x' = provisional_lang x
           /\ recognizer x' = recognizer x
       end.
Proof.
  intros Htruthy. unfold on_mismatch. run.
  match goal with
  | |- context [bind (replay ?h) _ {| vars := ?x0; env := ?e0 |}] =>
      destruct (replay_run h x0 e0) as (r1 & x1 & e1 & tr1 & Hrun & Hr & Htr & Hw & Hf)
  end.
  unfold bind at 1. rewrite Hrun.
  assert (forget_merge x1 = forget_merge x) as Hf' by (rewrite Hf; destruct x; reflexivity).
  destruct (forget_merge_fields _ _ Hf') as (Hdb & Hcu & Hpl & Hlk & Hrec & Hps & Hfs & Hh).
  cbn [trace logged] in Htr.
  destruct Hr as [-> | ->].
  - run.
    set (x2 := set_lang_locked true
                 (set_provisional_lang (Some detected)
                    (set_utterance_history [] x1))).
    destruct (restart_azure_spec x2 (logged (Send (ev_lang_locked detected)) e1) detected)
      as (e' & Hrun' & Htr' & Hw'); [reflexivity | assumption |].
    rewrite Hrun'. eexists (Ok tt), _, e', _. split; [reflexivity|].
    split; [rewrite Htr'; cbn [trace logged]; rewrite Htr, <- !app_assoc; reflexivity|].
    split; [exact Hcu|]. cbn. auto.
  - exists (Raise AttributeError), x1, e1, tr1. split; [reflexivity|].
    split; [rewrite Htr, <- !app_assoc; reflexivity|]. auto 10.
Qed.

(** The verification, however it ends: without a rollback it returns, the
    history as it was, having sent nothing or [lang_locked]; with a
    rollback that goes through it returns, the history empty and the
    language locked; with one that stalls it raises [AttributeError], the
    history and the audio of the utterance as they were. *)
Lemma on_final_verify_run (x : Session) (e : Env) (detected : string) :
  exists (r : Res unit) (x' : Session) (e' : Env) (tr : list Action),
    on_final_verify detected {| vars := x; env := e |} = (r, {| vars := x'; env := e' |})
    /\ trace e' = trace e ++ tr
    /\ ((r = Ok tt
         /\ utterance_history x' = utterance_history x
         /\ current_utt_audio x' = []
         /\ calm tr)
        \/ (r = Ok tt
            /\ lang_locked x = false
            /\ utterance_history x' = []
            /\ lang_locked x' = true
            /\ current_utt_audio x' = []
            /\ In (Send ev_invalidate_all_asr) tr)
        \/ (r = Raise AttributeError
            /\ lang_locked x = false
            /\ utterance_history x' = utterance_history x
            /\ lang_locked x' = false
            /\ current_utt_audio x' = current_utt_audio x
            /\ In (Send ev_invalidate_all_asr) tr)).
Proof.
  unfold on_final_verify.
  set (x1 := if bool_decide (provisional_lang x = None) && in_LANG_MAP detected
             then set_provisional_lang (Some detected) x else x).
  assert (lang_locked x1 = lang_locked x) as Hl1
    by (subst x1; destruct (_ && _); reflexivity).
  assert (utterance_history x1 = utterance_history x) as Hh1
    by (subst x1; destruct (_ && _); reflexivity).
  assert (current_utt_audio x1 = current_utt_audio x) as Ha1
    by (subst x1; destruct (_ && _); reflexivity).
  run.
  assert (forall k : unit -> M unit,
             bind (when bool_decide (provisional_lang x = None) && in_LANG_MAP detected
                   then assign (set_provisional_lang (Some detected))) k
                  {| vars := x; env := e |}
             = k tt {| vars := x1; env := e |}) as Hstep.
  { intros k. subst x1. destruct (_ && _); reflexivity. }
  rewrite Hstep. clear Hstep. run.
  assert (forall tr : list Action, tr = [] -> trace e = trace e ++ tr) as Hnil
    by (intros tr ->; now rewrite app_nil_r).
  destruct (lang_locked x1) eqn:Hlk.
  - run. eexists (Ok tt), _, e, []. split; [reflexivity|].
    split; [now apply Hnil|]. left. repeat split; [exact Hh1|constructor].
  - run. destruct (provisional_lang x1) as [p|] eqn:Hp.
    + destruct (in_LANG_MAP detected && negb (String.eqb detected p)) eqn:Hcase.
      * apply andb_prop in Hcase. destruct Hcase as [Hin _].
        destruct (on_mismatch_run x1 e detected (in_LANG_MAP_truthy _ Hin))
          as (r & x2 & e2 & tr & Hrun & Htr & Hcu & Hr).
        unfold bind at 1. rewrite Hrun.
        assert (In (Send ev_invalidate_all_asr)
                   (Send ev_invalidate_all_asr :: Send ev_invalidate_all_translation :: tr))
          as Hin' by (left; reflexivity).
        destruct r as [[]|err].
        -- destruct Hr as (Hh & Hl & _). run.
           eexists (Ok tt), _, e2, _. split; [reflexivity|]. split; [exact Htr|].
           right. left. session.
           repeat split; first [exact Hin' | congruence].
        -- destruct Hr as (-> & Hh & Hl & _).
           eexists (Raise AttributeError), x2, e2, _. split; [reflexivity|].
           split; [exact Htr|]. right. right.
           repeat split; first [exact Hin' | congruence].
      * destruct (String.eqb detected p); run.
        -- eexists (Ok tt), _, _, [Send (ev_lang_locked detected)].
           split; [reflexivity|]. split; [reflexivity|]. left.
           repeat split; [exact Hh1|repeat constructor].
        -- eexists (Ok tt), _, e, []. split; [reflexivity|].
           split; [now apply Hnil|]. left. repeat split; [exact Hh1|constructor].
    + run. eexists (Ok tt), _, e, []. split; [reflexivity|].
      split; [now apply Hnil|]. left. repeat split; [exact Hh1|constructor].
Qed.

Lemma alter_last_entry (l : list Entry) (entry : Entry) (t : option string) :
  alter (set_azure_translation t) (length l) (l ++ [entry])
  = l ++ [set_azure_translation t entry].
Proof.
  replace (length l) with (length l + 0)%nat by lia.
  now rewrite alter_app_r.
Qed.

(** [on_final], cut at the translation: it raises at once when the
    translation does, and goes on to the merge, the detection on the audio
    of the utterance and the verification when it does not. *)
Lemma on_final_eq (text : string) (x : Session) (e : Env) :
  let e1 := logged (Send (ev_final text)) e in
  let e2 := after_translate text TARGET_LANG e1 in
  on_final text {| vars := x; env := e |}
  = match translation_result text TARGET_LANG e1 with
    | Raise err =>
        (Raise err,
         {| vars := set_utterance_history
                      (utterance_history x ++ [history_entry x text None]) x;
            env := e2 |})
    | Ok trans =>
        (on_final_translate trans ;;
         detected <- io (whisper_detect (current_utt_audio x)) ;;
         on_final_verify detected)
          {| vars := set_utterance_history
                       (utterance_history x ++ [history_entry x text (Some trans)]) x;
             env := e2 |}
    end.
Proof.
  intros e1 e2. unfold on_final. run.
  unfold bind at 1, io at 1. cbn [env vars]. rewrite azure_translate_eq.
  fold e1 e2. destruct (translation_result text TARGET_LANG e1) as [trans|err];
    [|reflexivity].
  run. cbn [utterance_history set_utterance_history current_utt_audio].
  fold (history_entry x text None). rewrite alter_last_entry.
  destruct x; reflexivity.
Qed.

Lemma after_translate_trace (text target : string) (e : Env) :
  trace (after_translate text target e)
  = trace e ++ (if truthy (strip text)
                then [PostTranslate text target (next_translation e text target)]
                else []).
Proof.
  unfold after_translate. destruct (truthy (strip text)); cbn;
    [reflexivity|now rewrite app_nil_r].
Qed.

Lemma after_detect_trace (pcm : bytes) (e : Env) :
  pcm <> [] ->
  trace (after_detect pcm e)
  = trace e ++ [PostAudio (detect_request pcm) (next_audio e (detect_request pcm))].
Proof. intros H. destruct pcm; [congruence|reflexivity]. Qed.

(** The merge step by its trace: the request for an embedding (when the
    translation is not empty) and one [final_translate] event. *)
Lemma on_final_translate_trace (trans : string) (x : Session) (e : Env) :
  exists (x' : Session) (e' : Env) (out : string * bool) (re : EmbeddingsResponse),
    on_final_translate trans {| vars := x; env := e |}
    = (Ok tt, {| vars := x'; env := e' |})
    /\ trace e' = trace e
                  ++ (if truthy trans then [PostEmbeddings trans re] else [])
                  ++ [Send (ev_final_translate out.1 (negb (lang_locked x)) out.2)]
    /\ forget_merge x' = forget_merge x.
Proof.
  destruct (on_final_translate_spec trans x e) as (x' & Hrun & Hf & _).
  exists x'. eexists. eexists. exists (next_embeddings (ticked e) trans).
  split; [exact Hrun|]. split; [|exact Hf].
  destruct (truthy trans); cbn [trace logged posted ticked];
    rewrite <- ?app_assoc; reflexivity.
Qed.

Lemma after_detect_calm (pcm : bytes) (e : Env) :
  exists tr, trace (after_detect pcm e) = trace e ++ tr /\ calm tr.
Proof.
  destruct pcm as [|b rest].
  - exists []. cbn. rewrite app_nil_r. split; [reflexivity|constructor].
  - eexists. split; [reflexivity|]. repeat constructor.
Qed.

Lemma calm_not_invalidated (tr : list Action) :
  calm tr -> ~ In (Send ev_invalidate_all_asr) tr.
Proof.
  intros Hc Hin. unfold calm in Hc. rewrite Forall_forall in Hc.
  apply list_elem_of_In in Hin. specialize (Hc _ Hin). discriminate.
Qed.

(** A final callback, however it ends.  It records the utterance and sends
    its text; then the translation raises, and so does the callback; or
    the translation is obtained, sent and recorded, and the verification
    ends in one of its three ways. *)
Lemma on_final_run (text : string) (x : Session) (e : Env) :
  let e1 := logged (Send (ev_final text)) e in
  exists (r : Res unit) (x' : Session) (e' : Env) (tr : list Action),
    on_final text {| vars := x; env := e |} = (r, {| vars := x'; env := e' |})
    /\ trace e' = trace e ++ tr
    /\ ((exists err,
           translation_result text TARGET_LANG e1 = Raise err
           /\ r = Raise err
           /\ utterance_history x' = utterance_history x ++ [history_entry x text None]
           /\ lang_locked x' = lang_locked x
           /\ current_utt_audio x' = current_utt_audio x
           /\ calm tr)
        \/ (exists trans,
              translation_result text TARGET_LANG e1 = Ok trans
              /\ ((r = Ok tt
                   /\ utterance_history x'
                      = utterance_history x ++ [history_entry x text (Some trans)]
                   /\ current_utt_audio x' = []
                   /\ calm tr)
                  \/ (r = Ok tt
                      /\ lang_locked x = false
                      /\ utterance_history x' = []
                      /\ lang_locked x' = true
                      /\ current_utt_audio x' = []
                      /\ In (Send ev_invalidate_all_asr) tr)
                  \/ (r = Raise AttributeError
                      /\ lang_locked x = false
                      /\ utterance_history x'
                         = utterance_history x ++ [history_entry x text (Some trans)]
                      /\ lang_locked x' = false
                      /\ current_utt_audio x' = current_utt_audio x
                      /\ In (Send ev_invalidate_all_asr) tr)))).
Proof.
  intros e1. rewrite on_final_eq. fold e1.
  assert (exists tr0, trace (after_translate text TARGET_LANG e1) = trace e ++ tr0
                      /\ calm tr0) as (tr0 & Htr0 & Hc0).
  { rewrite after_translate_trace. subst e1. cbn [trace logged].
    rewrite <- app_assoc. eexists. split; [reflexivity|].
    destruct (truthy (strip text)); repeat constructor. }
  destruct (translation_result text TARGET_LANG e1) as [trans|err].
  - set (xa := set_utterance_history _ x).
    destruct (on_final_translate_trace trans xa (after_translate text TARGET_LANG e1))
      as (xc & ec & out & re & Hrun & Htr & Hf).
    erewrite bind_ok by exact Hrun.
    destruct (forget_merge_fields _ _ Hf) as (_ & Hcu & _ & Hl & _ & _ & _ & Hh).
    erewrite run_io by apply whisper_detect_eq.
    destruct (after_detect_calm (current_utt_audio x) ec) as (trd & Htrd & Hcd).
    destruct (on_final_verify_run xc (after_detect (current_utt_audio x) ec)
                (detection_result (current_utt_audio x) ec))
      as (r & x' & e' & tr & Hrun' & Htr' & Hcases).
    rewrite Hrun'.
    set (trc := (if truthy trans then [PostEmbeddings trans re] else [])
                ++ [Send (ev_final_translate out.1 (negb (lang_locked xa)) out.2)]) in *.
    assert (calm trc) as Hcc
      by (subst trc; destruct (truthy trans); repeat constructor).
    exists r, x', e', (tr0 ++ trc ++ trd ++ tr).
    split; [reflexivity|].
    split; [rewrite Htr', Htrd, Htr, Htr0, <- !app_assoc; reflexivity|].
    right. exists trans. split; [reflexivity|].
    assert (utterance_history xc
            = utterance_history x ++ [history_entry x text (Some trans)]) as Hhc
      by (rewrite Hh; reflexivity).
    assert (lang_locked xc = lang_locked x) as Hlc by (rewrite Hl; reflexivity).
    assert (current_utt_audio xc = current_utt_audio x) as Hcuc
      by (rewrite Hcu; reflexivity).
    assert (forall a, In a tr -> In a (tr0 ++ trc ++ trd ++ tr)) as Hin
      by (intros a Ha; rewrite !in_app_iff; auto).
    destruct Hcases as [(-> & Hh' & Ha' & Hc') | [(-> & Hl0 & Hh' & Hl' & Ha' & Hi')
                                                 | (-> & Hl0 & Hh' & Hl' & Ha' & Hi')]].
    + left. repeat split; [congruence|exact Ha'|].
      unfold calm. rewrite !Forall_app. auto.
    + right. left. repeat split; try congruence. now apply Hin.
    + right. right. repeat split; try congruence. now apply Hin.
  - exists (Raise err), (set_utterance_history
                           (utterance_history x ++ [history_entry x text None]) x),
      (after_translate text TARGET_LANG e1), tr0.
    split; [reflexivity|]. split; [exact Htr0|].
    left. exists err. repeat split. exact Hc0.
Qed.

(** C3, as stated, fails: the first utterance locks the language by a
    verified match and stays in the history, and the second one is added to
    it after the lock. *)
Lemma history_is_not_empty_after_the_lock :
  lang_locked (vars after_first_utterance) = true
  /\ length (utterance_history (vars after_first_utterance)) = 1%nat
  /\ lang_locked (vars after_second_utterance) = true
  /\ length (utterance_history (vars after_second_utterance)) = 2%nat.
Proof. vm_compute. auto. Qed.

(** C3, amended: every final callback records its utterance first, locked
    or not, and the history is emptied when, and only when, a rollback
    replay completes.  A callback that sends [invalidate_all_asr] and
    returns has carried a rollback through: it leaves the history empty and
    the language, which was open, locked.  Every other callback (one that
    sends no invalidation, or one that ends on an exception) leaves the
    history what it was with the utterance added at its end; such is every
    callback of a locked session.  A lock by a verified match (case B)
    leaves the history as it is.  The Japanese session of two utterances
    that is found to be English shows the rollback: its third utterance
    leaves the history empty. *)
Theorem history_is_emptied_by_rollback_only (text : string) (x : Session) (e : Env) :
  let r := on_final text {| vars := x; env := e |} in
  let s' := snd r in
  (exists tr : list Action,
      trace (env s') = trace e ++ tr
      /\ (fst r = Ok tt -> In (Send ev_invalidate_all_asr) tr ->
          utterance_history (vars s') = []
          /\ lang_locked x = false /\ lang_locked (vars s') = true)
      /\ (fst r <> Ok tt \/ ~ In (Send ev_invalidate_all_asr) tr ->
          exists t, utterance_history (vars s')
                    = utterance_history x ++ [history_entry x text t]))
  /\ (lang_locked x = true ->
      exists t, utterance_history (vars s')
                = utterance_history x ++ [history_entry x text t])
  /\ (forall p, lang_locked x = false -> provisional_lang x = Some p ->
      let s1 := snd (on_final_verify p {| vars := x; env := e |}) in
      lang_locked (vars s1) = true
      /\ utterance_history (vars s1) = utterance_history x)
  /\ (let r0 := on_final "hello"
                  {| vars := japanese_session; env := env (initial english_world) |} in
      let corrected :=
        [ [("type", JStr "final"); ("text", JStr "hello");
           ("corrected", JBool true); ("replayed", JBool true)];
          [("type", JStr "final_translate"); ("translated", JStr "hello");
           ("provisional", JBool false); ("replace_last", JBool false);
           ("replayed", JBool true)] ] in
      fst r0 = Ok tt
      /\ sent (trace (env (snd r0)))
         = [ [("type", JStr "final"); ("text", JStr "hello")];
             [("type", JStr "final_translate"); ("translated", JStr "hello");
              ("provisional", JBool true); ("replace_last", JBool false)];
             [("type", JStr "invalidate_all_asr")];
             [("type", JStr "invalidate_all_translation")] ]
           ++ corrected ++ corrected ++ corrected
           ++ [ [("type", JStr "lang_locked"); ("lang", JStr "english")] ]
      /\ length (utterance_history japanese_session) = 2%nat
      /\ utterance_history (vars (snd r0)) = []
      /\ lang_locked (vars (snd r0)) = true).
Proof.
  intros r s'.
  destruct (on_final_run text x e) as (r' & x' & e' & tr & Hrun & Htr & Hcases).
  cbv zeta in Hcases.
  assert (r = (r', {| vars := x'; env := e' |})) as Hr by exact Hrun.
  assert (fst r = r') as Hfst by (rewrite Hr; reflexivity).
  assert (s' = {| vars := x'; env := e' |}) as Hs by (subst s'; rewrite Hr; reflexivity).
  rewrite Hfst, Hs. cbn [vars env].
  split; [|split; [|split]].
  - exists tr. split; [exact Htr|].
    destruct Hcases as [(err & _ & -> & Hh & _ & _ & Hc)
                       | (trans & _ & [(-> & Hh & _ & Hc)
                                      | [(-> & Hl & Hh & Hl' & _ & Hi)
                                        | (-> & Hl & Hh & Hl' & _ & Hi)]])].
    + split; [discriminate|]. intros _. eauto.
    + split; [intros _ Hi; destruct (calm_not_invalidated _ Hc Hi)|]. intros _. eauto.
    + split; [auto|]. intros [H | H]; [congruence|contradiction].
    + split; [discriminate|]. intros _. eauto.
  - intros Hlocked.
    destruct Hcases as [(err & _ & _ & Hh & _)
                       | (trans & _ & [(_ & Hh & _)
                                      | [(_ & Hl & _) | (_ & Hl & _)]])];
      try congruence; eauto.
  - intros p Hl Hp. cbv zeta.
    rewrite on_final_verify_match by assumption. split; reflexivity.
  - vm_compute. repeat split; reflexivity.
Qed.

(** C4, as stated, fails: in the session above the language is locked by
    the first utterance, and the second utterance is still given to the
    detector. *)
Lemma locked_session_calls_the_detector :
  lang_locked (vars after_first_utterance) = true
  /\ count_detections
       (drop (length (trace (env after_first_utterance)))
             (trace (env after_second_utterance))) = 1%nat.
Proof. vm_compute. auto. Qed.

(** C4, amended: once the language is locked, an utterance whose
    translation is obtained is processed for its transcript and translation
    and its audio, when it has some that fits a WAV file, is still given to
    the detector, as the last request of the callback; the answer is not
    used: the provisional language, the lock and the recognizer stay as
    they are and no other event is sent.  (When the translation raises, the
    callback ends before the detector is asked.)  So it goes for the
    second utterance of the English session. *)
Theorem locked_session_ignores_the_detector :
  (forall (text : string) (x : Session) (e : Env) (p : string),
      lang_locked x = true ->
      provisional_lang x = Some p ->
      current_utt_audio x <> [] ->
      fits_wav (current_utt_audio x) ->
      let e1 := logged (Send (ev_final text)) e in
      let r := on_final text {| vars := x; env := e |} in
      lang_locked (vars (snd r)) = true
      /\ provisional_lang (vars (snd r)) = Some p
      /\ recognizer (vars (snd r)) = recognizer x
      /\ match translation_result text TARGET_LANG e1 with
         | Ok trans =>
             exists (out : string * bool) (re : EmbeddingsResponse) (rs : AudioResponse),
               fst r = Ok tt
               /\ trace (env (snd r)) =
                    trace e
                    ++ [Send (ev_final text)]
                    ++ (if truthy (strip text)
                        then [PostTranslate text TARGET_LANG
                                (next_translation e1 text TARGET_LANG)]
                        else [])
                    ++ (if truthy trans then [PostEmbeddings trans re] else [])
                    ++ [Send (ev_final_translate out.1 false out.2);
                        PostAudio (detect_request (current_utt_audio x)) rs]
               /\ current_utt_audio (vars (snd r)) = []
         | Raise err =>
             fst r = Raise err
             /\ trace (env (snd r)) =
                  trace e
                  ++ [Send (ev_final text);
                      PostTranslate text TARGET_LANG (next_translation e1 text TARGET_LANG)]
         end)
  /\ (let r := on_final "again" locked_state in
      lang_locked (vars locked_state) = true
      /\ current_utt_audio (vars locked_state) = loud
      /\ fst r = Ok tt
      /\ drop (length (trace (env locked_state))) (trace (env (snd r)))
         = [Send [("type", JStr "final"); ("text", JStr "again")];
            PostTranslate "again" "en" {| t_status := 200; t_body := TItems [["hello"]] |};
            PostEmbeddings "hello" {| e_status := 200; e_data := [[1%float; 0%float]] |};
            Send [("type", JStr "final_translate"); ("translated", JStr "hello");
                  ("provisional", JBool false); ("replace_last", JBool false)];
            PostAudio (detect_request loud)
              {| a_status := 200; a_language := Some "English"; a_text := Text "hello" |}]
      /\ lang_locked (vars (snd r)) = true
      /\ provisional_lang (vars (snd r)) = Some "english"
      /\ recognizer (vars (snd r)) = Some "en-US"
      /\ current_utt_audio (vars (snd r)) = []).
Proof.
  split; [|vm_compute; repeat split; reflexivity].
  intros text x e p Hl Hp Haudio _ e1 r. subst r.
  rewrite on_final_eq. fold e1.
  destruct (translation_result text TARGET_LANG e1) as [trans|err] eqn:Htrans.
  - set (xa := set_utterance_history _ x).
    destruct (on_final_translate_trace trans xa (after_translate text TARGET_LANG e1))
      as (xc & ec & out & re & Hrun & Htr & Hf).
    erewrite bind_ok by exact Hrun.
    destruct (forget_merge_fields _ _ Hf) as (_ & _ & Hpc & Hlc & Hrc & _ & _ & _).
    erewrite run_io by apply whisper_detect_eq.
    rewrite (on_final_verify_locked xc _ _ p) by (cbn in *; congruence).
    cbn [fst snd vars env]. session.
    split; [cbn in *; congruence|]. split; [cbn in *; congruence|].
    split; [cbn in *; congruence|].
    exists out, re, (next_audio ec (detect_request (current_utt_audio x))).
    split; [reflexivity|]. split; [|reflexivity].
    rewrite (after_detect_trace _ _ Haudio), Htr, after_translate_trace.
    subst e1. cbn [trace logged].
    assert (lang_locked xa = true) as -> by exact Hl.
    cbn [negb]. rewrite <- !app_assoc. reflexivity.
  - cbn [fst snd vars env]. session.
    split; [exact Hl|]. split; [exact Hp|]. split; [reflexivity|].
    split; [reflexivity|].
    rewrite after_translate_trace.
    assert (truthy (strip text) = true) as ->.
    { unfold translation_result in Htrans.
      destruct (truthy (strip text)); [reflexivity|discriminate]. }
    subst e1. cbn [trace logged]. now rewrite <- app_assoc.
Qed.

(** ** The first detection *)

(** C6, as stated, fails, in both directions: 0.8 s of voiced audio that
    arrive at once leave the session without a detection and without a
    provisional language; and two samples of voiced audio are given to the
    detector when the clock has advanced by 0.8 s since the first speech. *)
Lemma detection_waits_for_the_clock_not_the_audio :
  (let s' := snd (ws_asr_chunk speech_0_8s (initial fast_world)) in
   quiet speech_0_8s = false
   /\ Z.of_nat (length (detect_buffer (vars s'))) = 25600
   /\ provisional_lang (vars s') = None
   /\ trace (env s') = [])
  /\ (let s' := snd (ws_asr_chunk loud (initial english_world)) in
      Z.of_nat (length loud) = 4
      /\ provisional_lang (vars s') = Some "english"
      /\ count_detections (trace (env s')) = 1%nat).
Proof. repeat split; vm_compute; reflexivity. Qed.

Lemma voiced_chunk_not_empty (chunk : bytes) (energy : float) :
  rms_energy chunk = Ok energy ->
  (energy <? SILENCE_RMS_THRESHOLD)%float = false ->
  chunk <> [].
Proof.
  intros Hr Hq ->. cbn in Hr. inversion Hr; subst. vm_compute in Hq. discriminate.
Qed.

(** C6, amended: while no provisional language exists, a chunk of speech
    (energy not below the threshold) that arrives when the clock shows at
    least 0.8 s since the first speech makes the session give the whole
    detection sample to the detector, once; take the answer as provisional
    language if it is in [LANG_MAP] and "english" if not; send [lang];
    start the recognizer with the mapped code (ja-JP for "japanese"); write
    the sample to the engine; and empty the detection buffer. *)
Theorem first_detection_after_min_detect_sec
    (chunk : bytes) (x : Session) (e : Env) (energy : float) :
  provisional_lang x = None ->
  rms_energy chunk = Ok energy ->
  (energy <? SILENCE_RMS_THRESHOLD)%float = false ->
  let t0 := match first_speech_time x with
            | Some t => t
            | None => perf_counter_at (world e) (clock_reads e)
            end in
  let e1 := match first_speech_time x with Some _ => e | None => ticked e end in
  let now := perf_counter_at (world e1) (clock_reads e1) in
  (MIN_DETECT_SEC <=? now - t0)%float = true ->
  let sample := detect_buffer x ++ chunk in
  let rs := next_audio (ticked e1) (detect_request sample) in
  let lang := if in_LANG_MAP (detected_language rs)
              then detected_language rs else "english" in
  exists (x' : Session) (e' : Env),
    ws_asr_chunk chunk {| vars := x; env := e |} = (Ok tt, {| vars := x'; env := e' |})
    /\ trace e' = trace e
                  ++ [PostAudio (detect_request sample) rs;
                      Send (ev_lang lang);
                      RecognizerStart (LANG_MAP_get lang);
                      StreamWrite sample]
    /\ provisional_lang x' = Some lang
    /\ lang_locked x' = lang_locked x
    /\ recognizer x' = Some (LANG_MAP_get lang)
    /\ detect_buffer x' = []
    /\ LANG_MAP_get "japanese" = "ja-JP".
Proof.
  intros Hp Hr Hq.
  pose proof (voiced_chunk_not_empty _ _ Hr Hq) as Hne.
  destruct x as [db cu pl lk rc ps fs lt ltt lte uh].
  cbn [provisional_lang] in Hp. subst pl.
  destruct fs as [t|]; session; intros t0 e1 now Hel sample rs lang;
    (assert (sample <> []) as Hsample
      by (subst sample; intros H; apply app_eq_nil in H; destruct H; contradiction));
    (assert (truthy lang = true) as Hlang
      by (subst lang; destruct (in_LANG_MAP (detected_language rs)) eqn:Hin;
          [apply in_LANG_MAP_truthy; exact Hin|reflexivity]));
    (assert (detection_result sample (ticked e1) = detected_language rs) as Hdr
      by (destruct sample; [congruence|reflexivity]));
    pose proof (after_detect_trace sample (ticked e1) Hsample) as Htr;
    fold rs in Htr;
    unfold ws_asr_chunk; go;
    unfold bind at 1, of_res at 1; rewrite Hr, Hq;
    go; fold t0 e1; fold now; rewrite Hel;
    rewrite bool_decide_eq_true_2 by reflexivity; cbn [andb]; go;
    fold sample; (erewrite run_io by apply whisper_detect_eq);
    rewrite Hdr; fold lang; go;
    rewrite bool_decide_eq_false_2 by discriminate;
    rewrite andb_false_r; go;
    rewrite Hlang; unfold start_azure; go;
    fold sample; rewrite bool_decide_eq_false_2 by exact Hsample;
    cbn [negb andb]; go;
    (eexists; eexists; split; [reflexivity|]);
    (split; [cbn [trace logged]; rewrite Htr; cbn [trace ticked];
             rewrite <- !app_assoc; reflexivity|]);
    session; repeat split; reflexivity.
Qed.

(** ** Failing collaborators *)

Lemma whisper_detect_non_success (pcm : bytes) (e : Env) :
  a_status (next_audio e (detect_request pcm)) <> 200 ->
  fst (whisper_detect pcm e) = Ok "unknown".
Proof.
  intros H. rewrite whisper_detect_eq. cbn [fst].
  destruct pcm; [reflexivity|]. cbn [detection_result]. unfold detected_language.
  apply Z.eqb_neq in H. now rewrite H.
Qed.

Lemma whisper_transcribe_non_success (pcm : bytes) (e : Env) :
  a_status (next_audio e (transcribe_request pcm)) <> 200 ->
  fst (whisper_transcribe pcm e) = Ok (Some "").
Proof.
  intros H. destruct pcm as [|b rest]; [reflexivity|].
  rewrite whisper_transcribe_post by discriminate. cbn [fst]. unfold returned_text.
  apply Z.eqb_neq in H. now rewrite H.
Qed.

Lemma whisper_translate_non_success (pcm : bytes) (e : Env) :
  a_status (next_audio e (translate_audio_request pcm)) <> 200 ->
  fst (whisper_translate pcm e) = Ok (Some "").
Proof.
  intros H. destruct pcm as [|b rest]; [reflexivity|].
  rewrite whisper_translate_post by discriminate. cbn [fst]. unfold returned_text.
  apply Z.eqb_neq in H. now rewrite H.
Qed.

Lemma fixed_azure_translate_eq (text target : string) (e : Env) :
  truthy (strip text) = true ->
  ws_fixed.azure_translate text target e
  = (Ok (fixed_translation (next_translation e text target)),
     posted (PostTranslate text target (next_translation e text target)) e).
Proof.
  intros H. unfold ws_fixed.azure_translate, fixed_translation.
  rewrite H, (strip_truthy _ H). cbn [negb orb].
  unfold try_except, bind, post_translate, of_res, next_translation.
  destruct (negb (t_status _ =? 200)); [reflexivity|].
  destruct (first_translation _); reflexivity.
Qed.

Lemma fixed_azure_translate_non_success (text target : string) (e : Env) :
  t_status (next_translation e text target) <> 200 ->
  fst (ws_fixed.azure_translate text target e) = Ok "".
Proof.
  intros H. destruct (truthy (strip text)) eqn:Ht.
  - rewrite fixed_azure_translate_eq by exact Ht. cbn [fst].
    unfold fixed_translation. apply Z.eqb_neq in H. now rewrite H.
  - unfold ws_fixed.azure_translate. rewrite Ht. cbn [negb].
    now rewrite orb_true_r.
Qed.

(** C7: a response that is not a success.  The language detector yields
    "unknown", the transcription and the translation of the audio yield the
    empty string, and the [azure_translate] of ws_fixed.py yields the empty
    string; but the [azure_translate] of main.py reads the error object of
    the translator as if it were the array of a success and raises
    [KeyError], for every text that is not blank: in the session of one
    utterance below, [on_final] ends on it after the [final] event, without
    a [final_translate] event and without the verification of the
    language. *)
Theorem main_azure_translate_raises_on_error_answer :
  (forall pcm e, a_status (next_audio e (detect_request pcm)) <> 200 ->
                 fst (whisper_detect pcm e) = Ok "unknown")
  /\ (forall pcm e, a_status (next_audio e (transcribe_request pcm)) <> 200 ->
                    fst (whisper_transcribe pcm e) = Ok (Some ""))
  /\ (forall pcm e, a_status (next_audio e (translate_audio_request pcm)) <> 200 ->
                    fst (whisper_translate pcm e) = Ok (Some ""))
  /\ (forall text target e, t_status (next_translation e text target) <> 200 ->
                            fst (ws_fixed.azure_translate text target e) = Ok "")
  /\ (forall text target e code message,
        truthy (strip text) = true ->
        t_body (next_translation e text target) = TError code message ->
        fst (azure_translate text target e) = Raise KeyError)
  /\ (let s0 := snd (ws_asr_loop [Chunk loud] (initial unauthorized_world)) in
      let r := on_final "hello" s0 in
      fst r = Raise KeyError
      /\ drop (length (trace (env s0))) (trace (env (snd r)))
         = [Send (ev_final "hello");
            PostTranslate "hello" "en"
              {| t_status := 401;
                 t_body := TError 401000 "The request is not authorized." |}]
      /\ lang_locked (vars (snd r)) = false
      /\ current_utt_audio (vars (snd r)) = loud).
Proof.
  split; [exact whisper_detect_non_success|].
  split; [exact whisper_transcribe_non_success|].
  split; [exact whisper_translate_non_success|].
  split; [exact fixed_azure_translate_non_success|].
  split.
  - intros text target e code message Ht Hb.
    rewrite azure_translate_eq. cbn [fst]. unfold translation_result.
    now rewrite Ht, Hb.
  - vm_compute. auto.
Qed.

(** ** The translation of partial hypotheses *)

Lemma translate_requests_app tr1 tr2 :
  translate_requests (tr1 ++ tr2) = translate_requests tr1 ++ translate_requests tr2.
Proof.
  induction tr1 as [|a tr1 IH]; [reflexivity|].
  destruct a; cbn; rewrite ?IH; reflexivity.
Qed.

(** main.py: a partial hypothesis that is not blank is sent and submitted
    to the translator at once. *)
Lemma on_partial_spec (text : string) (x : Session) (e : Env) :
  truthy (strip text) = true ->
  exists e',
    on_partial text {| vars := x; env := e |} = {| vars := x; env := e' |}
    /\ exists tr, trace e' = trace e ++ tr /\ translate_requests tr = [text].
Proof.
  intros Ht. unfold on_partial. rewrite (strip_truthy _ Ht).
  unfold spawn, send_mid_translate.
  rewrite end_send. cbn [snd].
  unfold bind at 1, io at 1. cbn [env vars]. rewrite azure_translate_eq.
  unfold translation_result, after_translate. rewrite Ht. cbn [negb].
  destruct (first_translation _) as [trans|err].
  - rewrite end_send. cbn [snd]. eexists. split; [reflexivity|].
    eexists. split; [cbn [trace logged posted]; rewrite <- !app_assoc; reflexivity|].
    reflexivity.
  - cbn [snd]. eexists. split; [reflexivity|].
    eexists. split; [cbn [trace logged posted]; rewrite <- !app_assoc; reflexivity|].
    reflexivity.
Qed.

Lemma handle_recognizing_spec (text : string) (x : Session) (e : Env) :
  is_Some (recognizer x) ->
  truthy (strip text) = true ->
  exists e',
    handle (Recognizing text) {| vars := x; env := e |}
    = (Ok tt, {| vars := x; env := e' |})
    /\ exists tr, trace e' = trace e ++ tr /\ translate_requests tr = [text].
Proof.
  intros Hr Ht. cbn [handle vars].
  rewrite bool_decide_eq_true_2 by exact Hr.
  destruct (on_partial_spec text x e Ht) as (e' & -> & Htr).
  exists e'. split; [reflexivity|exact Htr].
Qed.

Ltac fixed_session :=
  cbn beta iota delta
    [vars env ws_fixed.last_partial_text ws_fixed.translate_task ws_fixed.tasks
       ws_fixed.set_last_partial_text ws_fixed.set_translate_task ws_fixed.set_tasks
       ws_fixed.task_text ws_fixed.wake_at ws_fixed.status ws_fixed.set_status
       ws_fixed.cancel ws_fixed.run_due_from length app alter list_alter].

Ltac fixed_go := repeat (progress (run; fixed_session)).

(** ws_fixed.py: a new partial hypothesis is sent, cancels the task that
    sleeps and leaves one of its own. *)
Lemma on_recognizing_spec (now : float) (text : string)
    (x : ws_fixed.Session) (e : Env) :
  truthy text = true ->
  text <> ws_fixed.last_partial_text x ->
  ws_fixed.on_recognizing now text {| vars := x; env := e |}
  = (Ok tt,
     {| vars :=
          ws_fixed.set_translate_task (Some (length (ws_fixed.tasks x)))
            (ws_fixed.set_tasks
               (match ws_fixed.translate_task x with
                | Some i => alter ws_fixed.cancel i (ws_fixed.tasks x)
                | None => ws_fixed.tasks x
                end
                ++ [{| ws_fixed.task_text := text;
                       ws_fixed.wake_at := (now + 0.3)%float;
                       ws_fixed.status := ws_fixed.Sleeping |}])
               (ws_fixed.set_last_partial_text text x));
        env := logged (Send (ev_partial text)) e |}).
Proof.
  intros Ht Hne. unfold ws_fixed.on_recognizing. rewrite Ht. cbn [negb].
  unfold bind at 1. unfold spawn, ws_fixed.send_partial. rewrite end_send. cbn [snd].
  fixed_go. apply String.eqb_neq in Hne. rewrite Hne.
  destruct x as [lp [i|] ts]; fixed_go; rewrite ?length_alter; reflexivity.
Qed.

(** ws_fixed.py: the translation of a partial hypothesis that is not blank,
    when the sleep of its task ends. *)
Lemma fixed_send_mid_translate_spec (text : string) (x : ws_fixed.Session) (e : Env) :
  truthy (strip text) = true ->
  exists e',
    spawn (ws_fixed.send_mid_translate text) {| vars := x; env := e |}
    = {| vars := x; env := e' |}
    /\ exists tr, trace e' = trace e ++ tr /\ translate_requests tr = [text].
Proof.
  intros Ht. unfold spawn, ws_fixed.send_mid_translate. rewrite Ht. cbn [negb].
  erewrite run_io by (apply fixed_azure_translate_eq; exact Ht).
  destruct (truthy (fixed_translation _)).
  - rewrite end_send. cbn [snd]. eexists. split; [reflexivity|].
    eexists. split; [cbn [trace logged posted]; rewrite <- !app_assoc; reflexivity|].
    reflexivity.
  - unfold ret. cbn [snd]. eexists. split; [reflexivity|].
    eexists. split; [reflexivity|]. reflexivity.
Qed.

(** C9: three partial hypotheses, each new and not blank, that arrive 0.1 s
    apart.  In ws_fixed.py the first two tasks are cancelled in their sleep
    of 0.3 s and the translator is asked for the last hypothesis only; in
    main.py, where [on_partial] has no timer, it is asked for each of the
    three. *)
Theorem partial_translation_is_debounced_in_ws_fixed_only
    (p1 p2 p3 : string) (w : World) (x : Session) (e : Env) :
  truthy (strip p1) = true ->
  truthy (strip p2) = true ->
  truthy (strip p3) = true ->
  p1 <> p2 ->
  p2 <> p3 ->
  is_Some (recognizer x) ->
  translate_requests
    (trace (env (ws_fixed.run
                   [ws_fixed.Recognizing 0%float p1;
                    ws_fixed.Recognizing 0.1%float p2;
                    ws_fixed.Recognizing 0.2%float p3]
                   (ws_fixed.initial w)))) = [p3]
  /\ exists tr,
       trace (env (snd (ws_asr_loop [Recognizing p1; Recognizing p2; Recognizing p3]
                          {| vars := x; env := e |})))
       = trace e ++ tr
       /\ translate_requests tr = [p1; p2; p3].
Proof.
  intros H1 H2 H3 H12 H23 Hrec.
  split.
  - unfold ws_fixed.run, ws_fixed.initial.
    cbn [ws_fixed.callbacks ws_fixed.handle].
    unfold ws_fixed.run_due.
    (* the first hypothesis *)
    fixed_go.
    erewrite bind_ok
      by (apply on_recognizing_spec;
          [apply strip_truthy; assumption | cbn; intros ->; discriminate]).
    fixed_go.
    (* the second one: the first task is not due, and is cancelled *)
    replace ((0 + 0.3 <=? 0.1)%float) with false by reflexivity.
    fixed_go.
    erewrite bind_ok
      by (apply on_recognizing_spec;
          [apply strip_truthy; assumption | cbn; congruence]).
    fixed_go.
    (* the third one: the second task is not due, and is cancelled *)
    replace ((0.1 + 0.3 <=? 0.2)%float) with false by reflexivity.
    fixed_go.
    erewrite bind_ok
      by (apply on_recognizing_spec;
          [apply strip_truthy; assumption | cbn; congruence]).
    fixed_go.
    (* every sleep ends: only the third task is still asleep *)
    replace ((0.2 + 0.3 <=? infinity)%float) with true by reflexivity.
    fixed_go.
    unfold bind at 1. cbv beta iota.
    match goal with
    | |- context [spawn (ws_fixed.send_mid_translate p3)
                    {| vars := ?xx; env := ?ee |}] =>
        destruct (fixed_send_mid_translate_spec p3 xx ee H3)
          as (e' & Hrun & tr & Htr & Hreq)
    end.
    rewrite Hrun. unfold ret. cbn [snd env].
    rewrite Htr, translate_requests_app, Hreq. reflexivity.
  - cbn [ws_asr_loop].
    destruct (handle_recognizing_spec p1 x e Hrec H1) as (e1 & Hr1 & tr1 & Ht1 & Hq1).
    destruct (handle_recognizing_spec p2 x e1 Hrec H2) as (e2 & Hr2 & tr2 & Ht2 & Hq2).
    destruct (handle_recognizing_spec p3 x e2 Hrec H3) as (e3 & Hr3 & tr3 & Ht3 & Hq3).
    erewrite bind_ok by exact Hr1.
    erewrite bind_ok by exact Hr2.
    erewrite bind_ok by exact Hr3.
    unfold ret. cbn [snd env].
    exists (tr1 ++ tr2 ++ tr3).
    split; [rewrite Ht3, Ht2, Ht1, <- !app_assoc; reflexivity|].
    rewrite !translate_requests_app, Hq1, Hq2, Hq3. reflexivity.
Qed.

(** ** The theorems at concrete sessions *)

Lemma first_detection_after_min_detect_sec_witness :
  exists (x' : Session) (e' : Env),
    ws_asr_chunk loud {| vars := initial_session; env := env (initial english_world) |}
    = (Ok tt, {| vars := x'; env := e' |})
    /\ provisional_lang x' = Some "english"
    /\ recognizer x' = Some "en-US"
    /\ detect_buffer x' = [].
Proof.
  destruct (first_detection_after_min_detect_sec loud initial_session
              (env (initial english_world)) 4096%float)
    as (x' & e' & Hrun & _ & Hp & _ & Hr & Hd & _);
    [reflexivity | vm_compute; reflexivity | vm_compute; reflexivity
    | vm_compute; reflexivity |].
  exists x', e'. split; [exact Hrun|]. split; [exact Hp|]. split; [exact Hr|exact Hd].
Defined.

Lemma partial_translation_is_debounced_in_ws_fixed_only_witness :
  translate_requests
    (trace (env (ws_fixed.run
                   [ws_fixed.Recognizing 0%float "good";
                    ws_fixed.Recognizing 0.1%float "good mor";
                    ws_fixed.Recognizing 0.2%float "good morning"]
                   (ws_fixed.initial english_world)))) = ["good morning"]
  /\ exists tr,
       trace (env (snd (ws_asr_loop
                          [Recognizing "good"; Recognizing "good mor";
                           Recognizing "good morning"]
                          {| vars := vars after_first_utterance;
                             env := env after_first_utterance |})))
       = trace (env after_first_utterance) ++ tr
       /\ translate_requests tr = ["good"; "good mor"; "good morning"].
Proof.
  apply (partial_translation_is_debounced_in_ws_fixed_only
           "good" "good mor" "good morning" english_world
           (vars after_first_utterance) (env after_first_utterance));
    try reflexivity; try discriminate.
  vm_compute. eexists. reflexivity.
Defined.

(** * Further properties of the code *)

(** ** The WAV container *)

Lemma to_N_byte_of_Z (v : Z) : Z.of_N (Byte.to_N (byte_of_Z v)) = v mod 256.
Proof.
  unfold byte_of_Z.
  assert (0 <= v mod 256 < 256) as Hr by (apply Z.mod_pos_bound; lia).
  destruct (Byte.of_N (Z.to_N (v mod 256))) as [b|] eqn:Hb.
  - apply Byte.to_of_N in Hb. change (default Byte.x00 (Some b)) with b. rewrite Hb. lia.
  - apply Byte.of_N_None_iff in Hb. lia.
Qed.

Lemma le_value_le_bytes (n : nat) (v : Z) :
  0 <= v < 2 ^ (8 * Z.of_nat n) -> le_value (le_bytes n v) = v.
Proof.
  revert v. induction n as [|n IH]; intros v Hv.
  - cbn in *. lia.
  - cbn [le_bytes le_value fold_right]. fold (le_value (le_bytes n (v / 256))).
    rewrite to_N_byte_of_Z, IH.
    + pose proof (Z.div_mod v 256). lia.
    + replace (8 * Z.of_nat (S n)) with (8 + 8 * Z.of_nat n) in Hv by lia.
      rewrite Z.pow_add_r in Hv by lia. change (2 ^ 8) with 256 in Hv.
      split; [apply Z.div_pos; lia|].
      apply Z.div_lt_upper_bound; lia.
Qed.

Lemma struct_pack_one (n : nat) (v : Z) :
  struct_pack [(n, v)]
  = if (0 <=? v) && (v <? 2 ^ (8 * Z.of_nat n)) then Ok (le_bytes n v) else Raise StructError.
Proof. cbn [struct_pack]. destruct (_ && _); [now rewrite app_nil_r|reflexivity]. Qed.

Lemma pcm_to_wav_ok (pcm : bytes) :
  36 + Z.of_nat (length pcm) < 2 ^ 32 ->
  pcm_to_wav pcm
  = Ok (list_byte_of_string "RIFF" ++ le_bytes 4 (36 + Z.of_nat (length pcm))
        ++ list_byte_of_string "WAVEfmt "
        ++ (le_bytes 4 16 ++ le_bytes 2 1 ++ le_bytes 2 1 ++ le_bytes 4 16000
            ++ le_bytes 4 32000 ++ le_bytes 2 2 ++ le_bytes 2 16)
        ++ list_byte_of_string "data" ++ le_bytes 4 (Z.of_nat (length pcm)) ++ pcm).
Proof.
  intros H. unfold pcm_to_wav. rewrite !struct_pack_one.
  change (2 ^ (8 * Z.of_nat 4)) with (2 ^ 32).
  assert ((0 <=? 36 + Z.of_nat (length pcm)) && (36 + Z.of_nat (length pcm) <? 2 ^ 32) = true)
    as -> by (apply andb_true_intro; split; [apply Z.leb_le|apply Z.ltb_lt]; lia).
  assert ((0 <=? Z.of_nat (length pcm)) && (Z.of_nat (length pcm) <? 2 ^ 32) = true)
    as -> by (apply andb_true_intro; split; [apply Z.leb_le|apply Z.ltb_lt]; lia).
  reflexivity.
Qed.

(** X1: [pcm_to_wav] succeeds on audio of less than 2^32 - 36 bytes and
    raises [struct.error] on any longer one, whose RIFF size does not fit
    the 32 bits of its field. *)
Theorem pcm_to_wav_raises_on_4_gib (pcm : bytes) :
  match pcm_to_wav pcm with
  | Ok _ => 36 + Z.of_nat (length pcm) < 2 ^ 32
  | Raise err => err = StructError /\ 2 ^ 32 <= 36 + Z.of_nat (length pcm)
  end.
Proof.
  destruct (Z.ltb_spec (36 + Z.of_nat (length pcm)) (2 ^ 32)) as [H|H].
  - now rewrite pcm_to_wav_ok.
  - unfold pcm_to_wav. rewrite struct_pack_one.
    change (2 ^ (8 * Z.of_nat 4)) with (2 ^ 32).
    assert ((36 + Z.of_nat (length pcm) <? 2 ^ 32) = false) as ->
      by (apply Z.ltb_ge; exact H).
    rewrite andb_false_r. split; [reflexivity|exact H].
Qed.

(** X2: the layout of the file that [pcm_to_wav] builds.  It is the audio
    behind a header of 44 bytes: "RIFF", the size of what follows it (36
    and the audio), "WAVEfmt ", a format chunk of 16 bytes that declares
    PCM (1), one channel, 16000 samples a second, 32000 bytes a second,
    blocks of 2 bytes and 16 bits a sample, "data", and the size of the
    audio; every number little-endian. *)
Theorem pcm_to_wav_layout (pcm wav : bytes) :
  pcm_to_wav pcm = Ok wav ->
  length wav = (44 + length pcm)%nat
  /\ slice 0 4 wav = list_byte_of_string "RIFF"
  /\ le_value (slice 4 4 wav) = 36 + Z.of_nat (length pcm)
  /\ slice 8 8 wav = list_byte_of_string "WAVEfmt "
  /\ map (fun f => le_value (slice (fst f) (snd f) wav))
       [(16, 4); (20, 2); (22, 2); (24, 4); (28, 4); (32, 2); (34, 2)]%nat
     = [16; 1; 1; 16000; 32000; 2; 16]
  /\ slice 36 4 wav = list_byte_of_string "data"
  /\ le_value (slice 40 4 wav) = Z.of_nat (length pcm)
  /\ drop 44 wav = pcm.
Proof.
  intros H.
  assert (36 + Z.of_nat (length pcm) < 2 ^ 32) as Hb.
  { destruct (Z.ltb_spec (36 + Z.of_nat (length pcm)) (2 ^ 32)) as [Hlt|Hge]; [exact Hlt|].
    exfalso. unfold pcm_to_wav in H. rewrite struct_pack_one in H.
    change (2 ^ (8 * Z.of_nat 4)) with (2 ^ 32) in H.
    assert ((36 + Z.of_nat (length pcm) <? 2 ^ 32) = false) as Hf
      by (apply Z.ltb_ge; exact Hge).
    rewrite Hf, andb_false_r in H. discriminate. }
  rewrite pcm_to_wav_ok in H by exact Hb. injection H as <-.
  set (n := Z.of_nat (length pcm)) in *.
  pose proof (le_value_le_bytes 4 (36 + n)) as H1.
  pose proof (le_value_le_bytes 4 n) as H2.
  change (2 ^ (8 * Z.of_nat 4)) with (2 ^ 32) in *.
  cbn [le_bytes] in H1, H2.
  cbn [le_bytes list_byte_of_string app].
  unfold slice. cbn [take drop length map fst snd].
  repeat split; try reflexivity; try (apply H1; lia); try (apply H2; lia).
Qed.

(** ** Similarity and language tags *)

Lemma float_mul_comm (x y : float) : (x * y)%float = (y * x)%float.
Proof.
  apply Prim2SF_inj. rewrite !mul_spec. unfold SF64mul, SFmul.
  destruct (Prim2SF x) as [sx|sx| |sx mx ex], (Prim2SF y) as [sy|sy| |sy my ey];
    try reflexivity; try (now rewrite xorb_comm).
  now rewrite xorb_comm, Pos.mul_comm, Z.add_comm.
Qed.

Lemma zip_with_mul_comm (a b : Vector) :
  zip_with PrimFloat.mul a b = zip_with PrimFloat.mul b a.
Proof.
  revert b. induction a as [|x a IH]; intros [|y b]; try reflexivity.
  cbn [zip_with]. now rewrite float_mul_comm, IH.
Qed.

(** X3: the similarity of the merge decision is symmetric: [cosine a b]
    and [cosine b a] are the same float, for vectors of any lengths and
    any components (infinities and NaN included), whatever the power of
    floats of the platform. *)
Theorem cosine_symmetric (pow : float -> float -> float) (a b : Vector) :
  cosine pow a b = cosine pow b a.
Proof.
  unfold cosine. cbv zeta. now rewrite zip_with_mul_comm, float_mul_comm.
Qed.

Lemma lower_char_idempotent (c : ascii) : lower_char (lower_char c) = lower_char c.
Proof. destruct c as [[] [] [] [] [] [] [] []]; vm_compute; reflexivity. Qed.

Lemma lower_idempotent (s : string) : lower (lower s) = lower s.
Proof.
  induction s as [|c s IH]; [reflexivity|].
  cbn [lower]. now rewrite lower_char_idempotent, IH.
Qed.

(** X4: on audio that fits a WAV file, [whisper_detect] does not raise and
    answers in lower case, so that a language is looked up in [LANG_MAP]
    whatever the case the service spells it in.  Its answer is "unknown",
    or it is the language of a 200 answer to audio that is not empty, in
    lower case. *)
Theorem whisper_detect_answers_in_lower_case (pcm : bytes) (e : Env) :
  fits_wav pcm ->
  let rs := next_audio e (detect_request pcm) in
  exists lang : string,
    fst (whisper_detect pcm e) = Ok lang
    /\ lower lang = lang
    /\ (lang = "unknown"
        \/ (pcm <> [] /\ a_status rs = 200
            /\ exists l, a_language rs = Some l /\ l <> "" /\ lang = lower l)).
Proof.
  intros _ rs. destruct pcm as [|b rest].
  - exists "unknown". repeat split; auto.
  - rewrite whisper_detect_post by discriminate. cbn [fst]. fold rs.
    unfold detected_language, language_or_unknown.
    destruct (a_status rs =? 200) eqn:Hs; cbn [negb];
      [|exists "unknown"; repeat split; auto].
    apply Z.eqb_eq in Hs.
    destruct (a_language rs) as [l|] eqn:Hl; [|exists "unknown"; repeat split; auto].
    destruct (truthy l) eqn:Ht; [|exists "unknown"; repeat split; auto].
    exists (lower l). split; [reflexivity|]. split; [apply lower_idempotent|].
    right. split; [discriminate|]. split; [exact Hs|].
    exists l. repeat split. intros ->. discriminate.
Qed.

(** ** The candidate cache of ws_multilang_adaptive.py *)

Lemma update_candidates_eq (lang : string) (x : ws_multilang_adaptive.Session) (e : Env) :
  ws_multilang_adaptive.update_candidates lang {| vars := x; env := e |}
  = (Ok tt,
     {| vars :=
          if recordable lang then
            ws_multilang_adaptive.set_LANG_CANDIDATES
              (let l := lang :: ws_multilang_adaptive.remove_first lang
                                  (ws_multilang_adaptive.LANG_CANDIDATES x) in
               if (ws_multilang_adaptive.MAX_CANDIDATES <? length l)%nat
               then removelast l else l) x
          else x;
        env := e |}).
Proof.
  unfold ws_multilang_adaptive.update_candidates, recordable.
  destruct (truthy lang); cbn [negb orb andb]; [|reflexivity].
  destruct (String.eqb lang "unknown"); cbn [negb]; [reflexivity|].
  run. unfold assign, modify. cbn [vars env]. repeat f_equal.
  destruct (bool_decide _) eqn:Hin; [reflexivity|].
  apply bool_decide_eq_false in Hin.
  assert (ws_multilang_adaptive.remove_first lang (ws_multilang_adaptive.LANG_CANDIDATES x)
          = ws_multilang_adaptive.LANG_CANDIDATES x) as ->; [|reflexivity].
  induction (ws_multilang_adaptive.LANG_CANDIDATES x) as [|y l IH]; [reflexivity|].
  cbn [ws_multilang_adaptive.remove_first].
  destruct (String.eqb y lang) eqn:E.
  - apply String.eqb_eq in E. subst y. exfalso. apply Hin. apply list_elem_of_here.
  - f_equal. apply IH. intros H. apply Hin. now apply list_elem_of_further.
Qed.

Lemma remove_first_length (x : string) (l : list string) :
  (length (ws_multilang_adaptive.remove_first x l) <= length l)%nat
  /\ (x ∈ l -> S (length (ws_multilang_adaptive.remove_first x l)) = length l).
Proof.
  induction l as [|y l [IH1 IH2]]; [split; [reflexivity|intros H; inversion H]|].
  cbn [ws_multilang_adaptive.remove_first]. destruct (String.eqb y x) eqn:E.
  - cbn [length]. split; [lia|reflexivity].
  - cbn [length]. split; [lia|]. intros Hin. f_equal. apply IH2.
    apply elem_of_cons in Hin. destruct Hin as [->|Hin]; [|exact Hin].
    rewrite String.eqb_refl in E. discriminate.
Qed.

Lemma remove_first_sublist (x : string) (l : list string) :
  ws_multilang_adaptive.remove_first x l `sublist_of` l.
Proof.
  induction l as [|y l IH]; [constructor|].
  cbn [ws_multilang_adaptive.remove_first]. destruct (String.eqb y x).
  - now apply sublist_cons.
  - now apply sublist_skip.
Qed.

Lemma remove_first_NoDup (x : string) (l : list string) :
  NoDup l -> x ∉ ws_multilang_adaptive.remove_first x l.
Proof.
  induction 1 as [|y l Hy Hl IH]; [apply not_elem_of_nil|].
  cbn [ws_multilang_adaptive.remove_first]. destruct (String.eqb y x) eqn:E.
  - apply String.eqb_eq in E. now subst y.
  - apply String.eqb_neq in E. intros H.
    apply elem_of_cons in H. destruct H as [->|H]; [congruence|auto].
Qed.

(** The cache after [update_candidates], as a list. *)
Lemma candidates_take (lang : string) (l : list string) :
  (length l <= ws_multilang_adaptive.MAX_CANDIDATES)%nat ->
  (let l' := lang :: ws_multilang_adaptive.remove_first lang l in
   if (ws_multilang_adaptive.MAX_CANDIDATES <? length l')%nat then removelast l' else l')
  = take ws_multilang_adaptive.MAX_CANDIDATES
      (lang :: ws_multilang_adaptive.remove_first lang l).
Proof.
  intros Hlen. cbv zeta.
  pose proof (remove_first_length lang l) as [Hle _].
  set (l' := lang :: ws_multilang_adaptive.remove_first lang l).
  assert (length l' <= S ws_multilang_adaptive.MAX_CANDIDATES)%nat as Hl'
    by (subst l'; cbn [length]; lia).
  destruct (ws_multilang_adaptive.MAX_CANDIDATES <? length l')%nat eqn:Hc.
  - apply Nat.ltb_lt in Hc. rewrite removelast_firstn_len.
    replace (Init.Nat.pred (length l')) with ws_multilang_adaptive.MAX_CANDIDATES by lia.
    reflexivity.
  - apply Nat.ltb_ge in Hc. symmetry. apply take_ge. exact Hc.
Qed.

Lemma cache_ok_update (lang : string) (l : list string) :
  recordable lang = true ->
  cache_ok l ->
  cache_ok (take ws_multilang_adaptive.MAX_CANDIDATES
              (lang :: ws_multilang_adaptive.remove_first lang l)).
Proof.
  intros Hr (Hnd & Hlen & Hall).
  assert (NoDup (lang :: ws_multilang_adaptive.remove_first lang l)) as Hnd'.
  { apply NoDup_cons. split; [now apply remove_first_NoDup|].
    eapply sublist_NoDup; [exact Hnd|apply remove_first_sublist]. }
  repeat split.
  - eapply sublist_NoDup; [exact Hnd'|apply sublist_take].
  - rewrite length_take. lia.
  - apply Forall_take. constructor; [exact Hr|].
    rewrite Forall_forall in Hall |- *. intros y Hy. apply Hall.
    eapply elem_of_sublist; [exact Hy|apply remove_first_sublist].
Qed.

(** X16: [update_candidates] puts a language that it records in front of the
    others, which keep their order, and drops what falls off the end of a
    cache of [MAX_CANDIDATES]; the language is then the hint of the next
    utterance.  A tag that is empty or "unknown" changes nothing.  Nothing
    is raised and the environment is not touched. *)
Theorem update_candidates_most_recent_first
    (lang : string) (x : ws_multilang_adaptive.Session) (e : Env) :
  (length (ws_multilang_adaptive.LANG_CANDIDATES x)
   <= ws_multilang_adaptive.MAX_CANDIDATES)%nat ->
  let r := ws_multilang_adaptive.update_candidates lang {| vars := x; env := e |} in
  let l' := ws_multilang_adaptive.LANG_CANDIDATES (vars (snd r)) in
  fst r = Ok tt
  /\ env (snd r) = e
  /\ l' = (if recordable lang
           then take ws_multilang_adaptive.MAX_CANDIDATES
                  (lang :: ws_multilang_adaptive.remove_first lang
                             (ws_multilang_adaptive.LANG_CANDIDATES x))
           else ws_multilang_adaptive.LANG_CANDIDATES x)
  /\ fst (ws_multilang_adaptive.get_lang_hint (snd r))
     = Ok (if recordable lang then Some lang
           else head (ws_multilang_adaptive.LANG_CANDIDATES x)).
Proof.
  intros Hlen r l'. subst r l'. rewrite update_candidates_eq. cbn [fst snd vars env].
  destruct (recordable lang).
  - cbn [ws_multilang_adaptive.LANG_CANDIDATES ws_multilang_adaptive.set_LANG_CANDIDATES].
    rewrite candidates_take by exact Hlen.
    repeat split; reflexivity.
  - repeat split; reflexivity.
Qed.

(** X17: [update_candidates] keeps the cache in order: if it held at most
    [MAX_CANDIDATES] tags, each one once and none of them empty or
    "unknown", so it does afterwards, whatever the tag. *)
Theorem update_candidates_keeps_the_cache
    (lang : string) (x : ws_multilang_adaptive.Session) (e : Env) :
  cache_ok (ws_multilang_adaptive.LANG_CANDIDATES x) ->
  cache_ok (ws_multilang_adaptive.LANG_CANDIDATES
              (vars (snd (ws_multilang_adaptive.update_candidates lang
                            {| vars := x; env := e |})))).
Proof.
  intros Hok. rewrite update_candidates_eq. cbn [fst snd vars env].
  destruct (recordable lang) eqn:Hr; [|exact Hok].
  cbn [ws_multilang_adaptive.LANG_CANDIDATES ws_multilang_adaptive.set_LANG_CANDIDATES].
  rewrite candidates_take by apply Hok.
  apply cache_ok_update; assumption.
Qed.

(** ** The segmentation of ws_multilang_adaptive.py *)

Lemma translated_audio_app (tr1 tr2 : list Action) :
  translated_audio (tr1 ++ tr2) = translated_audio tr1 ++ translated_audio tr2.
Proof.
  induction tr1 as [|a tr1 IH]; [reflexivity|].
  destruct a as [| rq rs | | | | | | |]; cbn [app translated_audio]; try exact IH.
  destruct (endpoint rq); [exact IH|]. cbn [app]. now rewrite IH.
Qed.

Lemma written_app (tr1 tr2 : list Action) :
  written (tr1 ++ tr2) = written tr1 ++ written tr2.
Proof.
  induction tr1 as [|a tr1 IH]; [reflexivity|].
  destruct a; cbn [app written]; try exact IH. now rewrite IH.
Qed.

Lemma whisper_transcribe_with_hint_eq (pcm : bytes) (hint : option string) (e : Env) :
  ws_multilang_adaptive.whisper_transcribe_with_hint pcm hint e
  = (Ok (hinted_result (next_audio e (hinted_request pcm hint))),
     posted (PostAudio (hinted_request pcm hint) (next_audio e (hinted_request pcm hint))) e).
Proof.
  unfold ws_multilang_adaptive.whisper_transcribe_with_hint, hinted_result, bind,
    post_audio, next_audio. cbv zeta.
  fold (hinted_request pcm hint).
  destruct (negb (a_status _ =? 200)); reflexivity.
Qed.

Lemma multilang_whisper_translate_eq (pcm : bytes) (e : Env) :
  exists t,
    ws_multilang_adaptive.whisper_translate pcm e
    = (Ok t, posted (PostAudio (translate_audio_request pcm)
                       (next_audio e (translate_audio_request pcm))) e).
Proof.
  unfold ws_multilang_adaptive.whisper_translate, bind, post_audio, next_audio.
  destruct (negb (a_status _ =? 200)); eexists; reflexivity.
Qed.

Lemma handle_utterance_tail (lang text : string) (pcm : bytes)
    (x : ws_multilang_adaptive.Session) (e : Env) :
  exists (r : Res unit) (x' : ws_multilang_adaptive.Session) (e' : Env)
         (tr : list Action),
    (ws_multilang_adaptive.update_candidates lang ;;
     (when truthy (strip text)
      then io (send_json (ws_multilang_adaptive.ev_final_lang text lang))) ;;
     translated <- io (ws_multilang_adaptive.whisper_translate pcm) ;;
     match translated with
     | None => raise AttributeError
     | Some translated =>
         when truthy (strip translated)
         then io (send_json
                    (ws_multilang_adaptive.ev_final_translate_lang translated lang))
     end)
      {| vars := x; env := e |}
    = (r, {| vars := x'; env := e' |})
    /\ trace e' = trace e ++ tr
    /\ translated_audio tr = [pcm]
    /\ written tr = []
    /\ ws_multilang_adaptive.current_utt_audio x' = ws_multilang_adaptive.current_utt_audio x
    /\ ws_multilang_adaptive.last_voice_time x' = ws_multilang_adaptive.last_voice_time x
    /\ (cache_ok (ws_multilang_adaptive.LANG_CANDIDATES x) ->
        cache_ok (ws_multilang_adaptive.LANG_CANDIDATES x')).
Proof.
  erewrite bind_ok by apply update_candidates_eq.
  set (x1 := if recordable lang then _ else x).
  assert (ws_multilang_adaptive.current_utt_audio x1
          = ws_multilang_adaptive.current_utt_audio x
          /\ ws_multilang_adaptive.last_voice_time x1
             = ws_multilang_adaptive.last_voice_time x
          /\ (cache_ok (ws_multilang_adaptive.LANG_CANDIDATES x) ->
              cache_ok (ws_multilang_adaptive.LANG_CANDIDATES x1))) as (Hc & Hv & Hk).
  { subst x1. destruct (recordable lang) eqn:Hr; [|auto].
    split; [reflexivity|split; [reflexivity|]]. intros Hok.
    cbn [ws_multilang_adaptive.LANG_CANDIDATES ws_multilang_adaptive.set_LANG_CANDIDATES].
    rewrite candidates_take by apply Hok. now apply cache_ok_update. }
  clearbody x1.
  destruct (multilang_whisper_translate_eq pcm
              (if truthy (strip text)
               then logged (Send (ws_multilang_adaptive.ev_final_lang text lang)) e
               else e)) as [t Ht].
  destruct (truthy (strip text)); run;
    (erewrite run_io by exact Ht);
    (destruct t as [t|]; [destruct (truthy (strip t))|]; run; unfold ret, raise;
     eexists _, x1, _, _; (split; [reflexivity|]);
     cbn [trace logged posted]; rewrite <- ?app_assoc;
     (split; [reflexivity|]); cbn; auto).
Qed.

(** What an utterance leaves behind: requests that all carry its audio, one
    of them for the translation; the variables of the loop as they were;
    and a cache in order. *)
Lemma handle_utterance_spec (pcm : bytes) (x : ws_multilang_adaptive.Session) (e : Env) :
  exists (r : Res unit) (x' : ws_multilang_adaptive.Session) (e' : Env)
         (tr : list Action),
    ws_multilang_adaptive.handle_utterance pcm {| vars := x; env := e |}
    = (r, {| vars := x'; env := e' |})
    /\ trace e' = trace e ++ tr
    /\ translated_audio tr = [pcm]
    /\ written tr = []
    /\ ws_multilang_adaptive.current_utt_audio x' = ws_multilang_adaptive.current_utt_audio x
    /\ ws_multilang_adaptive.last_voice_time x' = ws_multilang_adaptive.last_voice_time x
    /\ (cache_ok (ws_multilang_adaptive.LANG_CANDIDATES x) ->
        cache_ok (ws_multilang_adaptive.LANG_CANDIDATES x')).
Proof.
  unfold ws_multilang_adaptive.handle_utterance, ws_multilang_adaptive.get_lang_hint.
  run.
  erewrite run_io by apply whisper_transcribe_with_hint_eq.
  set (hint := head (ws_multilang_adaptive.LANG_CANDIDATES x)).
  set (r1 := hinted_result (next_audio e (hinted_request pcm hint))).
  set (e1 := posted (PostAudio (hinted_request pcm hint)
                       (next_audio e (hinted_request pcm hint))) e).
  destruct (negb (truthy (strip r1.2))).
  - erewrite run_io by apply whisper_transcribe_with_hint_eq.
    destruct (hinted_result (next_audio e1 (hinted_request pcm None))) as [lang text].
    destruct (handle_utterance_tail lang text pcm x
                (posted (PostAudio (hinted_request pcm None)
                           (next_audio e1 (hinted_request pcm None))) e1))
      as (r & x' & e' & tr & Hrun & Htr & Ht & Hw & Hrest).
    exists r, x', e'. eexists. split; [exact Hrun|].
    split; [rewrite Htr; subst e1; cbn [trace posted]; rewrite <- !app_assoc; reflexivity|].
    cbn [app translated_audio written hinted_request endpoint]. auto.
  - run. destruct r1 as [lang text].
    destruct (handle_utterance_tail lang text pcm x e1)
      as (r & x' & e' & tr & Hrun & Htr & Ht & Hw & Hrest).
    exists r, x', e'. eexists. split; [exact Hrun|].
    split; [rewrite Htr; subst e1; cbn [trace posted]; rewrite <- !app_assoc; reflexivity|].
    cbn [app translated_audio written hinted_request endpoint]. auto.
Qed.

(** X22: an utterance in ws_multilang_adaptive.py, for audio that fits a WAV
    file.  [handle_utterance] asks for the transcription with the first
    candidate of the cache as the hint of the language; when the text that
    comes back is blank it asks again without a hint, and goes on with the
    second answer; it records the language in the cache; it sends [final]
    unless the text is blank; it asks for the translation of the audio,
    always and once; and it sends [final_translate] unless the translation
    is blank.  It returns, unless the translation comes back as the [null]
    of a 200 answer: then it ends on [AttributeError], after the request.
    Every request carries the audio of the utterance; with an empty cache
    the second request for the transcription is the first one again. *)
Theorem utterance_is_transcribed_again_without_hint
    (pcm : bytes) (x : ws_multilang_adaptive.Session) (e : Env) :
  fits_wav pcm ->
  let rq1 := hinted_request pcm (head (ws_multilang_adaptive.LANG_CANDIDATES x)) in
  let rs1 := next_audio e rq1 in
  let e1 := posted (PostAudio rq1 rs1) e in
  let blank := negb (truthy (strip (hinted_result rs1).2)) in
  let rq2 := hinted_request pcm None in
  let rs2 := next_audio e1 rq2 in
  let e2 := if blank then posted (PostAudio rq2 rs2) e1 else e1 in
  let r := if blank then hinted_result rs2 else hinted_result rs1 in
  let rq3 := translate_audio_request pcm in
  let rs3 := next_audio e2 rq3 in
  let s' := ws_multilang_adaptive.handle_utterance pcm {| vars := x; env := e |} in
  fst s' = match a_text rs3 with
           | Null => if a_status rs3 =? 200 then Raise AttributeError else Ok tt
           | _ => Ok tt
           end
  /\ trace (env (snd s'))
     = trace e
       ++ [PostAudio rq1 rs1]
       ++ (if blank then [PostAudio rq2 rs2] else [])
       ++ (if truthy (strip r.2)
           then [Send (ws_multilang_adaptive.ev_final_lang r.2 r.1)] else [])
       ++ [PostAudio rq3 rs3]
       ++ (if truthy (strip (transcript rs3))
           then [Send (ws_multilang_adaptive.ev_final_translate_lang (transcript rs3) r.1)]
           else [])
  /\ file rq1 = pcm /\ file rq2 = pcm /\ file rq3 = pcm
  /\ language rq2 = None
  /\ (ws_multilang_adaptive.LANG_CANDIDATES x = [] -> rq2 = rq1)
  /\ vars (snd s')
     = vars (snd (ws_multilang_adaptive.update_candidates r.1 {| vars := x; env := e |})).
Proof.
  intros _ rq1 rs1 e1 blank rq2 rs2 e2 r rq3 rs3 s'.
  assert (exists y e',
            s' = (match a_text rs3 with
                  | Null => if a_status rs3 =? 200 then Raise AttributeError else Ok tt
                  | _ => Ok tt
                  end, {| vars := y; env := e' |})
            /\ trace e'
               = trace e
                 ++ [PostAudio rq1 rs1]
                 ++ (if blank then [PostAudio rq2 rs2] else [])
                 ++ (if truthy (strip r.2)
                     then [Send (ws_multilang_adaptive.ev_final_lang r.2 r.1)] else [])
                 ++ [PostAudio rq3 rs3]
                 ++ (if truthy (strip (transcript rs3))
                     then [Send (ws_multilang_adaptive.ev_final_translate_lang
                                   (transcript rs3) r.1)]
                     else [])
            /\ y = vars (snd (ws_multilang_adaptive.update_candidates r.1
                                {| vars := x; env := e |})))
    as (y & e' & -> & Htr & Hy).
  2:{ cbn [fst snd vars env]. repeat split; try assumption.
      intros Hnil. subst rq2 rq1. now rewrite Hnil. }
  subst s'.
  unfold ws_multilang_adaptive.handle_utterance, ws_multilang_adaptive.get_lang_hint.
  run. erewrite run_io by apply whisper_transcribe_with_hint_eq.
  fold rq1. fold rs1. fold e1. fold blank.
  assert (forall k : string * string -> ws_multilang_adaptive.M unit,
             bind (if blank
                   then io (ws_multilang_adaptive.whisper_transcribe_with_hint pcm None)
                   else ret (hinted_result rs1)) k
                  {| vars := x; env := e1 |}
             = k r {| vars := x; env := e2 |}) as Hstep.
  { intros k. subst r e2. destruct blank; [|reflexivity].
    erewrite run_io by apply whisper_transcribe_with_hint_eq. reflexivity. }
  rewrite Hstep. clear Hstep.
  assert (trace e2 = trace e ++ [PostAudio rq1 rs1]
                     ++ (if blank then [PostAudio rq2 rs2] else [])) as He2.
  { subst e2 e1. destruct blank; cbn [trace posted]; rewrite <- ?app_assoc;
      [reflexivity|now rewrite app_nil_r]. }
  assert (requests (if truthy (strip r.2)
                    then logged (Send (ws_multilang_adaptive.ev_final_lang r.2 r.1)) e2
                    else e2) = requests e2) as Hreq
    by (destruct (truthy (strip r.2)); reflexivity).
  destruct r as [lang text]. cbv beta iota. cbn [fst snd] in *.
  erewrite bind_ok by apply update_candidates_eq.
  rewrite update_candidates_eq. cbn [snd vars].
  set (y := if recordable lang then _ else x).
  unfold ws_multilang_adaptive.whisper_translate.
  destruct (truthy (strip text)); run;
    unfold bind at 1, io at 1; cbn [env vars];
    unfold bind at 1, post_audio at 1; cbv beta iota zeta;
    fold rq3; cbn [world requests logged]; fold (next_audio e2 rq3); fold rs3;
    unfold transcript, text_or_empty;
    destruct (a_status rs3 =? 200); cbn [truthy strip lstrip rstrip String.eqb negb];
      unfold ret, raise; cbv beta iota;
      try (destruct (a_text rs3) as [| |t];
           cbn [truthy strip lstrip rstrip String.eqb negb]; cbv beta iota;
           try destruct (truthy (strip t)));
      run; unfold ret, raise;
      eexists; eexists; (split; [reflexivity|]);
      cbn [trace logged posted]; rewrite He2; rewrite <- ?app_assoc;
      cbn [app]; rewrite ?app_nil_r; (split; reflexivity).
Qed.

Ltac adaptive_session :=
  cbn beta iota delta [vars env ws_multilang_adaptive.current_utt_audio
         ws_multilang_adaptive.last_voice_time ws_multilang_adaptive.LANG_CANDIDATES
         ws_multilang_adaptive.set_current_utt_audio
         ws_multilang_adaptive.set_last_voice_time
         ws_multilang_adaptive.set_LANG_CANDIDATES].

Ltac adaptive_go := repeat (progress (run; adaptive_session)).

(** One chunk of the main loop of ws_multilang_adaptive.py: nothing of the
    audio is lost, the chunk goes to the recognizer, and the cache stays in
    order. *)
Lemma multilang_chunk_spec (chunk : bytes) (x : ws_multilang_adaptive.Session) (e : Env) :
  exists (res : Res unit) (x' : ws_multilang_adaptive.Session) (e' : Env),
    ws_multilang_adaptive.ws_multilang_adaptive_chunk chunk {| vars := x; env := e |}
    = (res, {| vars := x'; env := e' |})
    /\ concat (translated_audio (trace e')) ++ ws_multilang_adaptive.current_utt_audio x'
       = concat (translated_audio (trace e))
         ++ ws_multilang_adaptive.current_utt_audio x ++ chunk
    /\ written (trace e') = written (trace e) ++ [chunk]
    /\ (cache_ok (ws_multilang_adaptive.LANG_CANDIDATES x) ->
        cache_ok (ws_multilang_adaptive.LANG_CANDIDATES x')).
Proof.
  unfold ws_multilang_adaptive.ws_multilang_adaptive_chunk. adaptive_go.
  unfold bind at 1, of_res at 1.
  assert (forall tr, translated_audio (tr ++ [StreamWrite chunk]) = translated_audio tr) as Hta
    by (intros tr; rewrite translated_audio_app; apply app_nil_r).
  assert (forall tr, written (tr ++ [StreamWrite chunk]) = written tr ++ [chunk]) as Hwr
    by (intros tr; rewrite written_app; reflexivity).
  destruct (rms_energy chunk) as [energy|err].
  - adaptive_go.
    destruct (ws_multilang_adaptive.SILENCE_RMS <? energy)%float.
    + adaptive_go. eexists. eexists. eexists. split; [reflexivity|].
      cbn [trace ticked logged]. adaptive_session. rewrite Hta, Hwr. auto.
    + adaptive_go.
      destruct (_ && _).
      * adaptive_go. unfold spawn.
        destruct (handle_utterance_spec
                    (ws_multilang_adaptive.current_utt_audio x ++ chunk)
                    (ws_multilang_adaptive.set_last_voice_time None
                       (ws_multilang_adaptive.set_current_utt_audio []
                          (ws_multilang_adaptive.set_current_utt_audio
                             (ws_multilang_adaptive.current_utt_audio x ++ chunk) x)))
                    (ticked (logged (StreamWrite chunk) e)))
          as (r & x' & e' & tr & Hrun & Htr & Ht & Hw & Hc & Hv & Hk).
        rewrite Hrun. cbn [snd]. eexists. eexists. eexists. split; [reflexivity|].
        rewrite Htr. cbn [trace ticked logged].
        rewrite !translated_audio_app, !written_app, Ht, Hw, Hc.
        adaptive_session. fold (translated_audio (trace e ++ [StreamWrite chunk])).
        rewrite <- translated_audio_app, <- written_app, Hta, Hwr.
        rewrite concat_app. cbn [concat]. rewrite !app_nil_r.
        split; [reflexivity|]. split; [reflexivity|]. exact Hk.
      * unfold ret. eexists. eexists. eexists. split; [reflexivity|].
        cbn [trace ticked logged]. adaptive_session. rewrite Hta, Hwr. auto.
  - eexists. eexists. eexists. split; [reflexivity|].
    cbn [trace ticked logged]. adaptive_session. rewrite Hta, Hwr. auto.
Qed.

Lemma multilang_loop_spec (chunks : list bytes)
    (x : ws_multilang_adaptive.Session) (e : Env) :
  exists (res : Res unit) (x' : ws_multilang_adaptive.Session) (e' : Env) (k : nat),
    ws_multilang_adaptive.ws_multilang_adaptive_loop chunks {| vars := x; env := e |}
    = (res, {| vars := x'; env := e' |})
    /\ (res = Ok tt -> take k chunks = chunks)
    /\ concat (translated_audio (trace e')) ++ ws_multilang_adaptive.current_utt_audio x'
       = concat (translated_audio (trace e))
         ++ ws_multilang_adaptive.current_utt_audio x ++ concat (take k chunks)
    /\ written (trace e') = written (trace e) ++ take k chunks
    /\ (cache_ok (ws_multilang_adaptive.LANG_CANDIDATES x) ->
        cache_ok (ws_multilang_adaptive.LANG_CANDIDATES x')).
Proof.
  revert x e. induction chunks as [|chunk chunks IH]; intros x e.
  - exists (Ok tt), x, e, 0%nat. cbn. rewrite !app_nil_r. auto.
  - cbn [ws_multilang_adaptive.ws_multilang_adaptive_loop].
    destruct (multilang_chunk_spec chunk x e) as (res & x1 & e1 & Hrun & Ha & Hw & Hk).
    unfold bind at 1. rewrite Hrun. destruct res as [[]|err].
    + destruct (IH x1 e1) as (res & x' & e' & k & Hrun' & Hall & Ha' & Hw' & Hk').
      exists res, x', e', (S k). split; [exact Hrun'|].
      cbn [take concat]. split; [intros Hr; now rewrite (Hall Hr)|].
      rewrite Ha', Hw', Hw.
      rewrite (app_assoc (concat (translated_audio (trace e1)))), Ha, <- !app_assoc. auto.
    + exists (Raise err), x1, e1, 1%nat. split; [reflexivity|].
      cbn [take concat]. rewrite take_0. cbn [concat]. rewrite app_nil_r.
      split; [discriminate|]. auto.
Qed.

(** X19: the segmentation loses no audio and repeats none.  When the main loop
    of ws_multilang_adaptive.py has consumed its chunks, the audio of the
    utterances it has handed over for translation, in order, followed by
    the audio it still holds, is the audio received; and the recognizer was
    written every chunk, in order. *)
Theorem segmentation_conserves_the_audio
    (chunks : list bytes) (cache : list string) (w : World) :
  let r := ws_multilang_adaptive.ws_multilang_adaptive_loop chunks
             (adaptive_session_with cache w) in
  fst r = Ok tt ->
  concat (translated_audio (trace (env (snd r))))
    ++ ws_multilang_adaptive.current_utt_audio (vars (snd r))
  = concat chunks
  /\ written (trace (env (snd r))) = chunks.
Proof.
  intros r Hr. subst r. unfold adaptive_session_with in *.
  match goal with
  | |- context [ws_multilang_adaptive.ws_multilang_adaptive_loop chunks
                  {| vars := ?x; env := ?e |}] =>
      destruct (multilang_loop_spec chunks x e)
        as (res & x' & e' & k & Hrun & Hall & Ha & Hw & _)
  end.
  rewrite Hrun in Hr |- *. cbn [fst snd vars env] in *.
  rewrite Hall in Ha, Hw by exact Hr.
  rewrite Ha, Hw. split; reflexivity.
Qed.

(** X18: the cache of candidates stays in order over a whole session, however
    it ends: a cache of at most [MAX_CANDIDATES] tags, each one once, none
    empty or "unknown", is still one after any chunks and any answers. *)
Theorem session_keeps_the_cache
    (chunks : list bytes) (cache : list string) (w : World) :
  cache_ok cache ->
  cache_ok (ws_multilang_adaptive.LANG_CANDIDATES
              (vars (snd (ws_multilang_adaptive.ws_multilang_adaptive_loop chunks
                            (adaptive_session_with cache w))))).
Proof.
  intros Hok. unfold adaptive_session_with.
  match goal with
  | |- context [ws_multilang_adaptive.ws_multilang_adaptive_loop chunks
                  {| vars := ?x; env := ?e |}] =>
      destruct (multilang_loop_spec chunks x e)
        as (res & x' & e' & k & Hrun & _ & _ & _ & Hk)
  end.
  rewrite Hrun. cbn [snd vars]. apply Hk. exact Hok.
Qed.

Lemma multilang_chunk_unvoiced (chunk : bytes)
    (audio : bytes) (cache : list string) (e : Env) :
  unvoiced chunk = true ->
  ws_multilang_adaptive.ws_multilang_adaptive_chunk chunk
    {| vars := {| ws_multilang_adaptive.current_utt_audio := audio;
                  ws_multilang_adaptive.last_voice_time := None;
                  ws_multilang_adaptive.LANG_CANDIDATES := cache |};
       env := e |}
  = (Ok tt,
     {| vars := {| ws_multilang_adaptive.current_utt_audio := audio ++ chunk;
                   ws_multilang_adaptive.last_voice_time := None;
                   ws_multilang_adaptive.LANG_CANDIDATES := cache |};
        env := ticked (logged (StreamWrite chunk) e) |}).
Proof.
  intros Hu. unfold unvoiced in Hu.
  unfold ws_multilang_adaptive.ws_multilang_adaptive_chunk. adaptive_go.
  unfold bind at 1, of_res at 1.
  destruct (rms_energy chunk) as [energy|]; [|discriminate].
  apply negb_true_iff in Hu. adaptive_go. rewrite Hu. adaptive_go.
  reflexivity.
Qed.

Lemma multilang_loop_unvoiced (chunks : list bytes)
    (audio : bytes) (cache : list string) (e : Env) :
  Forall (fun c => unvoiced c = true) chunks ->
  ws_multilang_adaptive.ws_multilang_adaptive_loop chunks
    {| vars := {| ws_multilang_adaptive.current_utt_audio := audio;
                  ws_multilang_adaptive.last_voice_time := None;
                  ws_multilang_adaptive.LANG_CANDIDATES := cache |};
       env := e |}
  = (Ok tt,
     {| vars := {| ws_multilang_adaptive.current_utt_audio := audio ++ concat chunks;
                   ws_multilang_adaptive.last_voice_time := None;
                   ws_multilang_adaptive.LANG_CANDIDATES := cache |};
        env := {| world := world e; requests := requests e;
                  clock_reads := clock_reads e + length chunks;
                  trace := trace e ++ map StreamWrite chunks |} |}).
Proof.
  revert audio e. induction chunks as [|chunk chunks IH]; intros audio e Hall.
  - cbn [ws_multilang_adaptive.ws_multilang_adaptive_loop concat map length].
    rewrite !app_nil_r, Nat.add_0_r. destruct e; reflexivity.
  - inversion Hall as [|? ? Hc Hrest]; subst.
    cbn [ws_multilang_adaptive.ws_multilang_adaptive_loop].
    erewrite bind_ok by (apply multilang_chunk_unvoiced; exact Hc).
    rewrite IH by exact Hrest.
    unfold ticked, logged. cbn [world requests clock_reads trace concat map length].
    rewrite <- !app_assoc. cbn [app].
    replace (S (clock_reads e) + length chunks)%nat
      with (clock_reads e + S (length chunks))%nat by lia.
    reflexivity.
Qed.

(** X20: before the first voiced chunk nothing is segmented.  On chunks whose
    energy is not above the threshold, a session of
    ws_multilang_adaptive.py that has heard no voice yet writes every chunk
    to the recognizer, reads the clock once per chunk, keeps all the audio
    as the utterance in progress, and asks the transcription service
    nothing. *)
Theorem leading_silence_is_never_segmented
    (chunks : list bytes) (cache : list string) (w : World) :
  Forall (fun c => unvoiced c = true) chunks ->
  ws_multilang_adaptive.ws_multilang_adaptive_loop chunks (adaptive_session_with cache w)
  = (Ok tt,
     {| vars := {| ws_multilang_adaptive.current_utt_audio := concat chunks;
                   ws_multilang_adaptive.last_voice_time := None;
                   ws_multilang_adaptive.LANG_CANDIDATES := cache |};
        env := {| world := w; requests := 0; clock_reads := length chunks;
                  trace := map StreamWrite chunks |} |}).
Proof.
  intros Hall. unfold adaptive_session_with.
  rewrite multilang_loop_unvoiced by exact Hall. reflexivity.
Qed.

(** ** The fixed-language session *)

Lemma LANG_MAP_values (lang azure_lang : string) :
  LANG_MAP !! lang = Some azure_lang -> truthy azure_lang = true.
Proof.
  intros H. destruct azure_lang; [|reflexivity]. exfalso.
  revert H. 
  assert (map_Forall (fun _ v => v <> "") LANG_MAP) as Hall.
  { unfold LANG_MAP. apply map_Forall_to_list. vm_compute.
    repeat constructor; discriminate. }
  intros H. exact (Hall _ _ H eq_refl).
Qed.

Lemma fixed_language_eq (query : gmap string (list string)) (first : string)
    (rest : list string) :
  default ["en"] (query !! "lang") = first :: rest ->
  fixed_language query
  = Ok (if in_LANG_MAP (lower first)
        then (lower first, LANG_MAP_get (lower first))
        else ("en", "en-US")).
Proof.
  intros H. unfold fixed_language, in_LANG_MAP, LANG_MAP_get. rewrite H. cbv zeta.
  destruct (LANG_MAP !! lower first) as [azure_lang|] eqn:Hl.
  - rewrite (LANG_MAP_values _ _ Hl). reflexivity.
  - reflexivity.
Qed.

(** X12: ws_fixed.py opens every session in a language of its table.  Whatever
    the query string asks for, in whatever case, the [lang_locked] event
    names a key of [LANG_MAP] and the recognizer is started with the code
    of that key: the language asked for if its lower case is a key, "en"
    with en-US otherwise, and also when the query has no [lang]. *)
Theorem ws_fixed_opens_in_a_language_of_the_table
    (query : gmap string (list string)) (first : string) (rest : list string) (e : Env) :
  default ["en"] (query !! "lang") = first :: rest ->
  exists lang azure_lang : string,
    ws_fixed_open query e
    = (Ok tt,
       {| world := world e; requests := requests e; clock_reads := clock_reads e;
          trace := trace e ++ [Send (ev_lang_locked lang); RecognizerStart azure_lang] |})
    /\ LANG_MAP !! lang = Some azure_lang
    /\ (if in_LANG_MAP (lower first) then lang = lower first else lang = "en")
    /\ (query !! "lang" = None -> lang = "en" /\ azure_lang = "en-US").
Proof.
  intros H. unfold ws_fixed_open. rewrite (fixed_language_eq _ _ _ H).
  unfold in_LANG_MAP, LANG_MAP_get.
  destruct (LANG_MAP !! lower first) as [azure_lang|] eqn:Hl.
  - exists (lower first), azure_lang.
    split; [cbn; unfold act, modify, logged; cbn [world requests clock_reads trace];
            rewrite <- app_assoc; reflexivity|].
    split; [exact Hl|]. split; [reflexivity|].
    intros Hq. rewrite Hq in H. cbn in H. injection H as <- <-.
    vm_compute in Hl. injection Hl as <-. split; reflexivity.
  - exists "en", "en-US".
    split; [cbn; unfold act, modify, logged; cbn [world requests clock_reads trace];
            rewrite <- app_assoc; reflexivity|].
    split; [reflexivity|]. split; [reflexivity|].
    intros _. split; reflexivity.
Qed.

(** X13: the [azure_translate] of ws_fixed.py fails closed.  It never raises;
    it asks the translator once, and not at all for a blank text; what it
    returns is the first translation of the first item of a 200 answer,
    and the empty string in every other case: a blank text, a status that
    is not 200, an error object, no item, an item without translation. *)
Theorem fixed_azure_translate_fails_closed (text target : string) (e : Env) :
  let rs := next_translation e text target in
  ws_fixed.azure_translate text target e
  = (Ok (if truthy (strip text) then
           if t_status rs =? 200 then
             match t_body rs with
             | TItems ((t :: _) :: _) => t
             | _ => ""
             end
           else ""
         else ""),
     if truthy (strip text) then posted (PostTranslate text target rs) e else e).
Proof.
  intros rs. destruct (truthy (strip text)) eqn:Ht.
  - rewrite fixed_azure_translate_eq by exact Ht. fold rs.
    unfold fixed_translation, first_translation.
    destruct (t_status rs =? 200); cbn [negb]; [|reflexivity].
    destruct (t_body rs) as [[|[|t ?] ?]|]; reflexivity.
  - unfold ws_fixed.azure_translate. rewrite Ht. cbn [negb].
    now rewrite orb_true_r.
Qed.

(** *** The delayed translations *)

Lemma alter_task_follows (f : ws_fixed.Task -> ws_fixed.Task) (i : nat)
    (l : list ws_fixed.Task) :
  (forall t, task_follows (f t) t) ->
  Forall2 task_follows (alter f i l) l.
Proof.
  intros Hf. revert i. induction l as [|t l IH]; intros i; [constructor|].
  destruct i as [|i]; cbn [alter list_alter].
  - constructor; [apply Hf|]. apply Forall2_same_length_lookup_2; [reflexivity|].
    intros j a b Ha Hb. assert (a = b) as -> by congruence. split; auto.
  - constructor; [split; auto|apply IH].
Qed.

Lemma task_follows_trans (l1 l2 l3 : list ws_fixed.Task) :
  Forall2 task_follows l1 l2 -> Forall2 task_follows l2 l3 -> Forall2 task_follows l1 l3.
Proof.
  intros H12 H23. eapply Forall2_trans; [|exact H12|exact H23].
  intros a b c [Ha1 Ha2] [Hb1 Hb2]. split; [congruence|auto].
Qed.

Lemma task_follows_refl (l : list ws_fixed.Task) : Forall2 task_follows l l.
Proof. apply Forall_Forall2_diag, Forall_forall. intros t _. split; auto. Qed.

Lemma fixed_send_mid_translate_vars (text : string) (s : State ws_fixed.Session) :
  vars (spawn (ws_fixed.send_mid_translate text) s) = vars s.
Proof.
  unfold spawn, ws_fixed.send_mid_translate.
  destruct (negb (truthy (strip text))); [reflexivity|].
  unfold bind, io. destruct (ws_fixed.azure_translate _ _ _) as [[t|err] e']; [|reflexivity].
  destruct (truthy t); [|reflexivity].
  cbn [env vars]. destruct (send_json _ e'). reflexivity.
Qed.

Lemma fixed_send_final_vars (text : string) (s : State ws_fixed.Session) :
  vars (spawn (ws_fixed.send_final text) s) = vars s.
Proof.
  unfold spawn, ws_fixed.send_final. destruct s as [x e]. run.
  unfold bind at 1, io at 1. cbn [env vars].
  destruct (ws_fixed.azure_translate _ _ _) as [[t|err] e']; [|reflexivity].
  destruct (truthy t); run; reflexivity.
Qed.

Lemma run_due_from_spec (now : float) (ts : list ws_fixed.Task) (i : nat)
    (x : ws_fixed.Session) (e : Env) :
  exists (x' : ws_fixed.Session) (e' : Env),
    ws_fixed.run_due_from now i ts {| vars := x; env := e |}
    = (Ok tt, {| vars := x'; env := e' |})
    /\ ws_fixed.last_partial_text x' = ws_fixed.last_partial_text x
    /\ ws_fixed.translate_task x' = ws_fixed.translate_task x
    /\ Forall2 task_follows (ws_fixed.tasks x') (ws_fixed.tasks x).
Proof.
  revert i x e. induction ts as [|t ts IH]; intros i x e.
  - exists x, e. repeat split; auto using task_follows_refl.
  - cbn [ws_fixed.run_due_from].
    destruct (ws_fixed.status t); run;
      try (destruct (IH (S i) x e) as (x' & e' & Hrun & Hrest);
           exists x', e'; split; [exact Hrun|exact Hrest]).
    destruct (ws_fixed.wake_at t <=? now)%float; run.
    + unfold bind at 1.
      match goal with
      | |- context [spawn (ws_fixed.send_mid_translate ?text) ?s] =>
          pose proof (fixed_send_mid_translate_vars text s) as Hv;
          destruct (spawn (ws_fixed.send_mid_translate text) s) as [x1 e1]
      end.
      cbn [vars] in Hv. subst x1.
      destruct (IH (S i) (ws_fixed.set_tasks
                            (alter (ws_fixed.set_status ws_fixed.Finished) i
                               (ws_fixed.tasks x)) x) e1)
        as (x' & e' & Hrun & Hl & Ht & Hf).
      exists x', e'. split; [exact Hrun|]. split; [exact Hl|]. split; [exact Ht|].
      eapply task_follows_trans; [exact Hf|].
      cbn [ws_fixed.tasks ws_fixed.set_tasks].
      apply alter_task_follows. intros t0. split; [reflexivity|discriminate].
    + destruct (IH (S i) x e) as (x' & e' & Hrun & Hrest).
      exists x', e'. split; [exact Hrun|exact Hrest].
Qed.

Lemma debounced_follows (x x' : ws_fixed.Session) :
  debounced x ->
  ws_fixed.last_partial_text x' = ws_fixed.last_partial_text x ->
  ws_fixed.translate_task x' = ws_fixed.translate_task x ->
  Forall2 task_follows (ws_fixed.tasks x') (ws_fixed.tasks x) ->
  debounced x'.
Proof.
  intros [H1 H2] Hl Ht Hf. pose proof (Forall2_length _ _ _ Hf) as Hlen.
  split; [rewrite Ht, Hlen; exact H1|].
  intros i t' Hi Hs.
  destruct (Forall2_lookup_l _ _ _ _ _ Hf Hi) as (t & Hi' & Htext & Hstat).
  destruct (H2 i t Hi' (Hstat Hs)) as [Hlast Htx].
  split; congruence.
Qed.

Lemma cancel_not_sleeping (t : ws_fixed.Task) :
  ws_fixed.status (ws_fixed.cancel t) <> ws_fixed.Sleeping.
Proof.
  unfold ws_fixed.cancel. destruct (ws_fixed.status t) eqn:E; cbn; congruence.
Qed.

Lemma debounced_on_recognizing (now : float) (text : string)
    (x : ws_fixed.Session) (e : Env) :
  debounced x ->
  debounced (vars (snd (ws_fixed.on_recognizing now text {| vars := x; env := e |}))).
Proof.
  intros Hd. destruct (truthy text) eqn:Ht.
  2:{ unfold ws_fixed.on_recognizing. rewrite Ht. exact Hd. }
  destruct (String.eqb text (ws_fixed.last_partial_text x)) eqn:Heq.
  { unfold ws_fixed.on_recognizing. rewrite Ht. cbn [negb].
    unfold bind at 1. unfold spawn, ws_fixed.send_partial. rewrite end_send. cbn [snd].
    fixed_go. rewrite Heq. exact Hd. }
  apply String.eqb_neq in Heq.
  rewrite on_recognizing_spec by assumption. cbn [snd vars].
  destruct Hd as [H1 H2].
  set (old := match ws_fixed.translate_task x with
              | Some i => alter ws_fixed.cancel i (ws_fixed.tasks x)
              | None => ws_fixed.tasks x
              end).
  assert (length old = length (ws_fixed.tasks x)) as Hlen
    by (subst old; destruct (ws_fixed.translate_task x); [apply length_alter|reflexivity]).
  assert (forall j t, old !! j = Some t -> ws_fixed.status t <> ws_fixed.Sleeping) as Hold.
  { intros j t Hj Hs. subst old.
    destruct (ws_fixed.translate_task x) as [i|] eqn:Hi.
    - destruct (decide (i = j)) as [->|Hne].
      + rewrite list_lookup_alter_eq in Hj.
        destruct (ws_fixed.tasks x !! j) as [t0|]; [|discriminate].
        cbn in Hj. injection Hj as <-. exact (cancel_not_sleeping t0 Hs).
      + rewrite list_lookup_alter_ne in Hj by exact Hne.
        destruct (H2 j t Hj Hs) as [Hlast _].
        rewrite <- Hlast in H1. injection H1 as ->. congruence.
    - destruct (H2 j t Hj Hs) as [Hlast _].
      rewrite <- Hlast in H1. discriminate. }
  split.
  - fixed_session. rewrite length_app, Hlen. cbn [length].
    rewrite Nat.add_1_r. reflexivity.
  - fixed_session. intros j t Hj Hs.
    apply lookup_app_Some in Hj. destruct Hj as [Hj1|[Hge Hj2]].
    + exfalso. exact (Hold j t Hj1 Hs).
    + rewrite length_app. cbn [length].
      destruct (j - length old)%nat as [|n] eqn:Hn; [|discriminate].
      cbn in Hj2. injection Hj2 as <-. cbn. split; [lia|reflexivity].
Qed.

Lemma debounced_run_due (now : float) (x : ws_fixed.Session) (e : Env) :
  debounced x ->
  exists (x' : ws_fixed.Session) (e' : Env),
    ws_fixed.run_due now {| vars := x; env := e |} = (Ok tt, {| vars := x'; env := e' |})
    /\ debounced x'.
Proof.
  intros Hd. unfold ws_fixed.run_due. run.
  destruct (run_due_from_spec now (ws_fixed.tasks x) 0 x e)
    as (x' & e' & Hrun & Hl & Ht & Hf).
  exists x', e'. split; [exact Hrun|]. eapply debounced_follows; eauto.
Qed.

Lemma debounced_handle (i : ws_fixed.Input) (x : ws_fixed.Session) (e : Env) :
  debounced x ->
  exists (x' : ws_fixed.Session) (e' : Env),
    ws_fixed.handle i {| vars := x; env := e |} = (Ok tt, {| vars := x'; env := e' |})
    /\ debounced x'.
Proof.
  intros Hd. destruct i as [now text|now text]; cbn [ws_fixed.handle];
    destruct (debounced_run_due now x e Hd) as (x1 & e1 & Hrun & Hd1);
    (erewrite bind_ok by exact Hrun).
  - pose proof (debounced_on_recognizing now text x1 e1 Hd1) as Hd2.
    assert (fst (ws_fixed.on_recognizing now text {| vars := x1; env := e1 |}) = Ok tt) as Hok.
    { unfold ws_fixed.on_recognizing.
      destruct (negb (truthy text)); [reflexivity|].
      unfold bind at 1. unfold spawn, ws_fixed.send_partial. rewrite end_send. cbn [snd].
      fixed_go. destruct (String.eqb _ _); [reflexivity|].
      fixed_go. destruct (ws_fixed.translate_task x1); fixed_go; reflexivity. }
    destruct (ws_fixed.on_recognizing now text _) as [r [x2 e2]].
    cbn [fst snd vars] in *. subst r. eauto.
  - unfold ws_fixed.on_recognized. destruct (truthy text).
    + pose proof (fixed_send_final_vars text {| vars := x1; env := e1 |}) as Hv.
      destruct (spawn (ws_fixed.send_final text) _) as [x2 e2].
      cbn [vars] in Hv. subst x2. eauto.
    + unfold ret. eauto.
Qed.

(** X14: the debounce of ws_fixed.py, over any callbacks at any times and
    whatever the translator answers: at most one delayed translation is
    pending.  Only the newest task can be asleep; it is the task that
    [translate_task] refers to, and the text it will translate is the
    latest partial text. *)
Theorem at_most_one_translation_is_pending
    (inputs : list ws_fixed.Input) (w : World) :
  fst (ws_fixed.callbacks inputs (ws_fixed.initial w)) = Ok tt
  /\ debounced (vars (snd (ws_fixed.callbacks inputs (ws_fixed.initial w)))).
Proof.
  assert (debounced (vars (ws_fixed.initial w))) as Hd
    by (split; [reflexivity|intros i t Hi; destruct i; discriminate]).
  destruct (ws_fixed.initial w) as [x e]. cbn [vars] in Hd.
  revert x e Hd. induction inputs as [|i inputs IH]; intros x e Hd.
  - split; [reflexivity|exact Hd].
  - cbn [ws_fixed.callbacks].
    destruct (debounced_handle i x e Hd) as (x1 & e1 & Hrun & Hd1).
    erewrite bind_ok by exact Hrun. apply IH. exact Hd1.
Qed.

(** ** The first provisional language *)

(** A time that has reached [MAX_DETECT_SEC] has reached [MIN_DETECT_SEC]. *)
Lemma max_detect_sec_is_past_min (d : float) :
  (MAX_DETECT_SEC <=? d)%float = true -> (MIN_DETECT_SEC <=? d)%float = true.
Proof.
  rewrite !leb_spec. unfold SFleb.
  replace (Prim2SF MAX_DETECT_SEC) with (S754_finite false 4503599627370496 (-49))
    by (vm_compute; reflexivity).
  replace (Prim2SF MIN_DETECT_SEC) with (S754_finite false 7205759403792794 (-53))
    by (vm_compute; reflexivity).
  destruct (Prim2SF d) as [s|s| |s m ex]; cbn [SFcompare]; try discriminate.
  - destruct s; [discriminate|reflexivity].
  - destruct s; [discriminate|].
    destruct (Z.compare_spec (-49) ex) as [Heq|Hlt|Hgt].
    + subst ex. intros _. reflexivity.
    + intros _. destruct (Z.compare_spec (-53) ex); try lia; reflexivity.
    + discriminate.
Qed.

(** X5: a session of main.py takes its first provisional language from the
    detector, and from nowhere else.  A chunk that arrives while there is
    no provisional language either leaves the session without one, and
    then nothing was requested or sent; or it gives the session one, and
    then the detector was asked, on the whole detection sample, and the
    language is its answer if that is a key of [LANG_MAP] and "english" if
    not.  The cap of [MAX_DETECT_SEC] never decides by itself: a time that
    has reached it has reached [MIN_DETECT_SEC], where the detector is
    asked and always yields a language. *)
Theorem provisional_language_comes_from_the_detector
    (chunk : bytes) (x : Session) (e : Env) :
  provisional_lang x = None ->
  let s' := snd (ws_asr_chunk chunk {| vars := x; env := e |}) in
  match provisional_lang (vars s') with
  | None => trace (env s') = trace e
  | Some l =>
      exists (rs : AudioResponse) (rest : list Action),
        trace (env s')
        = trace e ++ PostAudio (detect_request (detect_buffer x ++ chunk)) rs :: rest
        /\ l = (if in_LANG_MAP (detected_language rs)
                then detected_language rs else "english")
  end.
Proof.
  intros Hp s'.
  assert (exists r x' e',
             ws_asr_chunk chunk {| vars := x; env := e |}
             = (r, {| vars := x'; env := e' |})
             /\ match provisional_lang x' with
                | None => trace e' = trace e
                | Some l =>
                    exists (rs : AudioResponse) (rest : list Action),
                      trace e'
                      = trace e
                        ++ PostAudio (detect_request (detect_buffer x ++ chunk)) rs :: rest
                      /\ l = (if in_LANG_MAP (detected_language rs)
                              then detected_language rs else "english")
                end) as (r & x' & e' & Hrun & H);
    [|subst s'; rewrite Hrun; exact H].
  clear s'. destruct x as [db cu pl lk rc ps fs lt ltt lte uh].
  cbn [provisional_lang] in Hp. subst pl.
  unfold ws_asr_chunk. go.
  unfold bind at 1, of_res at 1.
  destruct (rms_energy chunk) as [energy|err] eqn:Hr;
    [|eexists; eexists; eexists; split; reflexivity].
  destruct (energy <? SILENCE_RMS_THRESHOLD)%float eqn:Hq;
    [eexists; eexists; eexists; split; reflexivity|].
  pose proof (voiced_chunk_not_empty _ _ Hr Hq) as Hne.
  assert (db ++ chunk <> []) as Hsample
    by (intros H; apply app_eq_nil in H; destruct H; contradiction).
  go.
  set (e1 := match fs with Some _ => e | None => ticked e end).
  set (t0 := match fs with
             | Some t => t
             | None => perf_counter_at (world e) (clock_reads e)
             end).
  assert (trace e1 = trace e) as He1 by (subst e1; destruct fs; reflexivity).
  destruct fs as [t|]; go; fold e1; fold t0.
  all: destruct (MIN_DETECT_SEC <=? _)%float eqn:Hmin;
    rewrite ?bool_decide_eq_true_2 by reflexivity; cbn [andb]; go.
  1, 3: (erewrite run_io by apply whisper_detect_eq); go;
    rewrite bool_decide_eq_false_2 by discriminate;
    rewrite andb_false_r; go;
    match goal with
    | |- context [set_provisional_lang (Some ?l) _] =>
        assert (truthy l = true) as ->
          by (destruct (in_LANG_MAP (detection_result _ _)) eqn:Hin;
              [apply in_LANG_MAP_truthy; exact Hin|reflexivity])
    end;
    unfold start_azure; go;
    rewrite bool_decide_eq_false_2 by exact Hsample; cbn [negb andb]; go;
    eexists; eexists; eexists; (split; [reflexivity|]);
    cbn [provisional_lang trace logged];
    rewrite (after_detect_trace _ _ Hsample); cbn [trace ticked]; rewrite He1;
    eexists; eexists; (split; [rewrite <- !app_assoc; reflexivity|]);
    destruct (db ++ chunk); [congruence|reflexivity].
  all: destruct (MAX_DETECT_SEC <=? _)%float eqn:Hmax;
    [apply max_detect_sec_is_past_min in Hmax; congruence|];
    cbn [andb]; go; unfold ret; eexists; eexists; eexists; (split; [reflexivity|]);
    cbn [provisional_lang trace ticked]; exact He1.
Qed.

(** ** A final result without words *)

(** X9: the recognizer also reports final results whose text is empty or
    blank, and [on_final] of main.py takes them like any utterance.  It
    sends the [final] event with that text and a [final_translate] event
    with an empty translation, without asking the translator or the
    embedding service; it records the utterance in the history; it puts the
    empty string in the place of the last translation, the embedding and
    the time of the merge context staying what they were; and it goes on to
    the verification of the language on the audio. *)
Theorem blank_final_is_taken_as_an_utterance (text : string) (x : Session) (e : Env) :
  truthy (strip text) = false ->
  on_final text {| vars := x; env := e |}
  = (detected <- io (whisper_detect (current_utt_audio x)) ;;
     on_final_verify detected)
      {| vars := set_last_translation_text (Some "")
                   (set_utterance_history
                      (utterance_history x ++ [history_entry x text (Some "")]) x);
         env := logged (Send (ev_final_translate "" (negb (lang_locked x)) false))
                  (ticked (logged (Send (ev_final text)) e)) |}.
Proof.
  intros Hb. rewrite on_final_eq. cbv zeta.
  unfold translation_result, after_translate. rewrite Hb. cbn [negb].
  unfold on_final_translate. run. rewrite run_try_embed. run.
  unfold obtained_embedding. cbn [truthy String.eqb negb].
  destruct x as [db cu pl lk rc ps fs lt ltt lte uh]. go.
  destruct lte, ltt; go; reflexivity.
Qed.

(** ** The protocol of ws_fixed.py *)

Lemma fixed_adds_ret {A} (a : A) : fixed_adds (ret a).
Proof. intros s. exists []. split; [cbn; now rewrite app_nil_r|constructor]. Qed.

Lemma fixed_adds_get {A} (f : ws_fixed.Session -> A) : fixed_adds (get f).
Proof. intros s. exists []. split; [cbn; now rewrite app_nil_r|constructor]. Qed.

Lemma fixed_adds_assign (f : ws_fixed.Session -> ws_fixed.Session) :
  fixed_adds (assign f).
Proof. intros s. exists []. split; [cbn; now rewrite app_nil_r|constructor]. Qed.

Lemma fixed_adds_bind {A B} (m : ws_fixed.M A) (k : A -> ws_fixed.M B) :
  fixed_adds m -> (forall a, fixed_adds (k a)) -> fixed_adds (bind m k).
Proof.
  intros Hm Hk s. unfold bind. destruct (Hm s) as (tr1 & Ht1 & Hf1).
  destruct (m s) as [[a|err] s1]; cbn [snd] in *; [|eauto].
  destruct (Hk a s1) as (tr2 & Ht2 & Hf2).
  exists (tr1 ++ tr2). split; [now rewrite Ht2, Ht1, app_assoc|].
  apply Forall_app. split; assumption.
Qed.

Lemma fixed_adds_spawn (m : ws_fixed.M unit) :
  fixed_adds m -> fixed_adds (fun s => (Ok tt, spawn m s)).
Proof. intros Hm s. exact (Hm s). Qed.

Lemma fixed_adds_send (ev : Event) :
  fixed_action (Send ev) -> fixed_adds (io (send_json ev)).
Proof.
  intros Hev [x e]. exists [Send ev]. split; [reflexivity|]. repeat constructor. exact Hev.
Qed.

Lemma fixed_adds_azure_translate (text : string) :
  fixed_adds (io (ws_fixed.azure_translate text TARGET_LANG)).
Proof.
  intros [x e]. unfold io. cbn [env vars].
  destruct (truthy (strip text)) eqn:Ht.
  - rewrite fixed_azure_translate_eq by exact Ht. cbn [snd env].
    eexists. split; [reflexivity|]. repeat constructor. exact Ht.
  - unfold ws_fixed.azure_translate. rewrite Ht. cbn [negb]. rewrite orb_true_r.
    exists []. split; [cbn; now rewrite app_nil_r|constructor].
Qed.

Lemma fixed_adds_send_mid_translate (text : string) :
  fixed_adds (ws_fixed.send_mid_translate text).
Proof.
  unfold ws_fixed.send_mid_translate.
  destruct (negb (truthy (strip text))); [apply fixed_adds_ret|].
  apply fixed_adds_bind; [apply fixed_adds_azure_translate|intros trans].
  destruct (truthy trans) eqn:Ht; [|apply fixed_adds_ret].
  apply fixed_adds_send. constructor.
Qed.

Lemma fixed_adds_send_final (text : string) :
  truthy text = true -> fixed_adds (ws_fixed.send_final text).
Proof.
  intros Ht. unfold ws_fixed.send_final.
  apply fixed_adds_bind; [apply fixed_adds_send; now constructor|intros _].
  apply fixed_adds_bind; [apply fixed_adds_azure_translate|intros trans].
  apply fixed_adds_bind; [|intros _; apply fixed_adds_send; constructor].
  destruct (truthy trans) eqn:Htr; [|apply fixed_adds_ret].
  apply fixed_adds_send. now constructor.
Qed.

Lemma fixed_adds_on_recognizing (now : float) (text : string) :
  fixed_adds (ws_fixed.on_recognizing now text).
Proof.
  unfold ws_fixed.on_recognizing.
  destruct (negb (truthy text)) eqn:Ht; [apply fixed_adds_ret|].
  apply negb_false_iff in Ht.
  apply fixed_adds_bind;
    [apply fixed_adds_spawn, fixed_adds_send; now constructor|intros _].
  apply fixed_adds_bind; [apply fixed_adds_get|intros last].
  destruct (String.eqb text last); [apply fixed_adds_ret|].
  repeat first
    [ apply fixed_adds_assign
    | apply fixed_adds_get
    | apply fixed_adds_ret
    | apply fixed_adds_bind; [|intros ?]
    | match goal with |- fixed_adds (match ?t with _ => _ end) => destruct t end ].
Qed.

Lemma fixed_adds_run_due_from (now : float) (ts : list ws_fixed.Task) (i : nat) :
  fixed_adds (ws_fixed.run_due_from now i ts).
Proof.
  revert i. induction ts as [|t ts IH]; intros i; cbn [ws_fixed.run_due_from].
  - apply fixed_adds_ret.
  - apply fixed_adds_bind; [|intros _; apply IH].
    destruct (ws_fixed.status t); try apply fixed_adds_ret.
    destruct (ws_fixed.wake_at t <=? now)%float; [|apply fixed_adds_ret].
    apply fixed_adds_bind; [apply fixed_adds_assign|intros _].
    apply fixed_adds_spawn, fixed_adds_send_mid_translate.
Qed.

Lemma fixed_adds_run_due (now : float) : fixed_adds (ws_fixed.run_due now).
Proof.
  unfold ws_fixed.run_due.
  apply fixed_adds_bind; [apply fixed_adds_get|intros ts].
  apply fixed_adds_run_due_from.
Qed.

Lemma fixed_adds_callbacks (inputs : list ws_fixed.Input) :
  fixed_adds (ws_fixed.callbacks inputs).
Proof.
  induction inputs as [|i inputs IH]; cbn [ws_fixed.callbacks].
  - apply fixed_adds_ret.
  - apply fixed_adds_bind; [|intros _; exact IH].
    destruct i as [now text|now text]; cbn [ws_fixed.handle];
      (apply fixed_adds_bind; [apply fixed_adds_run_due|intros _]).
    + apply fixed_adds_on_recognizing.
    + unfold ws_fixed.on_recognized. destruct (truthy text) eqn:Ht.
      * apply fixed_adds_spawn, fixed_adds_send_final. exact Ht.
      * apply fixed_adds_ret.
Qed.

(** X15: the protocol of the fixed mode.  Whatever the callbacks, their times
    and the answers of the translator, a session of ws_fixed.py, up to the
    end of its last delayed translation, sends no empty partial or final
    text, no empty final translation, no provisional or replacing
    translation, and asks the translator about no blank text; and it does
    nothing else (no transcription service, no invalidation, no replay). *)
Theorem fixed_session_keeps_to_its_protocol
    (inputs : list ws_fixed.Input) (w : World) :
  Forall fixed_action (trace (env (ws_fixed.run inputs (ws_fixed.initial w)))).
Proof.
  unfold ws_fixed.run.
  assert (fixed_adds (ws_fixed.callbacks inputs ;; ws_fixed.run_due infinity)) as H
    by (apply fixed_adds_bind; [apply fixed_adds_callbacks|intros _; apply fixed_adds_run_due]).
  destruct (H (ws_fixed.initial w)) as (tr & Ht & Hf).
  rewrite Ht. exact Hf.
Qed.

(** ** What ends the main loops *)

Lemma ws_asr_chunk_returns (chunk : bytes) (s : State Session) :
  Nat.even (length chunk) = true -> fst (ws_asr_chunk chunk s) = Ok tt.
Proof.
  intros Heven. destruct s as [x e].
  destruct (provisional_lang x) as [l|] eqn:Hp.
  { now rewrite (ws_asr_chunk_started chunk x e l Hp). }
  pose proof (rms_energy_ok_even chunk) as Hok. rewrite Heven in Hok.
  destruct x as [db cu pl lk rc ps fs lt ltt lte uh].
  cbn [provisional_lang] in Hp. subst pl.
  unfold ws_asr_chunk. go.
  unfold bind at 1, of_res at 1.
  destruct (rms_energy chunk) as [energy|err]; [|discriminate].
  destruct (energy <? SILENCE_RMS_THRESHOLD)%float; [reflexivity|].
  go. destruct fs as [t|]; go.
  all: destruct (MIN_DETECT_SEC <=? _)%float;
    rewrite ?bool_decide_eq_true_2 by reflexivity; cbn [andb]; go.
  1, 3: (erewrite run_io by apply whisper_detect_eq); go;
    rewrite bool_decide_eq_false_2 by discriminate;
    rewrite andb_false_r; go;
    match goal with
    | |- context [set_provisional_lang (Some ?l) _] =>
        assert (truthy l = true) as ->
          by (destruct (in_LANG_MAP (detection_result _ _)) eqn:Hin;
              [apply in_LANG_MAP_truthy; exact Hin|reflexivity])
    end;
    unfold start_azure; go;
    match goal with
    | |- context [bool_decide ?P] => destruct (bool_decide P)
    end; cbn [negb andb]; go; reflexivity.
  all: destruct (MAX_DETECT_SEC <=? _)%float;
    rewrite ?bool_decide_eq_true_2 by reflexivity; cbn [andb]; go; try reflexivity.
  all: change (truthy "english") with true; cbv iota; unfold start_azure; go;
    match goal with
    | |- context [bool_decide ?P] => destruct (bool_decide P)
    end; cbn [negb andb]; go; reflexivity.
Qed.

(** X11: the main loop of main.py goes through all its input when every chunk
    has an even number of bytes, whatever the callbacks and the answers of
    the collaborators: no exception of a callback reaches it, and the
    energy of a frame of whole samples is always computed (the division is
    never by zero). *)
Theorem main_loop_survives_whole_samples (inputs : list Input) (s : State Session) :
  Forall (fun i => match i with
                   | Chunk chunk => Nat.even (length chunk) = true
                   | _ => True
                   end) inputs ->
  fst (ws_asr_loop inputs s) = Ok tt.
Proof.
  intros Hall. revert s. induction Hall as [|i inputs Hi _ IH]; intros s; [reflexivity|].
  cbn [ws_asr_loop]. unfold bind.
  assert (fst (handle i s) = Ok tt) as Hh
    by (destruct i; [now apply ws_asr_chunk_returns|reflexivity|reflexivity]).
  destruct (handle i s) as [[[]|err] s1]; cbn [fst] in Hh; [apply IH|discriminate].
Qed.

Lemma multilang_chunk_returns (chunk : bytes) (s : State ws_multilang_adaptive.Session) :
  fst (ws_multilang_adaptive.ws_multilang_adaptive_chunk chunk s)
  = if Nat.even (length chunk) then Ok tt else Raise StructError.
Proof.
  destruct s as [x e].
  unfold ws_multilang_adaptive.ws_multilang_adaptive_chunk. adaptive_go.
  unfold bind at 1, of_res at 1.
  pose proof (rms_energy_ok_even chunk) as Hok.
  destruct (rms_energy chunk) as [energy|err] eqn:Hr; cbn [is_ok] in Hok; rewrite <- Hok.
  - adaptive_go. destruct (_ <? energy)%float; adaptive_go; [reflexivity|].
    destruct (_ && _); adaptive_go; reflexivity.
  - cbn [fst]. f_equal.
    destruct chunk as [|a [|b rest]]; [discriminate Hr|cbn in Hr; congruence|].
    unfold rms_energy, struct_unpack_h in Hr.
    destruct (Nat.eqb _ _); [cbn [samples_of] in Hr; discriminate|congruence].
Qed.

(** X21: the main loop of ws_multilang_adaptive.py examines every chunk: it
    goes through all its chunks exactly when each has an even number of
    bytes, and otherwise ends on [struct.error]. *)
Theorem multilang_loop_ends_on_an_odd_chunk
    (chunks : list bytes) (s : State ws_multilang_adaptive.Session) :
  fst (ws_multilang_adaptive.ws_multilang_adaptive_loop chunks s)
  = if forallb (fun chunk => Nat.even (length chunk)) chunks
    then Ok tt else Raise StructError.
Proof.
  revert s. induction chunks as [|chunk chunks IH]; intros s; [reflexivity|].
  cbn [ws_multilang_adaptive.ws_multilang_adaptive_loop forallb]. unfold bind.
  pose proof (multilang_chunk_returns chunk s) as Hc.
  destruct (ws_multilang_adaptive.ws_multilang_adaptive_chunk chunk s) as [[[]|err] s1];
    cbn [fst] in Hc; destruct (Nat.even (length chunk)); try discriminate; cbn [andb].
  - apply IH.
  - exact Hc.
Qed.

(** ** The audio of an utterance *)

(** X10: a final callback of main.py ends in one of three ways, when the
    audio it works on fits a WAV file.  The translator's answer makes
    [azure_translate] raise: then the callback stops after the [final]
    event, and the audio of the utterance stays in the buffer, where the
    next utterance is added to it.  Or the translation is obtained and the
    callback runs to its end: then the buffer is empty.  Or the translation
    is obtained and a rollback stalls on a text that is [null]: then the
    callback ends on [AttributeError] after the invalidation, the language
    still open, the utterance in the history and its audio in the buffer;
    so it is for the Japanese session in the world of [null] texts. *)
Theorem final_callback_clears_the_audio_unless_it_raises
    (text : string) (x : Session) (e : Env) :
  fits_wav (current_utt_audio x) ->
  Forall (fun entry => fits_wav (pcm entry)) (utterance_history x) ->
  let r := on_final text {| vars := x; env := e |} in
  let e1 := logged (Send (ev_final text)) e in
  match translation_result text TARGET_LANG e1 with
  | Raise err =>
      fst r = Raise err
      /\ current_utt_audio (vars (snd r)) = current_utt_audio x
      /\ trace (env (snd r))
         = trace e ++ [Send (ev_final text);
                       PostTranslate text TARGET_LANG (next_translation e1 text TARGET_LANG)]
  | Ok trans =>
      (fst r = Ok tt /\ current_utt_audio (vars (snd r)) = [])
      \/ (fst r = Raise AttributeError
          /\ current_utt_audio (vars (snd r)) = current_utt_audio x
          /\ lang_locked x = false
          /\ lang_locked (vars (snd r)) = false
          /\ utterance_history (vars (snd r))
             = utterance_history x ++ [history_entry x text (Some trans)]
          /\ exists tr, trace (env (snd r)) = trace e ++ tr
                        /\ In (Send ev_invalidate_all_asr) tr)
  end
  /\ (let r0 := on_final "hello"
                  {| vars := japanese_session; env := env (initial null_world) |} in
      fst r0 = Raise AttributeError
      /\ current_utt_audio (vars (snd r0)) = loud
      /\ sent (trace (env (snd r0)))
         = [ [("type", JStr "final"); ("text", JStr "hello")];
             [("type", JStr "final_translate"); ("translated", JStr "hello");
              ("provisional", JBool true); ("replace_last", JBool false)];
             [("type", JStr "invalidate_all_asr")];
             [("type", JStr "invalidate_all_translation")] ]).
Proof.
  intros _ _ r e1. split; [|vm_compute; repeat split; reflexivity].
  destruct (on_final_run text x e) as (r' & x' & e' & tr & Hrun & Htr & Hcases).
  cbv zeta in Hcases. fold e1 in Hcases.
  destruct (translation_result text TARGET_LANG e1) as [trans|err] eqn:Hres.
  - assert (r = (r', {| vars := x'; env := e' |})) as -> by exact Hrun.
    cbn [fst snd vars env].
    destruct Hcases as [(err & Hraise & _)
                       | (trans' & Hok & [(-> & _ & Ha & _)
                                         | [(-> & _ & _ & _ & Ha & _)
                                           | (-> & Hl & Hh & Hl' & Ha & Hi)]])];
      [discriminate|left; auto|left; auto|].
    right. assert (trans' = trans) as -> by congruence.
    repeat split; try assumption. exists tr. auto.
  - subst r. rewrite on_final_eq. cbv zeta. fold e1. rewrite Hres.
    cbn [fst snd vars env]. split; [reflexivity|]. split; [destruct x; reflexivity|].
    rewrite after_translate_trace.
    assert (truthy (strip text) = true) as ->.
    { unfold translation_result in Hres.
      destruct (truthy (strip text)); [reflexivity|discriminate]. }
    subst e1. cbn [trace logged]. now rewrite <- app_assoc.
Qed.

(** ** The further theorems at concrete inputs *)

Lemma fits_wav_loud : fits_wav loud.
Proof. vm_compute. reflexivity. Qed.

Lemma whisper_detect_answers_in_lower_case_witness :
  fits_wav loud
  /\ a_language (next_audio (env (initial english_world)) (detect_request loud))
     = Some "English"
  /\ fst (whisper_detect loud (env (initial english_world))) = Ok "english".
Proof.
  split; [exact fits_wav_loud|]. split; [reflexivity|].
  destruct (whisper_detect_answers_in_lower_case loud (env (initial english_world))
              fits_wav_loud) as (lang & Hrun & _).
  rewrite Hrun. vm_compute in Hrun. congruence.
Defined.

Lemma utterance_is_transcribed_again_without_hint_witness :
  let s' := ws_multilang_adaptive.handle_utterance loud
              {| vars := session_with_full_cache; env := env (initial english_world) |} in
  let hello := {| a_status := 200; a_language := Some "English";
                  a_text := Text "hello" |} in
  fits_wav loud
  /\ fst s' = Ok tt
  /\ trace (env (snd s'))
     = [PostAudio {| endpoint := Transcriptions; file := loud;
                     response_format := Some "verbose_json";
                     language := Some "japanese" |} hello;
        Send [("type", JStr "final"); ("text", JStr "hello"); ("lang", JStr "English")];
        PostAudio {| endpoint := Translations; file := loud;
                     response_format := None; language := None |} hello;
        Send [("type", JStr "final_translate"); ("translated", JStr "hello");
              ("provisional", JBool false); ("replace_last", JBool false);
              ("lang", JStr "English")]]
  /\ ws_multilang_adaptive.LANG_CANDIDATES (vars (snd s'))
     = ["English"; "japanese"; "english"; "korean"; "french"].
Proof.
  intros s' hello. split; [exact fits_wav_loud|].
  destruct (utterance_is_transcribed_again_without_hint loud session_with_full_cache
              (env (initial english_world)) fits_wav_loud)
    as (Hr & Htr & _ & _ & _ & _ & _ & Hv).
  split; [exact Hr|]. split; [exact Htr|].
  fold s' in Hv. rewrite Hv. reflexivity.
Defined.

Lemma final_callback_clears_the_audio_unless_it_raises_witness :
  let r := on_final "hello"
             {| vars := japanese_session; env := env (initial english_world) |} in
  fits_wav (current_utt_audio japanese_session)
  /\ Forall (fun entry => fits_wav (pcm entry)) (utterance_history japanese_session)
  /\ fst r = Ok tt
  /\ current_utt_audio (vars (snd r)) = [].
Proof.
  intros r.
  assert (fits_wav (current_utt_audio japanese_session)) as H1
    by (vm_compute; reflexivity).
  assert (Forall (fun entry => fits_wav (pcm entry)) (utterance_history japanese_session))
    as H2 by (repeat (constructor; [vm_compute; reflexivity|]); constructor).
  split; [exact H1|]. split; [exact H2|].
  destruct (final_callback_clears_the_audio_unless_it_raises "hello" japanese_session
              (env (initial english_world)) H1 H2) as [H _].
  cbv zeta in H.
  assert (translation_result "hello" TARGET_LANG
            (logged (Send (ev_final "hello")) (env (initial english_world)))
          = Ok "hello") as Htr by reflexivity.
  rewrite Htr in H. destruct H as [H | (H & _)]; [exact H|].
  exfalso. vm_compute in H. discriminate.
Defined.

Lemma pcm_to_wav_layout_witness :
  pcm_to_wav loud = Ok wav_of_loud
  /\ length wav_of_loud = 48%nat
  /\ le_value (slice 4 4 wav_of_loud) = 40
  /\ le_value (slice 40 4 wav_of_loud) = 4
  /\ drop 44 wav_of_loud = loud.
Proof.
  assert (pcm_to_wav loud = Ok wav_of_loud) as H by (vm_compute; reflexivity).
  destruct (pcm_to_wav_layout loud wav_of_loud H)
    as (Hlen & _ & Hriff & _ & _ & _ & Hdata & Hpcm).
  exact (conj H (conj Hlen (conj Hriff (conj Hdata Hpcm)))).
Defined.

Lemma update_candidates_most_recent_first_witness :
  ws_multilang_adaptive.LANG_CANDIDATES
    (vars (snd (ws_multilang_adaptive.update_candidates "thai"
                  {| vars := session_with_full_cache; env := env (initial deaf_world) |})))
  = ["thai"; "japanese"; "english"; "korean"; "french"]
  /\ ws_multilang_adaptive.LANG_CANDIDATES
       (vars (snd (ws_multilang_adaptive.update_candidates "korean"
                     {| vars := session_with_full_cache; env := env (initial deaf_world) |})))
     = ["korean"; "japanese"; "english"; "french"; "german"].
Proof.
  assert (length (ws_multilang_adaptive.LANG_CANDIDATES session_with_full_cache)
          <= ws_multilang_adaptive.MAX_CANDIDATES)%nat as Hlen by (vm_compute; lia).
  destruct (update_candidates_most_recent_first "thai" session_with_full_cache
              (env (initial deaf_world)) Hlen) as (_ & _ & H1 & _).
  destruct (update_candidates_most_recent_first "korean" session_with_full_cache
              (env (initial deaf_world)) Hlen) as (_ & _ & H2 & _).
  exact (conj H1 H2).
Defined.

Lemma cache_ok_full_cache : cache_ok full_cache.
Proof.
  repeat split.
  - apply (bool_decide_unpack _). vm_compute. exact I.
  - vm_compute. lia.
  - repeat constructor.
Qed.

Lemma update_candidates_keeps_the_cache_witness :
  cache_ok (ws_multilang_adaptive.LANG_CANDIDATES
              (vars (snd (ws_multilang_adaptive.update_candidates "thai"
                            {| vars := session_with_full_cache;
                               env := env (initial deaf_world) |})))).
Proof.
  exact (update_candidates_keeps_the_cache "thai" session_with_full_cache
           (env (initial deaf_world)) cache_ok_full_cache).
Defined.

Lemma segmentation_conserves_the_audio_witness :
  let r := ws_multilang_adaptive.ws_multilang_adaptive_loop [silence; loud; silence]
             (adaptive_session_with [] english_world) in
  translated_audio (trace (env (snd r))) = [silence ++ loud ++ silence]
  /\ concat (translated_audio (trace (env (snd r))))
       ++ ws_multilang_adaptive.current_utt_audio (vars (snd r))
     = silence ++ loud ++ silence
  /\ written (trace (env (snd r))) = [silence; loud; silence].
Proof.
  split; [vm_compute; reflexivity|].
  assert (fst (ws_multilang_adaptive.ws_multilang_adaptive_loop [silence; loud; silence]
                 (adaptive_session_with [] english_world)) = Ok tt) as H
    by (vm_compute; reflexivity).
  exact (segmentation_conserves_the_audio [silence; loud; silence] [] english_world H).
Defined.

Lemma session_keeps_the_cache_witness :
  cache_ok (ws_multilang_adaptive.LANG_CANDIDATES
              (vars (snd (ws_multilang_adaptive.ws_multilang_adaptive_loop
                            [silence; loud; silence]
                            (adaptive_session_with full_cache english_world))))).
Proof.
  exact (session_keeps_the_cache [silence; loud; silence] full_cache english_world
           cache_ok_full_cache).
Defined.

Lemma leading_silence_is_never_segmented_witness :
  ws_multilang_adaptive.ws_multilang_adaptive_loop [silence; silence]
    (adaptive_session_with full_cache english_world)
  = (Ok tt,
     {| vars := {| ws_multilang_adaptive.current_utt_audio := silence ++ silence;
                   ws_multilang_adaptive.last_voice_time := None;
                   ws_multilang_adaptive.LANG_CANDIDATES := full_cache |};
        env := {| world := english_world; requests := 0; clock_reads := 2;
                  trace := [StreamWrite silence; StreamWrite silence] |} |}).
Proof.
  assert (Forall (fun c => unvoiced c = true) [silence; silence]) as H
    by (repeat constructor).
  exact (leading_silence_is_never_segmented [silence; silence] full_cache english_world H).
Defined.

Lemma ws_fixed_opens_in_a_language_of_the_table_witness :
  exists lang azure_lang : string,
    ws_fixed_open {[ "lang" := ["JA"] ]} (env (initial deaf_world))
    = (Ok tt,
       {| world := deaf_world; requests := 0; clock_reads := 0;
          trace := [Send (ev_lang_locked lang); RecognizerStart azure_lang] |})
    /\ lang = "ja" /\ azure_lang = "ja-JP".
Proof.
  assert (default ["en"] (({[ "lang" := ["JA"] ]} : gmap string (list string)) !! "lang")
          = ["JA"]) as H by (vm_compute; reflexivity).
  destruct (ws_fixed_opens_in_a_language_of_the_table
              {[ "lang" := ["JA"] ]} "JA" [] (env (initial deaf_world)) H)
    as (lang & azure_lang & Hrun & Hl & Hlang & _).
  exists lang, azure_lang. split; [exact Hrun|].
  assert (lang = "ja") as -> by exact Hlang.
  split; [reflexivity|]. vm_compute in Hl. congruence.
Defined.

Lemma provisional_language_comes_from_the_detector_witness :
  let s' := snd (ws_asr_chunk loud (initial english_world)) in
  provisional_lang (vars s') = Some "english"
  /\ match provisional_lang (vars s') with
     | None => trace (env s') = []
     | Some l =>
         exists (rs : AudioResponse) (rest : list Action),
           trace (env s') = PostAudio (detect_request loud) rs :: rest
           /\ l = (if in_LANG_MAP (detected_language rs)
                   then detected_language rs else "english")
     end.
Proof.
  split; [vm_compute; reflexivity|].
  exact (provisional_language_comes_from_the_detector loud initial_session
           (env (initial english_world)) eq_refl).
Defined.

Lemma blank_final_is_taken_as_an_utterance_witness :
  on_final " "
    {| vars := greeted_session [1%float]; env := env (initial english_world) |}
  = (detected <- io (whisper_detect loud) ;; on_final_verify detected)
      {| vars := set_last_translation_text (Some "")
                   (set_utterance_history
                      [history_entry (greeted_session [1%float]) " " (Some "")]
                      (greeted_session [1%float]));
         env := logged (Send (ev_final_translate "" false false))
                  (ticked (logged (Send (ev_final " ")) (env (initial english_world)))) |}.
Proof.
  exact (blank_final_is_taken_as_an_utterance " " (greeted_session [1%float])
           (env (initial english_world)) eq_refl).
Defined.

Lemma main_loop_survives_whole_samples_witness :
  fst (ws_asr_loop [Chunk silence; Chunk loud; Recognized "hello"; Chunk loud]
         (initial unauthorized_world)) = Ok tt.
Proof.
  apply main_loop_survives_whole_samples. repeat constructor.
Defined.
